(** * SimuladorMatriz: the expression engine

    A shallow embedding of [src/utils/expressionParser.ts] (tokenizer,
    shunting-yard parser, stack evaluator) and of the matrix primitives it
    imports from [./matrixMath] ([createEmptyMatrix], [addMatrices],
    [subtractMatrices], [multiplyTwoMatrices], [transposeMatrix],
    [powerMatrix], [scalarOperation] and the three [generic*] dispatchers),
    followed by the properties of the specification that concern them.
    The embedding also covers the other helpers of [matrixMath] that the
    interface calls ([cloneMatrixData], [validateDimensionsMatch],
    [validateMultiplicationChain], [multiplyMatrices]), the name template
    of [addMatrix] and the edit of a cell ([updateMatrixData]) in
    [App.tsx], with further properties of all of these at the end.

    Conventions of the embedding.
    - A JavaScript [number] is a binary64 float: Rocq's primitive [float].
      The dimensions [rows] and [cols] of an entity, which the data model
      declares as integers, are natural numbers.
    - A JavaScript string is a Rocq [string].  The model is exact on ASCII
      text: [toUpperCase] maps the letters a-z, [trim] removes the ASCII
      white space characters, other characters are left alone.
    - Arrays are mutable objects.  The two array types of the engine
      ([number[]], a row; [number[][]], a grid of row references) live in a
      store indexed by locations; [arr[i] = v] is a store update.  A
      [Matrix] object is never assigned to after its creation (the source
      only builds object literals and spreads), so entities are records
      whose [data] field is the location of a grid.
    - [crypto.randomUUID()] draws from an oracle kept in the state.
    - A thrown exception is an outcome [Throw e]; the state reached when it
      was thrown is kept, since store effects are not rolled back.
    - The optional [steps] narration of an entity is not represented, and
      [String(x)] on numbers, which only display names use, is a parameter.
      The source keeps the narration in arrays, and an array holds at most
      [2^32 - 1] elements: [powerMatrix], which gathers the [rows * cols + 2]
      lines of each of its products in one array, cannot return when they do
      not fit.  The general statement about powers carries that bound. *)

From Stdlib Require Import ZArith Floats String Ascii DecimalString.
From stdpp Require Import gmap strings list fin_maps.

Local Open Scope string_scope.
Local Open Scope list_scope.
Local Open Scope nat_scope.

(** ** Characters and the string built-ins used by the engine *)

Definition code (c : ascii) : nat := nat_of_ascii c.

Definition between (lo hi n : nat) : bool := (lo <=? n) && (n <=? hi).

(** [[0-9]] *)
Definition is_digit (c : ascii) : bool := between 48 57 (code c).

(** [[a-zA-Z]] *)
Definition is_letter (c : ascii) : bool :=
  between 65 90 (code c) || between 97 122 (code c).

(** [['+\-*/^(),]] *)
Definition is_opchar (c : ascii) : bool :=
  existsb (Ascii.eqb c) ["'"; "+"; "-"; "*"; "/"; "^"; "("; ")"; ","]%char.

(** White space as [String.prototype.trim] sees it, on ASCII: TAB, LF, VT,
    FF, CR and SPACE. *)
Definition is_space (c : ascii) : bool :=
  between 9 13 (code c) || (code c =? 32).

Definition upper_char (c : ascii) : ascii :=
  if between 97 122 (code c) then ascii_of_nat (code c - 32) else c.

Fixpoint toUpperCase (s : string) : string :=
  match s with
  | EmptyString => EmptyString
  | String c s' => String (upper_char c) (toUpperCase s')
  end.

Fixpoint trimStart (s : string) : string :=
  match s with
  | String c s' => if is_space c then trimStart s' else s
  | EmptyString => EmptyString
  end.

(** [trimEnd] drops the trailing white space: a character is kept when it is
    not a space or when something is kept after it. *)
Fixpoint trimEnd (s : string) : string :=
  match s with
  | EmptyString => EmptyString
  | String c s' =>
      match trimEnd s' with
      | EmptyString => if is_space c then EmptyString else String c EmptyString
      | t => String c t
      end
  end.

Definition trim (s : string) : string := trimEnd (trimStart s).

(** [s.startsWith(p)] *)
Fixpoint startsWith (s p : string) : bool :=
  match p, s with
  | EmptyString, _ => true
  | String a p', String b s' => Ascii.eqb a b && startsWith s' p'
  | String _ _, EmptyString => false
  end.

(** [s.substring(n)]: the string without its first [n] characters. *)
Fixpoint substring_from (n : nat) (s : string) : string :=
  match n, s with
  | O, _ => s
  | S n', String _ s' => substring_from n' s'
  | S _, EmptyString => EmptyString
  end.

(** [String.fromCharCode(n)], for a code below 256. *)
Definition fromCharCode (n : nat) : string := String (ascii_of_nat n) EmptyString.

(** [s + c] for a one-character [c]. *)
Definition snoc (s : string) (c : ascii) : string := s +:+ String c EmptyString.

(** ** Tokens *)

Inductive TokenType := NUMBER | IDENTIFIER | OPERATOR | LPAREN | RPAREN | COMMA.

Record Token := mkToken { type : TokenType; value : string }.

Global Instance TokenType_eq_dec : EqDecision TokenType.
Proof. solve_decision. Defined.

Global Instance Token_eq_dec : EqDecision Token.
Proof. solve_decision. Defined.

(** ** Tokenizer

    The source scans with the global regular expression
    [/([0-9]+(\.[0-9]+)?)|([a-zA-Z]+)|(['+\-*/^(),])|(\s+)/g]: [exec] finds
    the next match at or after the last one, so a character that starts no
    alternative is passed over, and a white-space match is dropped by
    [continue].  Both cases produce no token.  The four character classes
    are disjoint, so the scan is the automaton below: [lexer] is the match
    in progress, [step] consumes one character. *)

Inductive lexer :=
| Idle
| InNum (lexeme : string)   (* [0-9]+ *)
| InDot (lexeme : string)   (* [0-9]+ and a dot: kept only if a digit follows *)
| InFrac (lexeme : string)  (* [0-9]+ . [0-9]+ *)
| InId (lexeme : string).   (* [a-zA-Z]+ *)

(** The token of the match in progress, when the match ends. *)
Definition flush (st : lexer) : list Token :=
  match st with
  | Idle => []
  | InNum s | InDot s | InFrac s => [mkToken NUMBER s]
  | InId s => [mkToken IDENTIFIER s]
  end.

(** The source's chain on the operator group:
    [(] is LPAREN, [)] is RPAREN, anything else (the comma too) OPERATOR. *)
Definition opToken (c : ascii) : Token :=
  if Ascii.eqb c "("%char then mkToken LPAREN "("
  else if Ascii.eqb c ")"%char then mkToken RPAREN ")"
  else mkToken OPERATOR (String c EmptyString).

(** A match starting at character [c]. *)
Definition start (c : ascii) : list Token * lexer :=
  if is_digit c then ([], InNum (String c EmptyString))
  else if is_letter c then ([], InId (String c EmptyString))
  else if is_opchar c then ([opToken c], Idle)
  else ([], Idle).

Definition restart (done : list Token) (c : ascii) : list Token * lexer :=
  let '(ts, st) := start c in (done ++ ts, st).

Definition step (st : lexer) (c : ascii) : list Token * lexer :=
  match st with
  | Idle => start c
  | InNum s =>
      if is_digit c then ([], InNum (snoc s c))
      else if Ascii.eqb c "."%char then ([], InDot s)
      else restart (flush st) c
  | InDot s =>
      if is_digit c then ([], InFrac (snoc (snoc s "."%char) c))
      else restart (flush st) c
  | InFrac s =>
      if is_digit c then ([], InFrac (snoc s c)) else restart (flush st) c
  | InId s =>
      if is_letter c then ([], InId (snoc s c)) else restart (flush st) c
  end.

Fixpoint scan (st : lexer) (s : string) : list Token :=
  match s with
  | EmptyString => flush st
  | String c s' => let '(ts, st') := step st c in ts ++ scan st' s'
  end.

Definition tokenize (expr : string) : list Token := scan Idle expr.

(** ** Shunting-yard *)

(** The [precedence] record; a key that is absent reads as [undefined]. *)
Definition precedence (op : string) : option nat :=
  if String.eqb op "+" then Some 1
  else if String.eqb op "-" then Some 1
  else if String.eqb op "*" then Some 2
  else if String.eqb op "/" then Some 2
  else if String.eqb op "^" then Some 3
  else if String.eqb op "'" then Some 4
  else None.

(** [a >= b] on two table entries: false as soon as one is [undefined]. *)
Definition prec_ge (a b : option nat) : bool :=
  match a, b with
  | Some x, Some y => y <=? x
  | _, _ => false
  end.

Definition is_type (t : TokenType) (tok : Token) : bool :=
  bool_decide (type tok = t).

(** The operator stack is a list whose head is the top of the stack (the
    last element of the source's array). *)

(** The [while] loop of the OPERATOR branch. *)
Fixpoint popOperators (token : Token) (outputQueue operatorStack : list Token)
  : list Token * list Token :=
  match operatorStack with
  | top :: rest =>
      if is_type OPERATOR top
         && prec_ge (precedence (value top)) (precedence (value token))
         && negb (String.eqb (value token) "^")
      then popOperators token (outputQueue ++ [top]) rest
      else (outputQueue, operatorStack)
  | [] => (outputQueue, operatorStack)
  end.

(** The [while] loop of the RPAREN branch. *)
Fixpoint popToLParen (outputQueue operatorStack : list Token)
  : list Token * list Token :=
  match operatorStack with
  | top :: rest =>
      if negb (is_type LPAREN top)
      then popToLParen (outputQueue ++ [top]) rest
      else (outputQueue, operatorStack)
  | [] => (outputQueue, operatorStack)
  end.

(** The body of [tokens.forEach]. *)
Definition rpnStep (st : list Token * list Token) (token : Token)
  : list Token * list Token :=
  let '(outputQueue, operatorStack) := st in
  match type token with
  | NUMBER | IDENTIFIER => (outputQueue ++ [token], operatorStack)
  | OPERATOR =>
      let '(out, stk) := popOperators token outputQueue operatorStack in
      (out, token :: stk)
  | LPAREN => (outputQueue, token :: operatorStack)
  | RPAREN =>
      let '(out, stk) := popToLParen outputQueue operatorStack in
      (out, tail stk)
  | COMMA => (outputQueue, operatorStack)
  end.

Definition toRPN (tokens : list Token) : list Token :=
  let '(outputQueue, operatorStack) := foldl rpnStep ([], []) tokens in
  outputQueue ++ operatorStack.

(** ** Numbers

    The built-ins the engine applies to numbers, on binary64 floats. *)

(** The float nearest to the rational [n / d] ([0 <= n], [0 < d]), ties to
    even: the rounding [parseFloat] applies to a decimal numeral. *)
Definition nearest_ratio (n d : Z) : float :=
  if (n =? 0)%Z then 0%float
  else
    let '(q, e, l) := SFdiv_core_binary prec emax n 0 d 0 in
    SF2Prim (binary_round_aux prec emax false q e l).

Definition digit_value (c : ascii) : Z := Z.of_nat (code c - 48).

(** The value of a digit string read in base ten, continuing from [acc]. *)
Fixpoint decimal_value (acc : Z) (s : string) : Z :=
  match s with
  | EmptyString => acc
  | String c s' => decimal_value (10 * acc + digit_value c)%Z s'
  end.

Fixpoint takeDigits (s : string) : string :=
  match s with
  | String c s' => if is_digit c then String c (takeDigits s') else EmptyString
  | EmptyString => EmptyString
  end.

Fixpoint dropDigits (s : string) : string :=
  match s with
  | String c s' => if is_digit c then dropDigits s' else s
  | EmptyString => EmptyString
  end.

(** [parseFloat] on the lexemes the tokenizer produces, [digits] or
    [digits.digits]: the nearest float to the decimal value.  (On a string
    that does not start with a digit the model answers NaN; the evaluator
    never passes one.) *)
Definition parseFloat (s : string) : float :=
  let int := takeDigits s in
  if String.eqb int "" then nan
  else
    let frac :=
      match dropDigits s with
      | String "." rest => takeDigits rest
      | _ => EmptyString
      end in
    nearest_ratio (decimal_value (decimal_value 0 int) frac)
                  (10 ^ Z.of_nat (String.length frac)).

(** [parseFloat(x.toFixed(4))].  For a finite [x] below [1e21] in
    magnitude, [toFixed(4)] prints the integer [n] nearest to [|x| * 10^4]
    (the larger one on a tie) with a decimal point before its last four
    digits, and a minus sign when [x < 0]; [parseFloat] reads that numeral
    back.  Otherwise [toFixed] prints [x] as [String(x)] does, which
    [parseFloat] reads back as [x]. *)
Definition round4 (x : float) : float :=
  match Prim2SF x with
  | S754_finite s m e =>
      if (abs x <? 0x1.b1ae4d6e2ef5p+69)%float then
        let n :=
          if (0 <=? e)%Z then (Z.pos m * 2 ^ e * 10000)%Z
          else ((2 * Z.pos m * 10000 + 2 ^ (- e)) / 2 ^ (1 - e))%Z in
        let r := nearest_ratio n 10000 in
        if s then (- r)%float else r
      else x
  | S754_zero _ => 0%float
  | _ => x
  end.

(** The integer a float denotes, when it denotes one ([Number.isInteger]). *)
Definition integerValue (x : float) : option Z :=
  match Prim2SF x with
  | S754_zero _ => Some 0%Z
  | S754_finite s m e =>
      let v :=
        if (0 <=? e)%Z then Some (Z.pos m * 2 ^ e)%Z
        else if (Z.pos m mod 2 ^ (- e) =? 0)%Z then Some (Z.pos m / 2 ^ (- e))%Z
        else None in
      (fun z => if s then Z.opp z else z) <$> v
  | _ => None
  end.

(** ** Entities, store and effects *)

Definition loc := positive.

(** The [Matrix] interface of [types.ts], without [steps]. *)
Record Matrix := mkMatrix {
  id : string;
  name : string;
  rows : nat;
  cols : nat;
  data : loc
}.

Inductive OperationType :=
| ADD | SUBTRACT | MULTIPLY | SCALAR_ADD | SCALAR_SUB | SCALAR_MUL
| TRANSPOSE | POWER | EXPRESSION.

(** What the engine throws, by the kinds of the specification; the comment
    gives the message of the source.  [TypeError] is the engine reading an
    index of [undefined] (a grid with too few rows).  [Dangling] is a
    reference to no array, which no caller can produce.  [NoTermination]
    stands for a loop that never ends. *)
Inductive error :=
| EmptyExpression                  (* La expresión está vacía. *)
| UnknownVariable (lexeme : string) (* Matriz '...' no encontrada. *)
| MissingOperand                   (* Operación inválida (faltan operandos). *)
| TransposeRequiresMatrix          (* Transpuesta solo aplica a matrices. *)
| ScalarMatrixAdditionUnsupported  (* No se puede sumar/restar un escalar con una matriz ... *)
| DimensionMismatch                (* Dimensiones incompatibles ... / ... debe ser cuadrada ... *)
| InvalidExponent                  (* El exponente debe ser un entero positivo ... *)
| PowerOperandTypeError            (* Potencia requiere base Matriz y exponente Numérico. *)
| UnknownOperator (lexeme : string) (* Operador desconocido: ... *)
| MalformedExpression              (* Error en la evaluación de la expresión. *)
| FinalResultMustBeMatrix          (* El resultado final debe ser una Matriz, no un número. *)
| TypeError
| Dangling
| NoTermination.

Inductive outcome (A : Type) :=
| Ok (a : A)
| Throw (e : error).
Arguments Ok {A} a.
Arguments Throw {A} e.

(** The store of arrays and the UUID oracle: [rng k] is the [k]-th
    identifier [crypto.randomUUID()] returns, [drawn] counts the draws. *)
Record state := mkState {
  rowsH : gmap loc (list float);
  gridsH : gmap loc (list loc);
  rng : nat -> string;
  drawn : nat
}.

Definition M (A : Type) : Type := state -> outcome A * state.

Definition ret {A} (a : A) : M A := fun σ => (Ok a, σ).

Definition throw {A} (e : error) : M A := fun σ => (Throw e, σ).

Definition bind {A B} (m : M A) (f : A -> M B) : M B :=
  fun σ =>
    match m σ with
    | (Ok a, σ') => f a σ'
    | (Throw e, σ') => (Throw e, σ')
    end.

Notation "x <- m ; k" := (bind m (fun x => k))
  (at level 20, m at level 100, k at level 200, right associativity).

(** [xs.forEach(body)] and [for (x of xs) body]. *)
Fixpoint forEach {X} (xs : list X) (body : X -> M unit) : M unit :=
  match xs with
  | [] => ret tt
  | x :: xs' => _ <- body x ; forEach xs' body
  end.

(** A loop that threads an accumulator. *)
Fixpoint foldM {X A} (f : A -> X -> M A) (a : A) (xs : list X) : M A :=
  match xs with
  | [] => ret a
  | x :: xs' => a' <- f a x ; foldM f a' xs'
  end.

Fixpoint mapEach {X Y} (f : X -> M Y) (xs : list X) : M (list Y) :=
  match xs with
  | [] => ret []
  | x :: xs' => y <- f x ; ys <- mapEach f xs' ; ret (y :: ys)
  end.

(** *** Store operations *)

Definition allocRow (r : list float) : M loc := fun σ =>
  let l := fresh (dom (rowsH σ)) in
  (Ok l, mkState (<[l := r]> (rowsH σ)) (gridsH σ) (rng σ) (drawn σ)).

Definition allocGrid (g : list loc) : M loc := fun σ =>
  let l := fresh (dom (gridsH σ)) in
  (Ok l, mkState (rowsH σ) (<[l := g]> (gridsH σ)) (rng σ) (drawn σ)).

Definition getRow (l : loc) : M (list float) := fun σ =>
  match rowsH σ !! l with
  | Some r => (Ok r, σ)
  | None => (Throw Dangling, σ)
  end.

Definition getGrid (l : loc) : M (list loc) := fun σ =>
  match gridsH σ !! l with
  | Some g => (Ok g, σ)
  | None => (Throw Dangling, σ)
  end.

Definition putRow (l : loc) (r : list float) : M unit := fun σ =>
  (Ok tt, mkState (<[l := r]> (rowsH σ)) (gridsH σ) (rng σ) (drawn σ)).

Definition randomUUID : M string := fun σ =>
  (Ok (rng σ (drawn σ)), mkState (rowsH σ) (gridsH σ) (rng σ) (S (drawn σ))).

(** [row[j] = v].  Inside the row the cell is replaced; past its end the
    array grows, the skipped cells being holes.  A hole, like any missing
    cell, reads as [undefined], which every arithmetic use turns into NaN:
    the model keeps NaN for it. *)
Definition setIndex (row : list float) (j : nat) (v : float) : list float :=
  if j <? length row then <[j := v]> row
  else row ++ replicate (j - length row) nan ++ [v].

(** [grid[i][j]] as the engine reads it: a [TypeError] when row [i] is
    missing, [undefined] (NaN, see [setIndex]) when cell [j] is. *)
Definition readCell (grid : loc) (i j : nat) : M float :=
  g <- getGrid grid ;
  match g !! i with
  | None => throw TypeError
  | Some r => row <- getRow r ; ret (default nan (row !! j))
  end.

(** [grid[i][j] = v] *)
Definition writeCell (grid : loc) (i j : nat) (v : float) : M unit :=
  g <- getGrid grid ;
  match g !! i with
  | None => throw TypeError
  | Some r => row <- getRow r ; putRow r (setIndex row j v)
  end.

(** ** The matrix primitives ([matrixMath]) *)

(** [Array.from({ length: rows }, () => Array(cols).fill(initialValue))]:
    one new row array per row, then the array of their references. *)
Definition createEmptyMatrix (rows cols : nat) (initialValue : float) : M loc :=
  rs <- mapEach (fun _ => allocRow (replicate cols initialValue)) (seq 0 rows) ;
  allocGrid rs.

(** [parts.join(sep)] *)
Fixpoint join (sep : string) (parts : list string) : string :=
  match parts with
  | [] => EmptyString
  | [x] => x
  | x :: rest => x +:+ sep +:+ join sep rest
  end.

Section Engine.

(** [String(x)] for a number [x]: only display names use it, and the
    development is parametric in it. *)
Variable numberToString : float -> string.

Definition addMatrices (matrices : list Matrix) : M Matrix :=
  match matrices with
  | [] => throw TypeError
  | first :: _ =>
      let rows := rows first in
      let cols := cols first in
      resultData <- createEmptyMatrix rows cols 0 ;
      _ <- forEach (seq 0 rows) (fun i =>
        forEach (seq 0 cols) (fun j =>
          sum <- foldM (fun sum m =>
                   val <- readCell (data m) i j ; ret (sum + val)%float)
                 0%float matrices ;
          writeCell resultData i j sum)) ;
      let name :=
        if length matrices <=? 3
        then "(" +:+ join " + " (map name matrices) +:+ ")"
        else "Suma Total" in
      id <- randomUUID ;
      ret (mkMatrix id name rows cols resultData)
  end.

Definition subtractMatrices (matrices : list Matrix) : M Matrix :=
  match matrices with
  | [] => throw TypeError
  | first :: others =>
      let rows := rows first in
      let cols := cols first in
      resultData <- createEmptyMatrix rows cols 0 ;
      _ <- forEach (seq 0 rows) (fun i =>
        forEach (seq 0 cols) (fun j =>
          val0 <- readCell (data first) i j ;
          val <- foldM (fun val m =>
                   subVal <- readCell (data m) i j ; ret (val - subVal)%float)
                 val0 others ;
          writeCell resultData i j val)) ;
      let name :=
        if length matrices <=? 3
        then "(" +:+ join " - " (map name matrices) +:+ ")"
        else "Resta Secuencial" in
      id <- randomUUID ;
      ret (mkMatrix id name rows cols resultData)
  end.

Definition multiplyTwoMatrices (A B : Matrix) : M Matrix :=
  resultData <- createEmptyMatrix (rows A) (cols B) 0 ;
  _ <- forEach (seq 0 (rows A)) (fun i =>
    forEach (seq 0 (cols B)) (fun j =>
      sum <- foldM (fun sum k =>
               valA <- readCell (data A) i k ;
               valB <- readCell (data B) k j ;
               ret (sum + valA * valB)%float)
             0%float (seq 0 (cols A)) ;
      let finalVal := round4 sum in
      writeCell resultData i j finalVal)) ;
  id <- randomUUID ;
  ret (mkMatrix id ("(" +:+ name A +:+ " · " +:+ name B +:+ ")")
                (rows A) (cols B) resultData).

Definition transposeMatrix (matrix : Matrix) : M Matrix :=
  let newRows := cols matrix in
  let newCols := rows matrix in
  resultData <- createEmptyMatrix newRows newCols 0 ;
  _ <- forEach (seq 0 (rows matrix)) (fun i =>
    forEach (seq 0 (cols matrix)) (fun j =>
      v <- readCell (data matrix) i j ;
      writeCell resultData j i v)) ;
  id <- randomUUID ;
  ret (mkMatrix id (name matrix +:+ "ᵀ") newRows newCols resultData).

(** [n] passes through the body of [for (let i = 1; i < exponent; i++)]. *)
Fixpoint powerLoop (n : nat) (matrix result : Matrix) : M Matrix :=
  match n with
  | O => ret result
  | S n' =>
      nextResult <- multiplyTwoMatrices result matrix ;
      powerLoop n' matrix nextResult
  end.

(** The loop counter is a float: it stops growing at [2^53], so the loop
    ends only for an exponent up to that bound.  (The array [allSteps] of
    the narration, which the model leaves out, is full before that: see
    the conventions.) *)
Definition powerMatrix (matrix : Matrix) (exponent : float) : M Matrix :=
  if negb (rows matrix =? cols matrix) then throw DimensionMismatch
  else
    match integerValue exponent with
    | None => throw InvalidExponent
    | Some n =>
        if (n <? 1)%Z then throw InvalidExponent
        else if (n =? 1)%Z then
          id <- randomUUID ;
          ret (mkMatrix id (name matrix +:+ "^1") (rows matrix) (cols matrix)
                        (data matrix))
        else if (2 ^ 53 <? n)%Z then throw NoTermination
        else
          result <- powerLoop (Z.to_nat (n - 1)) matrix matrix ;
          id <- randomUUID ;
          ret (mkMatrix id (name matrix +:+ "^" +:+ numberToString exponent)
                        (rows result) (cols result) (data result))
    end.

Definition scalarOperation (matrix : Matrix) (scalar : float) (type : OperationType)
  : M Matrix :=
  g <- getGrid (data matrix) ;
  newRows <- mapEach (fun r =>
      row <- getRow r ;
      allocRow (map (fun val =>
        let res :=
          match type with
          | SCALAR_ADD => (val + scalar)%float
          | SCALAR_SUB => (val - scalar)%float
          | SCALAR_MUL => (val * scalar)%float
          | _ => val
          end in
        round4 res) row)) g ;
  resultData <- allocGrid newRows ;
  id <- randomUUID ;
  ret (mkMatrix id (numberToString scalar +:+ "(" +:+ name matrix +:+ ")")
                (rows matrix) (cols matrix) resultData).

(** *** Generic dispatch *)

(** [Matrix | number] *)
Inductive operand :=
| Num (n : float)
| Mat (m : Matrix).

Definition genericMultiply (a b : operand) : M operand :=
  match a, b with
  | Num x, Num y => ret (Num (x * y)%float)
  | Num x, Mat mB => r <- scalarOperation mB x SCALAR_MUL ; ret (Mat r)
  | Mat mA, Num y => r <- scalarOperation mA y SCALAR_MUL ; ret (Mat r)
  | Mat mA, Mat mB =>
      if negb (cols mA =? rows mB) then throw DimensionMismatch
      else r <- multiplyTwoMatrices mA mB ; ret (Mat r)
  end.

Definition genericAdd (a b : operand) : M operand :=
  match a, b with
  | Num x, Num y => ret (Num (x + y)%float)
  | Mat mA, Mat mB =>
      if negb (rows mA =? rows mB) || negb (cols mA =? cols mB)
      then throw DimensionMismatch
      else r <- addMatrices [mA; mB] ; ret (Mat r)
  | _, _ => throw ScalarMatrixAdditionUnsupported
  end.

Definition genericSubtract (a b : operand) : M operand :=
  match a, b with
  | Num x, Num y => ret (Num (x - y)%float)
  | Mat mA, Mat mB =>
      if negb (rows mA =? rows mB) || negb (cols mA =? cols mB)
      then throw DimensionMismatch
      else r <- subtractMatrices [mA; mB] ; ret (Mat r)
  | _, _ => throw ScalarMatrixAdditionUnsupported
  end.

(** ** Variable resolver

    [matrixMap] is a plain object used as a map from names to entities.
    Every key the engine reads is an identifier in upper case, which is
    never a property of [Object.prototype]. *)

(** The body of [availableMatrices.forEach((m, idx) => ...)]. *)
Definition register (matrixMap : gmap string Matrix) (m : Matrix) (idx : nat)
  : gmap string Matrix :=
  let byName := <[toUpperCase (name m) := m]> matrixMap in
  let byAlias :=
    if startsWith (toUpperCase (name m)) "MATRIZ " then
      let shortName := toUpperCase (trim (substring_from 7 (name m))) in
      if String.eqb shortName "" then byName else <[shortName := m]> byName
    else byName in
  let charCode := fromCharCode (65 + idx) in
  match byAlias !! charCode with
  | Some _ => byAlias
  | None => <[charCode := m]> byAlias
  end.

Fixpoint registerAll (ms : list Matrix) (idx : nat) (matrixMap : gmap string Matrix)
  : gmap string Matrix :=
  match ms with
  | [] => matrixMap
  | m :: ms' => registerAll ms' (S idx) (register matrixMap m idx)
  end.

Definition buildMatrixMap (availableMatrices : list Matrix) : gmap string Matrix :=
  registerAll availableMatrices 0 ∅.

(** ** Evaluator *)

(** The evaluator's two local arrays: the operand stack (head = top) and
    the execution trace (in order of insertion). *)
Record evalState := mkEval {
  stack : list operand;
  executionTrace : list Matrix
}.

(** [Object.values(matrixMap).some(m => m.id === val.id)] *)
Definition isInput (matrixMap : gmap string Matrix) (val : Matrix) : bool :=
  bool_decide (map_Exists (fun _ m => id m = id val) matrixMap).

Definition pushResult (matrixMap : gmap string Matrix) (val : operand) (st : evalState)
  : evalState :=
  match val with
  | Mat m =>
      mkEval (val :: stack st)
             (if isInput matrixMap m then executionTrace st
              else executionTrace st ++ [m])
  | Num _ => mkEval (val :: stack st) (executionTrace st)
  end.

(** The [switch] on a binary operator, given its two operands. *)
Definition applyBinary (op : string) (a b : operand) : M operand :=
  if String.eqb op "+" then genericAdd a b
  else if String.eqb op "-" then genericSubtract a b
  else if String.eqb op "*" then genericMultiply a b
  else if String.eqb op "^" then
    match a, b with
    | Mat m, Num n => r <- powerMatrix m n ; ret (Mat r)
    | _, _ => throw PowerOperandTypeError
    end
  else throw (UnknownOperator op).

(** The OPERATOR branch of the evaluation loop. *)
Definition applyOperator (matrixMap : gmap string Matrix) (op : string) (st : evalState)
  : M evalState :=
  if String.eqb op "'" then
    match stack st with
    | Mat a :: rest =>
        r <- transposeMatrix a ;
        ret (pushResult matrixMap (Mat r) (mkEval rest (executionTrace st)))
    | _ => throw TransposeRequiresMatrix
    end
  else
    match stack st with
    | b :: a :: rest =>
        resultOp <- applyBinary op a b ;
        ret (pushResult matrixMap resultOp (mkEval rest (executionTrace st)))
    | _ => throw MissingOperand
    end.

(** The body of [for (const token of rpn)]. *)
Definition evalToken (matrixMap : gmap string Matrix) (st : evalState) (token : Token)
  : M evalState :=
  match type token with
  | NUMBER => ret (mkEval (Num (parseFloat (value token)) :: stack st) (executionTrace st))
  | IDENTIFIER =>
      match matrixMap !! toUpperCase (value token) with
      | None => throw (UnknownVariable (value token))
      | Some mat => ret (mkEval (Mat mat :: stack st) (executionTrace st))
      end
  | OPERATOR => applyOperator matrixMap (value token) st
  | _ => ret st
  end.

Definition evaluateExpression (expression : string) (availableMatrices : list Matrix)
  : M (list Matrix) :=
  if String.eqb (trim expression) "" then throw EmptyExpression
  else
    let matrixMap := buildMatrixMap availableMatrices in
    let tokens := tokenize expression in
    let rpn := toRPN tokens in
    st <- foldM (evalToken matrixMap) (mkEval [] []) rpn ;
    match stack st with
    | [Mat _] => ret (executionTrace st)
    | [Num _] => throw FinalResultMustBeMatrix
    | _ => throw MalformedExpression
    end.

End Engine.

(** ** Validation, chains and copies

    The other helpers of [matrixMath], which the interface applies to the
    matrices the user selected. *)

(** [data.map(row => [...row])] *)
Definition cloneMatrixData (data : loc) : M loc :=
  g <- getGrid data ;
  copies <- mapEach (fun r => row <- getRow r ; allocRow row) g ;
  allocGrid copies.

Definition validateDimensionsMatch (matrices : list Matrix) : bool :=
  if length matrices <? 2 then false
  else
    match matrices with
    | first :: _ =>
        forallb (fun m => (rows m =? rows first) && (cols m =? cols first)) matrices
    | [] => false
    end.

(** The loop returns [false] at the first [i] whose matrix has not as many
    columns as the next one has rows; [i + 1] is always an index of the
    array. *)
Definition validateMultiplicationChain (matrices : list Matrix) : bool :=
  if length matrices <? 2 then false
  else
    forallb (fun i =>
      match matrices !! i, matrices !! (i + 1) with
      | Some a, Some b => cols a =? rows b
      | _, _ => false
      end) (seq 0 (length matrices - 1)).

(** [currentResult] starts as [matrices[0]] and is replaced by each
    product; the object returned is a spread of it, the same entity.  On an
    empty array [matrices[0]] is [undefined], whose spread has no field of a
    matrix: the result is [None]. *)
Definition multiplyMatrices (matrices : list Matrix) : M (option Matrix) :=
  match matrices with
  | [] => ret None
  | first :: others =>
      currentResult <- foldM (fun currentResult nextMatrix =>
                         multiplyTwoMatrices currentResult nextMatrix)
                       first others ;
      ret (Some currentResult)
  end.

(** ** The names of new matrices ([App.tsx])

    [addMatrix] names the matrix it appends after the length [n] of the
    current list. *)

(** [String(n)] for a natural number. *)
Definition natToString (n : nat) : string := NilZero.string_of_uint (Nat.to_uint n).

(** The name template: the letter of [n % 26], then [Math.floor(n / 26)]
    unless it is zero. *)
Definition matrixName (n : nat) : string :=
  "Matriz " +:+ fromCharCode (65 + n mod 26)
  +:+ (if n / 26 =? 0 then "" else natToString (n / 26)).

(** ** Editing a cell ([App.tsx])

    [updateMatrixData] computes the next list of matrices from the current
    one and hands it to [setMatrices]; the model returns that list. *)

(** [m.data.map((row, rowIndex) => ...)], from the index [rowIndex] on:
    the row at index [r] is replaced by a copy in which cell [c] is set,
    the other rows are kept as they are. *)
Fixpoint updateRows (rowIndex r c : nat) (val : float) (rowRefs : list loc)
  : M (list loc) :=
  match rowRefs with
  | [] => ret []
  | row :: rest =>
      newRow <- (if rowIndex =? r
                 then old <- getRow row ; allocRow (setIndex old c val)
                 else ret row) ;
      others <- updateRows (S rowIndex) r c val rest ;
      ret (newRow :: others)
  end.

Definition updateMatrixData (matrices : list Matrix) (id0 : string) (r c : nat)
    (val : float) : M (list Matrix) :=
  mapEach (fun m =>
    if String.eqb (id m) id0 then
      g <- getGrid (data m) ;
      newRows <- updateRows 0 r c val g ;
      newData <- allocGrid newRows ;
      ret (mkMatrix (id m) (name m) (rows m) (cols m) newData)
    else ret m) matrices.

(** ** Reading the store *)

(** The value of a grid: its rows, each read through its reference. *)
Definition readData (σ : state) (grid : loc) : option (list (list float)) :=
  g ← gridsH σ !! grid; mapM (M := option) (fun r => rowsH σ !! r) g.

(** The value of cell [(i, j)] of a grid value, NaN where there is none. *)
Definition cellAt (d : list (list float)) (i j : nat) : float :=
  match d !! i with
  | Some row => default nan (row !! j)
  | None => nan
  end.

(** The effect of [grid[i][j] = v] on the value of the grid. *)
Definition setCell (d : list (list float)) (i j : nat) (v : float) : list (list float) :=
  alter (fun row => setIndex row j v) i d.

(** The shape invariant of the data model. *)
Definition shaped (rows cols : nat) (d : list (list float)) : Prop :=
  length d = rows /\ Forall (fun row => length row = cols) d.

(** Entity [m] is in the store with grid value [d], of the announced shape. *)
Definition holds (σ : state) (m : Matrix) (d : list (list float)) : Prop :=
  readData σ (data m) = Some d /\ shaped (rows m) (cols m) d.

Definition wfMatrix (σ : state) (m : Matrix) : Prop := exists d, holds σ m d.

Definition wfOperand (σ : state) (v : operand) : Prop :=
  match v with
  | Mat m => wfMatrix σ m
  | Num _ => True
  end.

(** [σ'] extends [σ]: every array of [σ] is in [σ'] with the same content,
    and the oracle is the same, possibly further along. *)
Record ext (σ σ' : state) : Prop := mkExt {
  ext_rows : rowsH σ ⊆ rowsH σ';
  ext_grids : gridsH σ ⊆ gridsH σ';
  ext_rng : rng σ' = rng σ;
  ext_drawn : drawn σ <= drawn σ'
}.

(** A grid [g] under construction since [σ0]: its rows [rs] were allocated
    after [σ0], and the store has otherwise only grown. *)
Record writesTo (σ0 : state) (g : loc) (rs : list loc) (σ : state) : Prop := mkWritesTo {
  wt_ext : ext σ0 σ;
  wt_grid : gridsH σ !! g = Some rs;
  wt_fresh : forall r, r ∈ rs -> rowsH σ0 !! r = None
}.

(** The same, knowing the value [d] of the grid and that its rows are
    distinct arrays. *)
Record building (σ0 : state) (g : loc) (rs : list loc) (d : list (list float)) (σ : state)
  : Prop := mkBuilding {
  b_writes : writesTo σ0 g rs σ;
  b_nodup : NoDup rs;
  b_rows : Forall2 (fun r row => rowsH σ !! r = Some row) rs d
}.

(** What a primitive guarantees of its result [r], computed from [σ]:
    the store is extended, [r] holds the value [d] with the given
    dimensions, and its identifier is a later draw of the oracle. *)
Definition produces (σ : state) (nrows ncols : nat) (d : list (list float))
    (r : Matrix) (σ' : state) : Prop :=
  ext σ σ' /\ holds σ' r d /\ rows r = nrows /\ cols r = ncols /\
  exists k, drawn σ <= k /\ id r = rng σ k.

(** No identifier the oracle has yet to draw is the identifier of an
    input: the assumption that [crypto.randomUUID()] does not collide. *)
Definition noCollision (σ : state) (ms : list Matrix) : Prop :=
  forall k m, drawn σ <= k -> m ∈ ms -> rng σ k <> id m.

(** The evaluator's invariant: the entities of the resolver, of the stack
    and of the trace are all well formed in the current store. *)
Definition evalInv (matrixMap : gmap string Matrix) (st : evalState) (σ : state) : Prop :=
  map_Forall (fun _ m => wfMatrix σ m) matrixMap /\
  Forall (wfOperand σ) (stack st) /\
  Forall (wfMatrix σ) (executionTrace st).

(** *** The values the primitives compute *)

Definition tabulate (rows cols : nat) (f : nat -> nat -> float) : list (list float) :=
  map (fun i => map (f i) (seq 0 cols)) (seq 0 rows).

(** Elementwise sum: each cell starts from [0] and adds the operands in order. *)
Definition addData (rows cols : nat) (dA dB : list (list float)) : list (list float) :=
  tabulate rows cols (fun i j => (0 + cellAt dA i j + cellAt dB i j)%float).

Definition subtractData (rows cols : nat) (dA dB : list (list float)) : list (list float) :=
  tabulate rows cols (fun i j => (cellAt dA i j - cellAt dB i j)%float).

(** Row [i] of [dA] by column [j] of [dB], over [inner] terms, added left to
    right from [0]. *)
Definition dot (inner : nat) (dA dB : list (list float)) (i j : nat) : float :=
  foldl (fun sum k => (sum + cellAt dA i k * cellAt dB k j)%float) 0%float (seq 0 inner).

(** Row-by-column product, each cell rounded to four decimals. *)
Definition multiplyData (rows inner cols : nat) (dA dB : list (list float))
  : list (list float) :=
  tabulate rows cols (fun i j => round4 (dot inner dA dB i j)).

(** [dA] multiplied [n] times by itself: [powerData 2 size dA] is
    [(dA · dA) · dA]. *)
Fixpoint powerData (n size : nat) (dA : list (list float)) : list (list float) :=
  match n with
  | O => dA
  | S n' => multiplyData size size size (powerData n' size dA) dA
  end.

(** The transpose of a [rows] x [cols] value. *)
Definition transposeData (rows cols : nat) (d : list (list float)) : list (list float) :=
  tabulate cols rows (fun j i => cellAt d i j).

(** Elementwise product by a scalar, each cell rounded to four decimals. *)
Definition scaleData (scalar : float) (d : list (list float)) : list (list float) :=
  map (map (fun val => round4 (val * scalar)%float)) d.

(** *** Hoare triples for the engine's computations *)

Definition hoare {A} (P : state -> Prop) (m : M A) (Q : outcome A -> state -> Prop) : Prop :=
  forall σ, P σ -> Q (m σ).1 (m σ).2.

(** The computation returns, with a result and a state that satisfy [Φ]. *)
Definition returns {A} (Φ : A -> state -> Prop) : outcome A -> state -> Prop :=
  fun r σ => match r with Ok a => Φ a σ | Throw _ => False end.

(** Whatever the outcome, the state satisfies [Ψ]. *)
Definition anyway {A} (Ψ : state -> Prop) : outcome A -> state -> Prop :=
  fun _ σ => Ψ σ.

(** If the computation returns, its result and state satisfy [Φ]. *)
Definition safe {A} (Φ : A -> state -> Prop) : outcome A -> state -> Prop :=
  fun r σ => match r with Ok a => Φ a σ | Throw _ => True end.

(** The computation only reads the state. *)
Definition stateless {A} (m : M A) : Prop := forall σ, (m σ).2 = σ.

(** The computation extends the state it starts from. *)
Definition framed {A} (m : M A) : Prop := forall σ, ext σ (m σ).2.

(** ** Vocabulary of the statements *)

(** A non-empty string of letters: the lexeme of an IDENTIFIER token. *)
Fixpoint all_letters (s : string) : bool :=
  match s with
  | EmptyString => true
  | String c s' => is_letter c && all_letters s'
  end.

Definition is_identifier (s : string) : bool :=
  negb (String.eqb s "") && all_letters s.

(** The alias the resolver derives from a name: the upper-cased, trimmed
    remainder after the prefix "MATRIZ ", when that remainder is not empty. *)
Definition aliasOf (m : Matrix) : option string :=
  if startsWith (toUpperCase (name m)) "MATRIZ " then
    let shortName := toUpperCase (trim (substring_from 7 (name m))) in
    if String.eqb shortName "" then None else Some shortName
  else None.

(** What one registration does to the entry of a key, in the words of the
    resolver's three rules: the full name, then the alias, both overwriting;
    then the positional letter, only where the key is still free. *)
Definition registered (matrixMap : gmap string Matrix) (m : Matrix) (idx : nat)
    (key : string) : option Matrix :=
  if decide (key = toUpperCase (name m)) then Some m
  else if decide (aliasOf m = Some key) then Some m
  else if decide (key = fromCharCode (65 + idx)) then Some (default m (matrixMap !! key))
  else matrixMap !! key.

(** The length of the trace an evaluation returned. *)
Definition traceLength (r : outcome (list Matrix)) : option nat :=
  match r with
  | Ok trace => Some (length trace)
  | Throw _ => None
  end.

(** A blank expression: white space only. *)
Fixpoint all_spaces (s : string) : bool :=
  match s with
  | EmptyString => true
  | String c s' => is_space c && all_spaces s'
  end.

(** A character that no alternative of the tokenizer's regular expression
    can contain: not a digit, a letter, an operator character or a dot. *)
Definition is_separator (c : ascii) : bool :=
  negb (is_digit c) && negb (is_letter c) && negb (is_opchar c)
  && negb (Ascii.eqb c "."%char).

Fixpoint all_digits (s : string) : bool :=
  match s with
  | EmptyString => true
  | String c s' => is_digit c && all_digits s'
  end.

(** A decimal numeral: digits, or digits, a dot and digits. *)
Definition is_numeral (s : string) : bool :=
  negb (String.eqb (takeDigits s) "") &&
  match dropDigits s with
  | EmptyString => true
  | String c rest =>
      Ascii.eqb c "."%char && negb (String.eqb rest "") && all_digits rest
  end.

(** A token whose lexeme is one its type allows. *)
Definition well_formed (tok : Token) : bool :=
  match type tok with
  | NUMBER => is_numeral (value tok)
  | IDENTIFIER => is_identifier (value tok)
  | OPERATOR => existsb (String.eqb (value tok)) ["'"; "+"; "-"; "*"; "/"; "^"; ","]
  | LPAREN => String.eqb (value tok) "("
  | RPAREN => String.eqb (value tok) ")"
  | COMMA => false
  end.

(** The lexeme of a match in progress is the beginning of a lexeme of its
    kind. *)
Definition digits (s : string) : Prop := s <> "" /\ all_digits s = true.

Definition lexer_ok (st : lexer) : Prop :=
  match st with
  | Idle => True
  | InNum s | InDot s => digits s
  | InFrac s => exists a b, s = a +:+ String "."%char b /\ digits a /\ digits b
  | InId s => is_identifier s = true
  end.

(** The operands of an expression, and its operands and operators. *)
Definition is_operand (tok : Token) : bool :=
  is_type NUMBER tok || is_type IDENTIFIER tok.

Definition is_symbol (tok : Token) : bool :=
  is_operand tok || is_type OPERATOR tok.

(** Elementwise sum of any number of grids: each cell starts from [0] and
    adds the operands in order. *)
Definition sumData (rows cols : nat) (ds : list (list (list float))) : list (list float) :=
  tabulate rows cols (fun i j =>
    foldl (fun sum d => (sum + cellAt d i j)%float) 0%float ds).

(** Elementwise difference: each cell starts from the first grid and
    subtracts the others in order. *)
Definition differenceData (rows cols : nat) (d0 : list (list float))
    (ds : list (list (list float))) : list (list float) :=
  tabulate rows cols (fun i j =>
    foldl (fun val d => (val - cellAt d i j)%float) (cellAt d0 i j) ds).

(** The product of a chain, from left to right: [d] is the value of the
    product so far, [rows] x [inner]; each factor comes with its entity,
    which gives its number of columns. *)
Fixpoint chainData (rows inner : nat) (d : list (list float))
    (factors : list (Matrix * list (list float))) : list (list float) :=
  match factors with
  | [] => d
  | (m, dm) :: factors' =>
      chainData rows (cols m) (multiplyData rows inner (cols m) d dm) factors'
  end.

(** What an edit of cell [(r, c)] makes of a matrix [m] that holds [d]:
    the matrix with the identifier [id0] becomes an entity with the same
    fields and the edited cells, any other matrix stays the same entity. *)
Definition edited (σ : state) (id0 : string) (r c : nat) (val : float)
    (m : Matrix) (d : list (list float)) (m' : Matrix) : Prop :=
  if String.eqb (id m) id0 then
    id m' = id m /\ name m' = name m /\ rows m' = rows m /\ cols m' = cols m /\
    readData σ (data m') = Some (setCell d r c val)
  else m' = m.

(** The errors the engine throws on purpose, each with a message of its
    own: all but the read through a missing row or a missing array and the
    loop that does not end. *)
Definition engineError (e : error) : bool :=
  match e with
  | EmptyExpression | UnknownVariable _ | MissingOperand | TransposeRequiresMatrix
  | ScalarMatrixAdditionUnsupported | DimensionMismatch | InvalidExponent
  | PowerOperandTypeError | UnknownOperator _ | MalformedExpression
  | FinalResultMustBeMatrix => true
  | TypeError | Dangling | NoTermination => false
  end.

(** The outcome is a result or one of those errors. *)
Definition specified {A} : outcome A -> state -> Prop :=
  fun r _ =>
    match r with
    | Ok _ => True
    | Throw e => engineError e = true
    end.

(** The integer [n] is the number of ten-thousandths nearest to the
    magnitude [m * 2^e], the larger one on a tie:
    [n - 1/2 <= m * 2^e * 10^4 < n + 1/2]. *)
Definition nearestTenThousandth (m : positive) (e n : Z) : Prop :=
  let d := (2 ^ Z.max 0 (- e))%Z in
  let v := (Z.pos m * 2 ^ Z.max 0 e * 10000)%Z in
  ((2 * n - 1) * d <= 2 * v < (2 * n + 1) * d)%Z.

(** *** Sample inputs for the concrete runs *)

(** [String(x)] on integers. *)
Definition showInteger (x : float) : string :=
  match integerValue x with
  | Some z => NilZero.string_of_int (Z.to_int z)
  | None => "NaN"
  end.

Definition sampleUUID (k : nat) : string :=
  "uuid-" +:+ NilZero.string_of_uint (Nat.to_uint k).

(** A store with the grids [[1,2],[3,4]] (at 1) and [[5,6],[7,8]] (at 2). *)
Definition sampleStore : state :=
  mkState
    (list_to_map [(1%positive, [1; 2]%float); (2%positive, [3; 4]%float);
                  (3%positive, [5; 6]%float); (4%positive, [7; 8]%float)])
    (list_to_map [(1%positive, [1; 2]%positive); (2%positive, [3; 4]%positive)])
    sampleUUID 0.

Definition sampleA : Matrix := mkMatrix "id-a" "Matriz A" 2 2 1%positive.
Definition sampleB : Matrix := mkMatrix "id-b" "Matriz B" 2 2 2%positive.

Definition sampleInputs : list Matrix := [sampleA; sampleB].

Definition sampleDataA : list (list float) := [[1; 2]; [3; 4]]%float.
Definition sampleDataB : list (list float) := [[5; 6]; [7; 8]]%float.

(** An entity that competes with [sampleA] for the key [A], and one whose
    name is the bare prefix. *)
Definition plainA : Matrix := mkMatrix "id-c" "A" 2 2 2%positive.
Definition barePrefix : Matrix := mkMatrix "id-d" "Matriz " 2 2 1%positive.

(** The sample store with two more grids, the exchange [[0,1],[1,0]] (at 3)
    and the 2 x 3 grid [[1,0,2],[0,1,3]] (at 4), and their entities. *)
Definition sampleStore2 : state :=
  mkState
    (list_to_map [(1%positive, [1; 2]%float); (2%positive, [3; 4]%float);
                  (3%positive, [5; 6]%float); (4%positive, [7; 8]%float);
                  (5%positive, [0; 1]%float); (6%positive, [1; 0]%float);
                  (7%positive, [1; 0; 2]%float); (8%positive, [0; 1; 3]%float)])
    (list_to_map [(1%positive, [1; 2]%positive); (2%positive, [3; 4]%positive);
                  (3%positive, [5; 6]%positive); (4%positive, [7; 8]%positive)])
    sampleUUID 0.

Definition sampleC : Matrix := mkMatrix "id-i" "Matriz C" 2 2 3%positive.
Definition sampleD : Matrix := mkMatrix "id-w" "Matriz D" 2 3 4%positive.

Definition sampleInputs2 : list Matrix := [sampleA; sampleB; sampleC; sampleD].

Definition sampleDataC : list (list float) := [[0; 1]; [1; 0]]%float.
Definition sampleDataD : list (list float) := [[1; 0; 2]; [0; 1; 3]]%float.

(** The grid of the decimal numerals [rows], each read by [parseFloat]. *)
Definition decimals (rows : list (list string)) : list (list float) :=
  map (map parseFloat) rows.

(** Grids of decimal fractions, on which rounding shows: [[0.1,0.2],[0.3,0.4]]
    (at 1), [[10.12346,1.1],[0.7,2.5]] (at 2) and the 2 x 3 grid
    [[10,0.7,1.1],[20,2,0.1]] (at 3), with their entities. *)
Definition sampleDataF : list (list float) :=
  decimals [["0.1"; "0.2"]; ["0.3"; "0.4"]].
Definition sampleDataG : list (list float) :=
  decimals [["10.12346"; "1.1"]; ["0.7"; "2.5"]].
Definition sampleDataH : list (list float) :=
  decimals [["10"; "0.7"; "1.1"]; ["20"; "2"; "0.1"]].

Definition sampleStoreF : state :=
  mkState
    (list_to_map [(1%positive, [parseFloat "0.1"; parseFloat "0.2"]);
                  (2%positive, [parseFloat "0.3"; parseFloat "0.4"]);
                  (3%positive, [parseFloat "10.12346"; parseFloat "1.1"]);
                  (4%positive, [parseFloat "0.7"; parseFloat "2.5"]);
                  (5%positive, [parseFloat "10"; parseFloat "0.7"; parseFloat "1.1"]);
                  (6%positive, [parseFloat "20"; parseFloat "2"; parseFloat "0.1"])])
    (list_to_map [(1%positive, [1; 2]%positive); (2%positive, [3; 4]%positive);
                  (3%positive, [5; 6]%positive)])
    sampleUUID 0.

Definition sampleF : Matrix := mkMatrix "id-f" "Matriz A" 2 2 1%positive.
Definition sampleG : Matrix := mkMatrix "id-g" "Matriz B" 2 2 2%positive.
Definition sampleH : Matrix := mkMatrix "id-h" "Matriz C" 2 3 3%positive.

Definition sampleInputsF : list Matrix := [sampleF; sampleG; sampleH].

(** * Properties *)

(** ** Rules for triples *)

Lemma hoare_ret {A} (P : state -> Prop) (a : A) Q :
  (forall σ, P σ -> Q (Ok a) σ) -> hoare P (ret a) Q.
Proof. intros H σ HP. by apply H. Qed.

Lemma hoare_conseq {A} (P P' : state -> Prop) (m : M A) (Q Q' : outcome A -> state -> Prop) :
  hoare P m Q -> (forall σ, P' σ -> P σ) -> (forall r σ, Q r σ -> Q' r σ) ->
  hoare P' m Q'.
Proof. intros H HP HQ σ Hσ. apply HQ, H, HP, Hσ. Qed.

Lemma hoare_bind {A B} P (m : M A) (f : A -> M B) Q1 Q2 :
  hoare P m Q1 ->
  (forall a, hoare (Q1 (Ok a)) (f a) Q2) ->
  (forall e σ, Q1 (Throw e) σ -> Q2 (Throw e) σ) ->
  hoare P (bind m f) Q2.
Proof.
  intros Hm Hf Hthrow σ HP. specialize (Hm σ HP). unfold bind.
  destruct (m σ) as [[a | e] σ1]; simpl in *.
  - by apply Hf.
  - by apply Hthrow.
Qed.

Lemma hoare_bind_returns {A B} P (m : M A) (f : A -> M B) Φ Q :
  hoare P m (returns Φ) -> (forall a, hoare (Φ a) (f a) Q) -> hoare P (bind m f) Q.
Proof. intros Hm Hf. eapply hoare_bind; [exact Hm | exact Hf | intros e σ []]. Qed.

Lemma hoare_bind_anyway {A B} P (m : M A) (f : A -> M B) Ψ Ψ' :
  hoare P m (anyway Ψ) -> (forall a, hoare Ψ (f a) (anyway Ψ')) ->
  (forall σ, Ψ σ -> Ψ' σ) ->
  hoare P (bind m f) (anyway Ψ').
Proof.
  intros Hm Hf Himp. eapply hoare_bind; [exact Hm | exact Hf |].
  intros e σ. apply Himp.
Qed.

Lemma bind_run {A B} (m : M A) (f : A -> M B) σ a σ' :
  m σ = (Ok a, σ') -> bind m f σ = f a σ'.
Proof. intros H. unfold bind. by rewrite H. Qed.

Lemma bind_throw {A B} (m : M A) (f : A -> M B) σ e σ' :
  m σ = (Throw e, σ') -> bind m f σ = (Throw e, σ').
Proof. intros H. unfold bind. by rewrite H. Qed.

(** A triple from a known starting state is a run of the computation. *)
Lemma hoare_run {A} (m : M A) Φ σ :
  hoare (eq σ) m (returns Φ) -> exists a σ', m σ = (Ok a, σ') /\ Φ a σ'.
Proof.
  intros H. specialize (H σ eq_refl).
  destruct (m σ) as [[a | e] σ'] eqn:E; simpl in H; [eauto | done].
Qed.

Lemma hoare_forEach_anyway {X} (Ψ : state -> Prop) (xs : list X) body :
  (forall x, x ∈ xs -> hoare Ψ (body x) (anyway Ψ)) ->
  hoare Ψ (forEach xs body) (anyway Ψ).
Proof.
  induction xs as [| x xs IH]; intros Hbody.
  - by apply hoare_ret.
  - simpl. eapply hoare_bind_anyway; [apply Hbody; left | | done].
    intros _. apply IH. intros y Hy. apply Hbody. by right.
Qed.

(** A loop whose passes all return, with a ghost value stepped by [next]. *)
Lemma hoare_forEach_ghost {X D} (I : D -> state -> Prop) (next : D -> X -> D)
    (xs : list X) body :
  (forall x d, x ∈ xs -> hoare (I d) (body x) (returns (fun _ => I (next d x)))) ->
  forall d, hoare (I d) (forEach xs body) (returns (fun _ => I (foldl next d xs))).
Proof.
  induction xs as [| x xs IH]; intros Hbody d.
  - by apply hoare_ret.
  - simpl. eapply hoare_bind_returns; [apply Hbody; left |].
    intros u. apply IH. intros y d' Hy. apply Hbody. by right.
Qed.

(** ** Computations that only read *)

Lemma stateless_ret {A} (a : A) : stateless (ret a).
Proof. done. Qed.

Lemma stateless_throw {A} e : stateless (@throw A e).
Proof. done. Qed.

Lemma stateless_bind {A B} (m : M A) (f : A -> M B) :
  stateless m -> (forall a, stateless (f a)) -> stateless (bind m f).
Proof.
  intros Hm Hf σ. unfold bind. specialize (Hm σ).
  destruct (m σ) as [[a | e] σ1]; simpl in *; subst; [apply Hf | done].
Qed.

Lemma stateless_foldM {X A} (f : A -> X -> M A) xs a :
  (forall a x, stateless (f a x)) -> stateless (foldM f a xs).
Proof.
  intros Hf. revert a. induction xs as [| x xs IH]; intros a; simpl.
  - apply stateless_ret.
  - apply stateless_bind; [apply Hf | apply IH].
Qed.

Lemma stateless_getGrid l : stateless (getGrid l).
Proof. intros σ. unfold getGrid. by destruct (gridsH σ !! l). Qed.

Lemma stateless_getRow l : stateless (getRow l).
Proof. intros σ. unfold getRow. by destruct (rowsH σ !! l). Qed.

Lemma stateless_readCell g i j : stateless (readCell g i j).
Proof.
  unfold readCell. apply stateless_bind; [apply stateless_getGrid |].
  intros rs. destruct (rs !! i); [| apply stateless_throw].
  apply stateless_bind; [apply stateless_getRow | intros; apply stateless_ret].
Qed.

Lemma hoare_stateless {A} (P : state -> Prop) (m : M A) :
  stateless m -> hoare P m (anyway P).
Proof. intros H σ HP. unfold anyway. by rewrite H. Qed.

(** ** The extension order on states *)

Lemma ext_refl σ : ext σ σ.
Proof. by split. Qed.

Lemma ext_trans σ1 σ2 σ3 : ext σ1 σ2 -> ext σ2 σ3 -> ext σ1 σ3.
Proof.
  intros [Hr1 Hg1 Hn1 Hd1] [Hr2 Hg2 Hn2 Hd2]. split.
  - by etrans.
  - by etrans.
  - congruence.
  - lia.
Qed.

Lemma framed_ext {A} (m : M A) σ0 : framed m -> hoare (ext σ0) m (anyway (ext σ0)).
Proof. intros H σ Hσ. eapply ext_trans; [exact Hσ | apply H]. Qed.

Lemma framed_stateless {A} (m : M A) : stateless m -> framed m.
Proof. intros H σ. rewrite H. apply ext_refl. Qed.

Lemma framed_bind {A B} (m : M A) (f : A -> M B) :
  framed m -> (forall a, framed (f a)) -> framed (bind m f).
Proof.
  intros Hm Hf σ. unfold bind. specialize (Hm σ).
  destruct (m σ) as [[a | e] σ1]; simpl in *; [| done].
  eapply ext_trans; [exact Hm | apply Hf].
Qed.

Lemma framed_ret {A} (a : A) : framed (ret a).
Proof. apply framed_stateless, stateless_ret. Qed.

Lemma framed_throw {A} e : framed (@throw A e).
Proof. apply framed_stateless, stateless_throw. Qed.

Lemma framed_foldM {X A} (f : A -> X -> M A) xs a :
  (forall a x, framed (f a x)) -> framed (foldM f a xs).
Proof.
  intros Hf. revert a. induction xs as [| x xs IH]; intros a; simpl.
  - apply framed_ret.
  - apply framed_bind; [apply Hf | apply IH].
Qed.

Lemma framed_mapEach {X Y} (f : X -> M Y) xs :
  (forall x, framed (f x)) -> framed (mapEach f xs).
Proof.
  intros Hf. induction xs as [| x xs IH]; simpl.
  - apply framed_ret.
  - apply framed_bind; [apply Hf |]. intros y.
    apply framed_bind; [apply IH | intros; apply framed_ret].
Qed.

Lemma framed_allocRow r : framed (allocRow r).
Proof.
  intros σ. unfold allocRow; simpl. split; simpl; try done.
  apply insert_subseteq, not_elem_of_dom, is_fresh.
Qed.

Lemma framed_allocGrid g : framed (allocGrid g).
Proof.
  intros σ. unfold allocGrid; simpl. split; simpl; try done.
  apply insert_subseteq, not_elem_of_dom, is_fresh.
Qed.

Lemma ext_draw σ σ' :
  ext σ σ' -> ext σ (mkState (rowsH σ') (gridsH σ') (rng σ') (S (drawn σ'))).
Proof. intros [Hr Hg Hn Hd]. split; simpl; [done | done | done | lia]. Qed.

Lemma framed_randomUUID : framed randomUUID.
Proof. intros σ. unfold randomUUID; simpl. apply ext_draw, ext_refl. Qed.

(** ** Reading and writing cells *)

Lemma readData_Some σ g d :
  readData σ g = Some d <->
  exists rs, gridsH σ !! g = Some rs /\
             Forall2 (fun r row => rowsH σ !! r = Some row) rs d.
Proof.
  unfold readData. rewrite bind_Some. setoid_rewrite mapM_Some. done.
Qed.

Lemma readData_mono σ σ' g d :
  ext σ σ' -> readData σ g = Some d -> readData σ' g = Some d.
Proof.
  intros [Hr Hg _ _]. rewrite !readData_Some. intros (rs & Hrs & Hrows).
  exists rs. split; [by eapply lookup_weaken |].
  eapply Forall2_impl; [exact Hrows |]. intros r row Hrow. simpl in *.
  eapply lookup_weaken; [exact Hrow | exact Hr].
Qed.

Lemma holds_mono σ σ' m d : ext σ σ' -> holds σ m d -> holds σ' m d.
Proof. intros Hext [Hread Hshape]. split; [by eapply readData_mono | done]. Qed.

Lemma wfMatrix_mono σ σ' m : ext σ σ' -> wfMatrix σ m -> wfMatrix σ' m.
Proof. intros Hext [d Hd]. exists d. by eapply holds_mono. Qed.

Lemma wfOperand_mono σ σ' v : ext σ σ' -> wfOperand σ v -> wfOperand σ' v.
Proof. destruct v; simpl; [done | apply wfMatrix_mono]. Qed.

Lemma readCell_run σ g d i j :
  readData σ g = Some d -> i < length d ->
  readCell g i j σ = (Ok (cellAt d i j), σ).
Proof.
  rewrite readData_Some. intros (rs & Hrs & Hrows) Hi.
  destruct (lookup_lt_is_Some_2 d i Hi) as [row Hrow].
  destruct (Forall2_lookup_r _ _ _ _ _ Hrows Hrow) as (r & Hr & Hstore).
  unfold readCell, bind, getGrid, getRow, cellAt.
  by rewrite Hrs, Hr, Hstore, Hrow.
Qed.

Lemma writeCell_writesTo σ0 g rs i j v :
  hoare (writesTo σ0 g rs) (writeCell g i j v) (anyway (writesTo σ0 g rs)).
Proof.
  intros σ [Hext Hgrid Hfresh]. unfold anyway, writeCell, bind, getGrid.
  rewrite Hgrid. destruct (rs !! i) as [r |] eqn:Hr; [| by split].
  unfold getRow. destruct (rowsH σ !! r) as [row |]; [| by split].
  simpl. destruct Hext as [Hrows Hgrids Hrng Hdrawn].
  split; [split |..]; simpl; try done.
  apply insert_subseteq_r; [| done].
  apply Hfresh. by eapply list_elem_of_lookup_2.
Qed.

Lemma building_readData σ0 g rs d σ : building σ0 g rs d σ -> readData σ g = Some d.
Proof. intros [[_ Hgrid _] _ Hrows]. apply readData_Some. eauto. Qed.

Lemma building_length σ0 g rs d σ : building σ0 g rs d σ -> length rs = length d.
Proof. intros [_ _ Hrows]. by eapply Forall2_length. Qed.

Lemma writeCell_building σ0 g rs d i j v :
  i < length rs ->
  hoare (building σ0 g rs d) (writeCell g i j v)
        (returns (fun _ => building σ0 g rs (setCell d i j v))).
Proof.
  intros Hi σ Hb. rewrite (building_length _ _ _ _ _ Hb) in Hi.
  pose proof (writeCell_writesTo σ0 g rs i j v σ (b_writes _ _ _ _ _ Hb)) as Hw.
  destruct Hb as [[Hext Hgrid Hfresh] Hnodup Hrows].
  destruct (lookup_lt_is_Some_2 d i Hi) as [row Hrow].
  destruct (Forall2_lookup_r _ _ _ _ _ Hrows Hrow) as (r & Hr & Hstore).
  unfold anyway in Hw. revert Hw.
  unfold writeCell, bind, getGrid, getRow. rewrite Hgrid, Hr, Hstore. simpl.
  intros Hw. split; [done | done |]. simpl.
  unfold setCell. apply Forall2_same_length_lookup. split.
  { rewrite length_alter. by eapply Forall2_length. }
  intros k r' row' Hr' Hrow'.
  destruct (decide (k = i)) as [-> | Hne].
  - rewrite list_lookup_alter_eq, Hrow in Hrow'. simpl in Hrow'.
    assert (r' = r) as -> by congruence.
    rewrite lookup_insert_eq. congruence.
  - rewrite list_lookup_alter_ne in Hrow' by done.
    rewrite lookup_insert_ne.
    + exact (Forall2_lookup_lr _ _ _ _ _ _ Hrows Hr' Hrow').
    + intros <-. apply Hne. symmetry. by eapply NoDup_lookup.
Qed.

(** ** Allocation of an empty grid *)

Lemma allocRows_run {X} (xs : list X) row σ :
  exists rs σ',
    mapEach (fun _ => allocRow row) xs σ = (Ok rs, σ') /\
    length rs = length xs /\ NoDup rs /\
    (forall r, r ∈ rs -> rowsH σ !! r = None) /\
    Forall (fun r => rowsH σ' !! r = Some row) rs /\
    rowsH σ ⊆ rowsH σ' /\
    gridsH σ' = gridsH σ /\ rng σ' = rng σ /\ drawn σ' = drawn σ.
Proof.
  revert σ. induction xs as [| x xs IH]; intros σ.
  - exists [], σ. simpl. repeat split; try done;
      first [apply NoDup_nil_2 | apply Forall_nil_2 | set_solver].
  - simpl. unfold bind at 1. unfold allocRow at 1.
    set (l := fresh (dom (rowsH σ))).
    set (σ1 := mkState (<[l:=row]> (rowsH σ)) (gridsH σ) (rng σ) (drawn σ)).
    assert (rowsH σ !! l = None) as Hl by apply not_elem_of_dom, is_fresh.
    destruct (IH σ1) as (rs & σ' & Hrun & Hlen & Hnd & Hfresh & Hall & Hsub & Hg & Hn & Hd).
    exists (l :: rs), σ'. unfold bind. rewrite Hrun. simpl.
    assert (l ∉ rs) as Hnotin.
    { intros Hin. specialize (Hfresh l Hin). simpl in Hfresh.
      by rewrite lookup_insert_eq in Hfresh. }
    repeat split; try done.
    + by rewrite Hlen.
    + by constructor.
    + intros r [-> | Hr]%elem_of_cons; [done |].
      specialize (Hfresh r Hr). simpl in Hfresh.
      apply lookup_insert_None in Hfresh. tauto.
    + constructor; [| done].
      eapply lookup_weaken; [| exact Hsub]. simpl. apply lookup_insert_eq.
    + etrans; [| exact Hsub]. simpl. by apply insert_subseteq.
Qed.

Lemma createEmptyMatrix_spec σ rows cols v :
  hoare (eq σ) (createEmptyMatrix rows cols v)
        (returns (fun g σ' =>
           exists rs, building σ g rs (replicate rows (replicate cols v)) σ' /\
                      drawn σ' = drawn σ)).
Proof.
  intros ? <-. unfold createEmptyMatrix, bind.
  destruct (allocRows_run (seq 0 rows) (replicate cols v) σ)
    as (rs & σ1 & Hrun & Hlen & Hnd & Hfresh & Hall & Hsub & Hg & Hn & Hd).
  rewrite Hrun. simpl. exists rs. split; [| done].
  assert (gridsH σ1 !! fresh (dom (gridsH σ1)) = None) as Hnew
    by apply not_elem_of_dom, is_fresh.
  split; [split; [split |..] |..]; simpl; try done.
  - rewrite <- Hg. by apply insert_subseteq.
  - lia.
  - apply lookup_insert_eq.
  - rewrite length_seq in Hlen. clear -Hall Hlen.
    apply Forall2_same_length_lookup. split; [by rewrite length_replicate |].
    intros i r row Hr [-> _]%lookup_replicate.
    by eapply Forall_lookup_1 in Hall.
Qed.

(** ** Grid values *)

Lemma tabulate_lookup rows cols f i :
  i < rows -> tabulate rows cols f !! i = Some (map (f i) (seq 0 cols)).
Proof.
  intros Hi. unfold tabulate.
  change (map ?f ?l) with (f <$> l) at 1. rewrite list_lookup_fmap.
  by rewrite lookup_seq_lt.
Qed.

Lemma tabulate_shaped rows cols f : shaped rows cols (tabulate rows cols f).
Proof.
  unfold shaped, tabulate. split.
  - by rewrite length_map, length_seq.
  - apply Forall_forall. intros row Hrow%list_elem_of_In.
    apply in_map_iff in Hrow as (i & <- & _). by rewrite length_map, length_seq.
Qed.

Lemma cellAt_tabulate rows cols f i j :
  i < rows -> j < cols -> cellAt (tabulate rows cols f) i j = f i j.
Proof.
  intros Hi Hj. unfold cellAt. rewrite tabulate_lookup by done.
  change (map ?f ?l) with (f <$> l). rewrite list_lookup_fmap.
  by rewrite lookup_seq_lt.
Qed.

Lemma shaped_row rows cols d i row :
  shaped rows cols d -> d !! i = Some row -> length row = cols.
Proof. intros [_ Hall] Hrow. by eapply Forall_lookup_1 in Hall. Qed.

(** Two values of the same shape with the same cells are equal. *)
Lemma shaped_eq rows cols d d' :
  shaped rows cols d -> shaped rows cols d' ->
  (forall i j, i < rows -> j < cols -> cellAt d i j = cellAt d' i j) ->
  d = d'.
Proof.
  intros Hd Hd' Hcells.
  apply list_eq_same_length with rows; [apply Hd' | apply Hd |].
  intros i row row' Hi Hrow Hrow'.
  pose proof (shaped_row _ _ _ _ _ Hd Hrow) as Hlen.
  pose proof (shaped_row _ _ _ _ _ Hd' Hrow') as Hlen'.
  apply list_eq_same_length with cols; [done | done |].
  intros j x x' Hj Hx Hx'.
  specialize (Hcells i j Hi Hj). unfold cellAt in Hcells.
  rewrite Hrow, Hrow', Hx, Hx' in Hcells. done.
Qed.

Lemma setCell_shaped rows cols d i j v :
  j < cols -> shaped rows cols d -> shaped rows cols (setCell d i j v).
Proof.
  intros Hj [Hlen Hall]. unfold setCell. split.
  - by rewrite length_alter.
  - apply Forall_alter; [done |]. intros row Hrow Hrowlen.
    unfold setIndex. rewrite Hrowlen.
    destruct (j <? cols) eqn:E; [by rewrite length_insert |].
    apply Nat.ltb_ge in E. lia.
Qed.

Lemma cellAt_setCell_eq rows cols d i j v :
  shaped rows cols d -> i < rows -> j < cols -> cellAt (setCell d i j v) i j = v.
Proof.
  intros Hd Hi Hj. unfold cellAt, setCell.
  destruct (lookup_lt_is_Some_2 d i) as [row Hrow]; [destruct Hd; lia |].
  rewrite list_lookup_alter_eq, Hrow. simpl.
  pose proof (shaped_row _ _ _ _ _ Hd Hrow) as Hlen.
  unfold setIndex. rewrite Hlen.
  destruct (j <? cols) eqn:E; [| apply Nat.ltb_ge in E; lia].
  rewrite list_lookup_insert_eq by lia. done.
Qed.

Lemma cellAt_setCell_ne rows cols d i j v i' j' :
  shaped rows cols d -> j < cols -> (i', j') <> (i, j) ->
  cellAt (setCell d i j v) i' j' = cellAt d i' j'.
Proof.
  intros Hd Hj Hne. unfold cellAt, setCell.
  destruct (decide (i' = i)) as [-> | Hi].
  - rewrite list_lookup_alter_eq. destruct (d !! i) as [row |] eqn:Hrow; [| done].
    simpl. pose proof (shaped_row _ _ _ _ _ Hd Hrow) as Hlen.
    unfold setIndex. rewrite Hlen.
    destruct (j <? cols) eqn:E; [| apply Nat.ltb_ge in E; lia].
    rewrite list_lookup_insert_ne; [done | congruence].
  - by rewrite list_lookup_alter_ne.
Qed.

(** A sequence of in-range writes that reaches every cell, each write
    storing the value [h] gives to its target, yields the table of [h]. *)
Lemma fill_cover {P} (target : P -> nat * nat) (f : P -> float) (h : nat -> nat -> float)
    rows cols (ps : list P) d0 :
  shaped rows cols d0 ->
  (forall p, p ∈ ps -> (target p).1 < rows /\ (target p).2 < cols) ->
  (forall p, p ∈ ps -> f p = h (target p).1 (target p).2) ->
  (forall i j, i < rows -> j < cols -> exists p, p ∈ ps /\ target p = (i, j)) ->
  foldl (fun d p => setCell d (target p).1 (target p).2 (f p)) d0 ps
  = tabulate rows cols h.
Proof.
  intros Hd0 Hrange Hval Hcover.
  set (write := fun d p => setCell d (target p).1 (target p).2 (f p)).
  assert (forall ps d, (forall p, p ∈ ps -> (target p).1 < rows /\ (target p).2 < cols) ->
            shaped rows cols d -> shaped rows cols (foldl write d ps)) as Hshape.
  { clear. induction ps as [| p ps IH]; intros d Hrange Hd; [done |]. simpl.
    apply IH; [intros q Hq; apply Hrange; by right |].
    apply setCell_shaped; [apply Hrange; by left | done]. }
  apply shaped_eq with rows cols;
    [by apply Hshape | apply tabulate_shaped |].
  intros i j Hi Hj. rewrite cellAt_tabulate by done.
  assert (forall ps d,
            (forall p, p ∈ ps -> (target p).1 < rows /\ (target p).2 < cols) ->
            (forall p, p ∈ ps -> f p = h (target p).1 (target p).2) ->
            shaped rows cols d ->
            (cellAt d i j = h i j \/ exists p, p ∈ ps /\ target p = (i, j)) ->
            cellAt (foldl write d ps) i j = h i j) as Hcell.
  { clear -Hi Hj. induction ps as [| p ps IH]; intros d Hrange Hval Hd Hor.
    - destruct Hor as [? | (p & Hp & _)]; [done | by apply elem_of_nil in Hp].
    - simpl. destruct (Hrange p) as [Hpi Hpj]; [by left |].
      apply IH.
      + intros q Hq. apply Hrange. by right.
      + intros q Hq. apply Hval. by right.
      + by apply setCell_shaped.
      + unfold write at 1. destruct (decide (target p = (i, j))) as [Heq | Hne].
        * left. rewrite (Hval p) by (by left). rewrite Heq. simpl.
          by apply cellAt_setCell_eq with rows cols.
        * destruct Hor as [Hold | (q & Hq & Hqt)].
          -- left. rewrite (cellAt_setCell_ne rows cols); [done | done | done |].
             intros E. apply Hne. by destruct (target p); simpl in *.
          -- right. exists q. split; [| done].
             apply elem_of_cons in Hq as [-> | Hq]; [by rewrite Hqt in Hne | done]. }
  apply Hcell; [done | done | done |]. right. by apply Hcover.
Qed.

(** The writes of two nested loops, as one sequence over the index pairs. *)
Lemma foldl_nested {D} (write : D -> nat * nat -> D) (xs ys : list nat) d :
  foldl (fun d i => foldl (fun d j => write d (i, j)) d ys) d xs
  = foldl write d (list_prod xs ys).
Proof.
  revert d. induction xs as [| x xs IH]; intros d; [done |]. simpl.
  rewrite foldl_app, <- IH. f_equal.
  clear. revert d. induction ys as [| y ys IH]; intros d; [done |]. simpl. apply IH.
Qed.

Lemma elem_of_list_prod_seq rows cols i j :
  (i, j) ∈ list_prod (seq 0 rows) (seq 0 cols) <-> i < rows /\ j < cols.
Proof.
  rewrite list_elem_of_In, in_prod_iff, !in_seq. lia.
Qed.

(** The double loop of the primitives, writing [h i j] at the cell
    [target i j] for every [i < n] and [j < m]. *)
Lemma fill_loops (target : nat -> nat -> nat * nat) (h : nat -> nat -> float)
    (g : nat -> nat -> float) n m rows cols d0 :
  shaped rows cols d0 ->
  (forall i j, i < n -> j < m -> (target i j).1 < rows /\ (target i j).2 < cols) ->
  (forall i j, i < n -> j < m -> g i j = h (target i j).1 (target i j).2) ->
  (forall i' j', i' < rows -> j' < cols ->
     exists i j, i < n /\ j < m /\ target i j = (i', j')) ->
  foldl (fun d i =>
           foldl (fun d j => setCell d (target i j).1 (target i j).2 (g i j)) d (seq 0 m))
        d0 (seq 0 n)
  = tabulate rows cols h.
Proof.
  intros Hd0 Hrange Hval Hcover.
  rewrite (foldl_nested
    (fun d p => setCell d (target p.1 p.2).1 (target p.1 p.2).2 (g p.1 p.2))).
  apply (fill_cover (fun p => target p.1 p.2) (fun p => g p.1 p.2)); [done |..].
  - intros [i j] [Hi Hj]%elem_of_list_prod_seq. simpl. by apply Hrange.
  - intros [i j] [Hi Hj]%elem_of_list_prod_seq. simpl. by apply Hval.
  - intros i' j' Hi' Hj'. destruct (Hcover i' j' Hi' Hj') as (i & j & Hi & Hj & Ht).
    exists (i, j). split; [by apply elem_of_list_prod_seq | done].
Qed.

Lemma replicate_shaped rows cols v : shaped rows cols (replicate rows (replicate cols v)).
Proof.
  split; [by rewrite length_replicate |].
  apply Forall_forall. intros row [-> _]%elem_of_replicate. by rewrite length_replicate.
Qed.

(** Transposing twice gives the value back. *)
Lemma transposeData_involutive rows cols d :
  shaped rows cols d -> transposeData cols rows (transposeData rows cols d) = d.
Proof.
  intros Hd. unfold transposeData.
  apply shaped_eq with rows cols; [apply tabulate_shaped | done |].
  intros i j Hi Hj. by rewrite !cellAt_tabulate.
Qed.

(** ** More rules *)

Lemma hoare_pointwise {A} (P : state -> Prop) (m : M A) Q :
  (forall σ, P σ -> hoare (eq σ) m Q) -> hoare P m Q.
Proof. intros H σ HP. by apply (H σ HP). Qed.

Lemma hoare_bind_safe {A B} P (m : M A) (f : A -> M B) Φ Ψ :
  hoare P m (safe Φ) -> (forall a, hoare (Φ a) (f a) (safe Ψ)) ->
  hoare P (bind m f) (safe Ψ).
Proof. intros Hm Hf. eapply hoare_bind; [exact Hm | exact Hf | done]. Qed.

Lemma foldM_run {X A} (f : A -> X -> M A) (pf : A -> X -> A) xs a σ :
  (forall a x, x ∈ xs -> f a x σ = (Ok (pf a x), σ)) ->
  foldM f a xs σ = (Ok (foldl pf a xs), σ).
Proof.
  revert a. induction xs as [| x xs IH]; intros a Hf; [done |].
  simpl. unfold bind. rewrite Hf by (by left). apply IH.
  intros a' y Hy. apply Hf. by right.
Qed.

(** The two nested loops of a primitive that fills its result grid. *)
Lemma fill_loops_hoare σ0 g rs (body : nat -> nat -> M unit)
    (target : nat -> nat -> nat * nat) (gval : nat -> nat -> float) n m d0 :
  (forall i j d, i < n -> j < m ->
     hoare (building σ0 g rs d) (body i j)
       (returns (fun _ =>
          building σ0 g rs (setCell d (target i j).1 (target i j).2 (gval i j))))) ->
  hoare (building σ0 g rs d0)
    (forEach (seq 0 n) (fun i => forEach (seq 0 m) (fun j => body i j)))
    (returns (fun _ =>
       building σ0 g rs
         (foldl (fun d i =>
            foldl (fun d j => setCell d (target i j).1 (target i j).2 (gval i j))
                  d (seq 0 m)) d0 (seq 0 n)))).
Proof.
  intros Hbody.
  apply (hoare_forEach_ghost (building σ0 g rs)
    (fun d i => foldl (fun d j => setCell d (target i j).1 (target i j).2 (gval i j))
                      d (seq 0 m))).
  intros i d Hi%elem_of_seq.
  apply (hoare_forEach_ghost (building σ0 g rs)
    (fun d j => setCell d (target i j).1 (target i j).2 (gval i j))).
  intros j d' Hj%elem_of_seq. apply Hbody; lia.
Qed.

(** The weak form: whatever the passes do, they write to the new grid only. *)
Lemma fill_loops_writesTo σ0 g rs (body : nat -> nat -> M unit) n m :
  (forall i j, hoare (writesTo σ0 g rs) (body i j) (anyway (writesTo σ0 g rs))) ->
  hoare (writesTo σ0 g rs)
    (forEach (seq 0 n) (fun i => forEach (seq 0 m) (fun j => body i j)))
    (anyway (writesTo σ0 g rs)).
Proof.
  intros Hbody. apply hoare_forEach_anyway. intros i _.
  apply hoare_forEach_anyway. intros j _. apply Hbody.
Qed.

(** What remains of a primitive once its grid is filled: draw an
    identifier and build the entity. *)
Lemma building_finish σ0 g rs d σ :
  building σ0 g rs d σ ->
  let σ' := mkState (rowsH σ) (gridsH σ) (rng σ) (S (drawn σ)) in
  ext σ0 σ' /\ readData σ' g = Some d /\
  exists k, drawn σ0 <= k /\ rng σ (drawn σ) = rng σ0 k.
Proof.
  intros Hb. pose proof (building_readData _ _ _ _ _ Hb) as Hread.
  destruct Hb as [[[Hr Hg Hn Hd] _ _] _ _]. simpl. split; [| split].
  - split; simpl; try done. lia.
  - exact Hread.
  - exists (drawn σ). by rewrite Hn.
Qed.

(** ** The primitives on well-formed operands *)

Lemma multiplyTwoMatrices_spec σ A B dA dB :
  holds σ A dA -> holds σ B dB -> cols A = rows B ->
  hoare (eq σ) (multiplyTwoMatrices A B)
    (returns (produces σ (rows A) (cols B)
                (multiplyData (rows A) (cols A) (cols B) dA dB))).
Proof.
  intros [HA [HlenA _]] [HB [HlenB _]] Hdim. unfold multiplyTwoMatrices.
  eapply hoare_bind_returns; [apply createEmptyMatrix_spec |]. intros g.
  apply hoare_pointwise. intros σ1 (rs & Hb & _).
  pose proof (building_length _ _ _ _ _ Hb) as Hrs. rewrite length_replicate in Hrs.
  eapply hoare_bind_returns.
  { eapply hoare_conseq;
      [apply (fill_loops_hoare σ g rs _ (fun i j => (i, j))
                (fun i j => round4 (dot (cols A) dA dB i j)))
      | intros ? <-; exact Hb | intros r σ' H; exact H].
    intros i j d Hi Hj σ2 Hb2. unfold bind.
    assert (ext σ σ2) as Hext by apply Hb2.
    rewrite (foldM_run _ (fun sum k => (sum + cellAt dA i k * cellAt dB k j)%float)).
    - apply writeCell_building; [lia | done].
    - intros sum k Hk%elem_of_seq. unfold bind.
      rewrite (readCell_run σ2 (data A) dA) by (eauto using readData_mono; lia).
      rewrite (readCell_run σ2 (data B) dB) by (eauto using readData_mono; lia).
      done. }
  intros u σ3 Hb3.
  rewrite (fill_loops (fun i j => (i, j))
             (fun i j => round4 (dot (cols A) dA dB i j)) _ _ _ (rows A) (cols B)) in Hb3.
  - destruct (building_finish _ _ _ _ _ Hb3) as (Hext & Hread & k & Hk & Hid).
    unfold bind, randomUUID, ret. simpl.
    split; [exact Hext |]. split; [split; [exact Hread | apply tabulate_shaped] |].
    eauto.
  - apply replicate_shaped.
  - done.
  - done.
  - intros i j Hi Hj. by exists i, j.
Qed.

Lemma addMatrices_spec σ mA mB dA dB :
  holds σ mA dA -> holds σ mB dB -> rows mA = rows mB -> cols mA = cols mB ->
  hoare (eq σ) (addMatrices [mA; mB])
    (returns (produces σ (rows mA) (cols mA) (addData (rows mA) (cols mA) dA dB))).
Proof.
  intros [HA [HlenA _]] [HB [HlenB _]] Hrows Hcols. unfold addMatrices.
  eapply hoare_bind_returns; [apply createEmptyMatrix_spec |]. intros g.
  apply hoare_pointwise. intros σ1 (rs & Hb & _).
  pose proof (building_length _ _ _ _ _ Hb) as Hrs. rewrite length_replicate in Hrs.
  eapply hoare_bind_returns.
  { eapply hoare_conseq;
      [apply (fill_loops_hoare σ g rs _ (fun i j => (i, j))
                (fun i j => (0 + cellAt dA i j + cellAt dB i j)%float))
      | intros ? <-; exact Hb | intros r σ' H; exact H].
    intros i j d Hi Hj σ2 Hb2. simpl. unfold bind.
    assert (ext σ σ2) as Hext by apply Hb2.
    rewrite (readCell_run σ2 (data mA) dA) by (eauto using readData_mono; lia).
    simpl.
    rewrite (readCell_run σ2 (data mB) dB) by (eauto using readData_mono; lia).
    simpl. apply writeCell_building; [lia | done]. }
  intros u σ3 Hb3.
  rewrite (fill_loops (fun i j => (i, j))
             (fun i j => (0 + cellAt dA i j + cellAt dB i j)%float)
             _ _ _ (rows mA) (cols mA)) in Hb3.
  - destruct (building_finish _ _ _ _ _ Hb3) as (Hext & Hread & k & Hk & Hid).
    unfold bind, randomUUID, ret. simpl.
    split; [exact Hext |]. split; [split; [exact Hread | apply tabulate_shaped] |].
    eauto.
  - apply replicate_shaped.
  - done.
  - done.
  - intros i j Hi Hj. by exists i, j.
Qed.

Lemma subtractMatrices_spec σ mA mB dA dB :
  holds σ mA dA -> holds σ mB dB -> rows mA = rows mB -> cols mA = cols mB ->
  hoare (eq σ) (subtractMatrices [mA; mB])
    (returns (produces σ (rows mA) (cols mA) (subtractData (rows mA) (cols mA) dA dB))).
Proof.
  intros [HA [HlenA _]] [HB [HlenB _]] Hrows Hcols. unfold subtractMatrices.
  eapply hoare_bind_returns; [apply createEmptyMatrix_spec |]. intros g.
  apply hoare_pointwise. intros σ1 (rs & Hb & _).
  pose proof (building_length _ _ _ _ _ Hb) as Hrs. rewrite length_replicate in Hrs.
  eapply hoare_bind_returns.
  { eapply hoare_conseq;
      [apply (fill_loops_hoare σ g rs _ (fun i j => (i, j))
                (fun i j => (cellAt dA i j - cellAt dB i j)%float))
      | intros ? <-; exact Hb | intros r σ' H; exact H].
    intros i j d Hi Hj σ2 Hb2. simpl. unfold bind.
    assert (ext σ σ2) as Hext by apply Hb2.
    rewrite (readCell_run σ2 (data mA) dA) by (eauto using readData_mono; lia).
    simpl.
    rewrite (readCell_run σ2 (data mB) dB) by (eauto using readData_mono; lia).
    simpl. apply writeCell_building; [lia | done]. }
  intros u σ3 Hb3.
  rewrite (fill_loops (fun i j => (i, j))
             (fun i j => (cellAt dA i j - cellAt dB i j)%float)
             _ _ _ (rows mA) (cols mA)) in Hb3.
  - destruct (building_finish _ _ _ _ _ Hb3) as (Hext & Hread & k & Hk & Hid).
    unfold bind, randomUUID, ret. simpl.
    split; [exact Hext |]. split; [split; [exact Hread | apply tabulate_shaped] |].
    eauto.
  - apply replicate_shaped.
  - done.
  - done.
  - intros i j Hi Hj. by exists i, j.
Qed.

Lemma transposeMatrix_spec σ m d :
  holds σ m d ->
  hoare (eq σ) (transposeMatrix m)
    (returns (produces σ (cols m) (rows m) (transposeData (rows m) (cols m) d))).
Proof.
  intros [Hm [Hlen _]]. unfold transposeMatrix.
  eapply hoare_bind_returns; [apply createEmptyMatrix_spec |]. intros g.
  apply hoare_pointwise. intros σ1 (rs & Hb & _).
  pose proof (building_length _ _ _ _ _ Hb) as Hrs. rewrite length_replicate in Hrs.
  eapply hoare_bind_returns.
  { eapply hoare_conseq;
      [apply (fill_loops_hoare σ g rs _ (fun i j => (j, i)) (fun i j => cellAt d i j))
      | intros ? <-; exact Hb | intros r σ' H; exact H].
    intros i j d' Hi Hj σ2 Hb2. unfold bind.
    assert (ext σ σ2) as Hext by apply Hb2.
    rewrite (readCell_run σ2 (data m) d) by (eauto using readData_mono; lia).
    apply writeCell_building; [simpl; lia | done]. }
  intros u σ3 Hb3.
  rewrite (fill_loops (fun i j => (j, i)) (fun j i => cellAt d i j)
             _ _ _ (cols m) (rows m)) in Hb3.
  - destruct (building_finish _ _ _ _ _ Hb3) as (Hext & Hread & k & Hk & Hid).
    unfold bind, randomUUID, ret. simpl.
    split; [exact Hext |]. split; [split; [exact Hread | apply tabulate_shaped] |].
    eauto.
  - apply replicate_shaped.
  - simpl. lia.
  - done.
  - intros j i Hj Hi. by exists i, j.
Qed.

Lemma scaleRows_run (φ : float -> float) rs d σ :
  Forall2 (fun r row => rowsH σ !! r = Some row) rs d ->
  exists rs' σ',
    mapEach (fun r => row <- getRow r ; allocRow (map φ row)) rs σ = (Ok rs', σ') /\
    rowsH σ ⊆ rowsH σ' /\ gridsH σ' = gridsH σ /\ rng σ' = rng σ /\
    drawn σ' = drawn σ /\
    Forall2 (fun r' row => rowsH σ' !! r' = Some (map φ row)) rs' d.
Proof.
  intros Hrows. revert σ Hrows. revert d.
  induction rs as [| r rs IH]; intros d σ Hrows.
  - apply Forall2_nil_inv_l in Hrows as ->. exists [], σ. simpl.
    repeat split; done.
  - apply Forall2_cons_inv_l in Hrows as (row & d' & Hrow & Hrest & ->).
    simpl. unfold bind at 1 2. unfold getRow at 1. rewrite Hrow.
    unfold allocRow at 1.
    set (l := fresh (dom (rowsH σ))).
    set (σ1 := mkState (<[l:=map φ row]> (rowsH σ)) (gridsH σ) (rng σ) (drawn σ)).
    assert (rowsH σ !! l = None) as Hl by apply not_elem_of_dom, is_fresh.
    assert (rowsH σ ⊆ rowsH σ1) as Hsub1 by (by apply insert_subseteq).
    destruct (IH d' σ1) as (rs' & σ' & Hrun & Hsub & Hg & Hn & Hd & Hall).
    { eapply Forall2_impl; [exact Hrest |]. intros r' row' Hr'. simpl in Hr'.
      eapply lookup_weaken; [exact Hr' | exact Hsub1]. }
    exists (l :: rs'), σ'. rewrite (bind_run _ _ _ _ _ Hrun). simpl.
    split; [done |]. split; [by etrans |]. repeat split; try done.
    constructor; [| done].
    eapply lookup_weaken; [| exact Hsub]. simpl. apply lookup_insert_eq.
Qed.

Lemma scaleData_shaped nrows ncols scalar d :
  shaped nrows ncols d -> shaped nrows ncols (scaleData scalar d).
Proof.
  intros [Hlen Hall]. unfold scaleData. split; [by rewrite length_map |].
  apply Forall_forall. intros row Hrow%list_elem_of_In.
  apply in_map_iff in Hrow as (row0 & <- & Hin%list_elem_of_In).
  rewrite length_map. by eapply Forall_forall in Hall.
Qed.

Section EngineProperties.

Context (numberToString : float -> string).

(** [scalarOperation] maps over the grid it finds, whatever its shape. *)
Lemma scalarOperation_spec σ m d scalar :
  readData σ (data m) = Some d ->
  hoare (eq σ) (scalarOperation numberToString m scalar SCALAR_MUL)
    (returns (fun r σ' =>
       ext σ σ' /\ readData σ' (data r) = Some (scaleData scalar d) /\
       rows r = rows m /\ cols r = cols m /\
       exists k, drawn σ <= k /\ id r = rng σ k)).
Proof.
  intros (rs & Hgrid & Hrows)%readData_Some ? <-.
  unfold scalarOperation.
  assert (getGrid (data m) σ = (Ok rs, σ)) as Hget by (unfold getGrid; by rewrite Hgrid).
  rewrite (bind_run _ _ _ _ _ Hget).
  destruct (scaleRows_run (fun val => round4 (val * scalar)%float) rs d σ Hrows)
    as (rs' & σ1 & Hrun & Hsub & Hg & Hn & Hd & Hall).
  rewrite (bind_run _ _ _ _ _ Hrun). unfold bind, allocGrid, randomUUID, ret. simpl.
  assert (gridsH σ1 !! fresh (dom (gridsH σ1)) = None) as Hnew
    by apply not_elem_of_dom, is_fresh.
  split; [| split].
  - split; simpl; [done | | done | lia].
    rewrite <- Hg. by apply insert_subseteq.
  - apply readData_Some. exists rs'. simpl. split; [apply lookup_insert_eq |].
    unfold scaleData. change (map ?f ?l) with (f <$> l) at 1.
    by apply Forall2_fmap_r.
  - repeat split. exists (drawn σ1). rewrite Hn, Hd. done.
Qed.

Lemma scalarOperation_produces σ m d scalar :
  holds σ m d ->
  hoare (eq σ) (scalarOperation numberToString m scalar SCALAR_MUL)
    (returns (produces σ (rows m) (cols m) (scaleData scalar d))).
Proof.
  intros [Hread Hshape].
  eapply hoare_conseq; [by apply scalarOperation_spec | done |].
  intros [r |] σ'; [| done]. simpl. intros (Hext & Hdata & Hrows & Hcols & Hid).
  split; [done |]. split; [| done]. split; [done |].
  rewrite Hrows, Hcols. by apply scaleData_shaped.
Qed.

Lemma powerLoop_spec n σ matrix dM result dR :
  holds σ matrix dM -> rows matrix = cols matrix ->
  holds σ result dR -> rows result = rows matrix -> cols result = rows matrix ->
  hoare (eq σ) (powerLoop n matrix result)
    (returns (fun r σ' =>
       ext σ σ' /\
       holds σ' r (Nat.iter n (fun d => multiplyData (rows matrix) (rows matrix)
                                         (rows matrix) d dM) dR) /\
       rows r = rows matrix /\ cols r = rows matrix)).
Proof.
  revert σ result dR. induction n as [| n IH]; intros σ result dR HM Hsq HR Hrr Hrc.
  - simpl. apply hoare_ret. intros ? <-. split; [apply ext_refl | done].
  - cbn [powerLoop]. eapply hoare_bind_returns.
    { apply (multiplyTwoMatrices_spec σ result matrix dR dM); [done | done | congruence]. }
    intros next. apply hoare_pointwise.
    intros σ1 (Hext & Hnext & Hnr & Hnc & _).
    rewrite Hrr, Hrc, <- Hsq in Hnext.
    eapply hoare_conseq;
      [apply (IH σ1 next _ (holds_mono _ _ _ _ Hext HM) Hsq Hnext); congruence
      | done |].
    intros [r |] σ2; [| done]. simpl. intros (Hext2 & Hr & Hrows & Hcols).
    split; [by eapply ext_trans |]. split; [| done].
    set (f := fun d => multiplyData (rows matrix) (rows matrix) (rows matrix) d dM) in *.
    change (holds σ2 r (Nat.iter n f (f dR))) in Hr.
    by rewrite <- Nat.iter_succ_r in Hr.
Qed.

Lemma powerData_iter n size dM :
  powerData n size dM = Nat.iter n (fun d => multiplyData size size size d dM) dM.
Proof. induction n as [| n IH]; [done |]. simpl. by rewrite IH. Qed.

(** [powerMatrix] on a square matrix and an integer exponent [n]: a copy
    that shares the grid when [n = 1], [n - 1] products otherwise. *)
Lemma powerMatrix_spec σ matrix dM exponent n :
  holds σ matrix dM -> rows matrix = cols matrix ->
  integerValue exponent = Some n -> (1 <= n <= 2 ^ 53)%Z ->
  hoare (eq σ) (powerMatrix numberToString matrix exponent)
    (returns (fun r σ' =>
       produces σ (rows matrix) (rows matrix)
                (powerData (Z.to_nat (n - 1)) (rows matrix) dM) r σ' /\
       (n = 1%Z -> data r = data matrix))).
Proof.
  intros HM Hsq Hint Hn. unfold powerMatrix.
  assert ((rows matrix =? cols matrix) = true) as -> by (by apply Nat.eqb_eq).
  rewrite Hint. simpl.
  destruct (Z.ltb_spec n 1) as [? | _]; [lia |].
  destruct (Z.eqb_spec n 1) as [-> | Hne].
  - intros ? <-. unfold bind, randomUUID, ret. simpl.
    split; [| done]. split; [apply ext_draw, ext_refl |].
    split; [| by eauto 6].
    destruct HM as [Hread Hshape]. split; simpl; [exact Hread |].
    exact Hshape.
  - destruct (Z.ltb_spec (2 ^ 53) n) as [? | _]; [lia |].
    eapply hoare_bind_returns.
    { by apply (powerLoop_spec _ σ matrix dM matrix dM). }
    intros result σ1 (Hext & Hres & Hrows & Hcols).
    unfold bind, randomUUID, ret. simpl.
    split; [| intros; lia].
    split; [by apply ext_draw |]. destruct Hext as [Hr Hg Hrng Hd]. split.
    + rewrite powerData_iter. destruct Hres as [Hread Hshape].
      split; simpl; [exact Hread | exact Hshape].
    + split; [done |]. split; [done |]. exists (drawn σ1). by rewrite Hrng.
Qed.

(** ** Every primitive extends the store *)

Lemma building_writesTo σ0 g rs d σ : building σ0 g rs d σ -> writesTo σ0 g rs σ.
Proof. by intros []. Qed.

(** The common shape of the four primitives that fill a new grid. *)
Lemma fill_framed {A} nrows ncols n m (body : loc -> nat -> nat -> M unit)
    (finish : loc -> M A) σ :
  (forall g rs i j,
     hoare (writesTo σ g rs) (body g i j) (anyway (writesTo σ g rs))) ->
  (forall g, framed (finish g)) ->
  ext σ ((g <- createEmptyMatrix nrows ncols 0 ;
          _ <- forEach (seq 0 n) (fun i => forEach (seq 0 m) (fun j => body g i j)) ;
          finish g) σ).2.
Proof.
  intros Hbody Hfinish.
  assert (hoare (eq σ)
            (g <- createEmptyMatrix nrows ncols 0 ;
             _ <- forEach (seq 0 n) (fun i => forEach (seq 0 m) (fun j => body g i j)) ;
             finish g)
            (anyway (ext σ))) as H; [| by apply H].
  eapply hoare_bind_returns; [apply createEmptyMatrix_spec |]. intros g.
  apply hoare_pointwise. intros σ1 (rs & Hb%building_writesTo & _).
  eapply hoare_bind_anyway with (Ψ := writesTo σ g rs).
  - eapply hoare_conseq; [apply fill_loops_writesTo, Hbody | by intros ? <- | done].
  - intros _. eapply hoare_conseq; [apply (framed_ext _ σ), Hfinish | | done].
    intros σ2 Hw. apply Hw.
  - intros σ2 Hw. apply Hw.
Qed.

Lemma writeCell_after_reads {A} σ0 g rs (compute : M A) (write : A -> M unit) :
  stateless compute ->
  (forall a, hoare (writesTo σ0 g rs) (write a) (anyway (writesTo σ0 g rs))) ->
  hoare (writesTo σ0 g rs) (a <- compute ; write a) (anyway (writesTo σ0 g rs)).
Proof.
  intros Hc Hw. eapply hoare_bind_anyway; [by apply hoare_stateless | exact Hw | done].
Qed.

Lemma framed_finish (mk : string -> Matrix) : framed (id <- randomUUID ; ret (mk id)).
Proof. apply framed_bind; [apply framed_randomUUID | intros; apply framed_ret]. Qed.

Lemma stateless_readThen {A} g i j (f : float -> M A) :
  (forall v, stateless (f v)) -> stateless (v <- readCell g i j ; f v).
Proof. intros Hf. apply stateless_bind; [apply stateless_readCell | exact Hf]. Qed.

Lemma framed_addMatrices ms : framed (addMatrices ms).
Proof.
  intros σ. unfold addMatrices. destruct ms as [| first others]; [apply ext_refl |].
  apply fill_framed; [| intros g; apply framed_finish].
  intros g rs i j. apply writeCell_after_reads; [| intros; apply writeCell_writesTo].
  apply stateless_foldM. intros sum m.
  apply stateless_readThen. intros v. apply stateless_ret.
Qed.

Lemma framed_subtractMatrices ms : framed (subtractMatrices ms).
Proof.
  intros σ. unfold subtractMatrices. destruct ms as [| first others]; [apply ext_refl |].
  apply fill_framed; [| intros g; apply framed_finish].
  intros g rs i j. apply writeCell_after_reads.
  - apply stateless_readCell.
  - intros a. apply writeCell_after_reads; [| intros; apply writeCell_writesTo].
    apply stateless_foldM. intros val m.
    apply stateless_readThen. intros v. apply stateless_ret.
Qed.

Lemma framed_multiplyTwoMatrices A B : framed (multiplyTwoMatrices A B).
Proof.
  intros σ. unfold multiplyTwoMatrices.
  apply fill_framed; [| intros g; apply framed_finish].
  intros g rs i j. apply writeCell_after_reads; [| intros; apply writeCell_writesTo].
  apply stateless_foldM. intros sum k.
  apply stateless_readThen. intros vA.
  apply stateless_readThen. intros vB. apply stateless_ret.
Qed.

Lemma framed_transposeMatrix m : framed (transposeMatrix m).
Proof.
  intros σ. unfold transposeMatrix.
  apply fill_framed; [| intros g; apply framed_finish].
  intros g rs i j. apply writeCell_after_reads; [| intros; apply writeCell_writesTo].
  apply stateless_readCell.
Qed.

Lemma framed_powerLoop n matrix result : framed (powerLoop n matrix result).
Proof.
  revert result. induction n as [| n IH]; intros result; simpl.
  - apply framed_ret.
  - apply framed_bind; [apply framed_multiplyTwoMatrices | apply IH].
Qed.

Lemma framed_powerMatrix matrix exponent :
  framed (powerMatrix numberToString matrix exponent).
Proof.
  unfold powerMatrix.
  destruct (negb (rows matrix =? cols matrix)); [apply framed_throw |].
  destruct (integerValue exponent) as [n |]; [| apply framed_throw].
  destruct (n <? 1)%Z; [apply framed_throw |].
  destruct (n =? 1)%Z; [apply framed_finish |].
  destruct (2 ^ 53 <? n)%Z; [apply framed_throw |].
  apply framed_bind; [apply framed_powerLoop |].
  intros result. apply framed_finish.
Qed.

Lemma framed_scalarOperation matrix scalar type :
  framed (scalarOperation numberToString matrix scalar type).
Proof.
  unfold scalarOperation.
  apply framed_bind; [apply framed_stateless, stateless_getGrid |]. intros g.
  apply framed_bind.
  { apply framed_mapEach. intros r.
    apply framed_bind; [apply framed_stateless, stateless_getRow |].
    intros row. apply framed_allocRow. }
  intros newRows. apply framed_bind; [apply framed_allocGrid |].
  intros resultData. apply framed_finish.
Qed.

Lemma framed_wrap {A B} (m : M A) (f : A -> B) :
  framed m -> framed (r <- m ; ret (f r)).
Proof. intros H. apply framed_bind; [exact H | intros; apply framed_ret]. Qed.

Lemma framed_genericMultiply a b : framed (genericMultiply numberToString a b).
Proof.
  destruct a as [x | mA], b as [y | mB]; unfold genericMultiply.
  - apply framed_ret.
  - apply framed_wrap, framed_scalarOperation.
  - apply framed_wrap, framed_scalarOperation.
  - destruct (negb (cols mA =? rows mB)); [apply framed_throw |].
    apply framed_wrap, framed_multiplyTwoMatrices.
Qed.

Lemma framed_genericAdd a b : framed (genericAdd a b).
Proof.
  destruct a as [x | mA], b as [y | mB]; unfold genericAdd;
    try apply framed_ret; try apply framed_throw.
  destruct (negb (rows mA =? rows mB) || negb (cols mA =? cols mB));
    [apply framed_throw |].
  apply framed_wrap, framed_addMatrices.
Qed.

Lemma framed_genericSubtract a b : framed (genericSubtract a b).
Proof.
  destruct a as [x | mA], b as [y | mB]; unfold genericSubtract;
    try apply framed_ret; try apply framed_throw.
  destruct (negb (rows mA =? rows mB) || negb (cols mA =? cols mB));
    [apply framed_throw |].
  apply framed_wrap, framed_subtractMatrices.
Qed.

Lemma framed_applyBinary op a b : framed (applyBinary numberToString op a b).
Proof.
  unfold applyBinary.
  destruct (String.eqb op "+"); [apply framed_genericAdd |].
  destruct (String.eqb op "-"); [apply framed_genericSubtract |].
  destruct (String.eqb op "*"); [apply framed_genericMultiply |].
  destruct (String.eqb op "^"); [| apply framed_throw].
  destruct a as [x | m], b as [n | m']; try apply framed_throw.
  apply framed_wrap, framed_powerMatrix.
Qed.

Lemma framed_applyOperator matrixMap op st :
  framed (applyOperator numberToString matrixMap op st).
Proof.
  unfold applyOperator. destruct (String.eqb op "'").
  - destruct (stack st) as [| [x | a] rest]; try apply framed_throw.
    apply framed_wrap, framed_transposeMatrix.
  - destruct (stack st) as [| b [| a rest]]; try apply framed_throw.
    apply framed_wrap, framed_applyBinary.
Qed.

Lemma framed_evalToken matrixMap st token :
  framed (evalToken numberToString matrixMap st token).
Proof.
  unfold evalToken. destruct (type token); try apply framed_ret.
  - destruct (matrixMap !! toUpperCase (value token));
      [apply framed_ret | apply framed_throw].
  - apply framed_applyOperator.
Qed.

Lemma framed_evaluateExpression expression availableMatrices :
  framed (evaluateExpression numberToString expression availableMatrices).
Proof.
  unfold evaluateExpression.
  destruct (String.eqb (trim expression) ""); [apply framed_throw |].
  apply framed_bind.
  - apply framed_foldM. intros st token. apply framed_evalToken.
  - intros st. destruct (stack st) as [| [x | m] [| ? ?]];
      try apply framed_throw; apply framed_ret.
Qed.

(** ** The resolver *)

Lemma register_values (all : list Matrix) matrixMap m idx :
  (forall k x, matrixMap !! k = Some x -> x ∈ all) -> m ∈ all ->
  forall k x, register matrixMap m idx !! k = Some x -> x ∈ all.
Proof.
  intros Hmap Hm k x. unfold register.
  set (byName := <[toUpperCase (name m) := m]> matrixMap).
  assert (forall k x, byName !! k = Some x -> x ∈ all) as HbyName.
  { intros k' x' [[_ <-] | [_ H]]%lookup_insert_Some; eauto. }
  set (byAlias := if startsWith _ _ then _ else _).
  assert (forall k x, byAlias !! k = Some x -> x ∈ all) as HbyAlias.
  { subst byAlias. destruct (startsWith _ _); [| done].
    destruct (String.eqb _ _); [done |].
    intros k' x' [[_ <-] | [_ H]]%lookup_insert_Some; eauto. }
  destruct (byAlias !! fromCharCode (65 + idx)); [apply HbyAlias |].
  intros [[_ <-] | [_ H]]%lookup_insert_Some; eauto.
Qed.

Lemma registerAll_values (all : list Matrix) ms idx matrixMap :
  (forall k x, matrixMap !! k = Some x -> x ∈ all) ->
  (forall m, m ∈ ms -> m ∈ all) ->
  forall k x, registerAll ms idx matrixMap !! k = Some x -> x ∈ all.
Proof.
  revert idx matrixMap. induction ms as [| m ms IH]; intros idx matrixMap Hmap Hms; [done |].
  simpl. apply IH.
  - apply register_values; [done | apply Hms; by left].
  - intros x Hx. apply Hms. by right.
Qed.

(** The resolver maps names to input entities only. *)
Lemma buildMatrixMap_values ms k m : buildMatrixMap ms !! k = Some m -> m ∈ ms.
Proof.
  unfold buildMatrixMap. apply registerAll_values; [| done].
  intros k' x. by rewrite lookup_empty.
Qed.

Lemma isInput_false ms σ r k :
  noCollision σ ms -> drawn σ <= k -> id r = rng σ k ->
  isInput (buildMatrixMap ms) r = false.
Proof.
  intros Hfresh Hk Hid. unfold isInput. apply bool_decide_eq_false.
  intros (key & m & Hm & Heq)%map_Exists_lookup.
  apply buildMatrixMap_values in Hm. apply (Hfresh k m Hk Hm). congruence.
Qed.

Lemma noCollision_mono σ σ' ms : ext σ σ' -> noCollision σ ms -> noCollision σ' ms.
Proof.
  intros [_ _ Hrng Hdrawn] Hfresh k m Hk Hm. rewrite Hrng. apply Hfresh; [lia | done].
Qed.

(** ** The evaluator keeps entities well formed *)

Lemma produces_wf σ nrows ncols d r σ' :
  produces σ nrows ncols d r σ' -> ext σ σ' /\ wfOperand σ' (Mat r).
Proof. intros (Hext & Hholds & _). split; [done |]. by exists d. Qed.

Lemma hoare_wrap_safe σ (m : M Matrix) (Φ : Matrix -> state -> Prop) :
  hoare (eq σ) m (returns Φ) ->
  (forall r σ', Φ r σ' -> ext σ σ' /\ wfOperand σ' (Mat r)) ->
  hoare (eq σ) (r <- m ; ret (Mat r))
        (safe (fun v σ' => ext σ σ' /\ wfOperand σ' v)).
Proof.
  intros Hm HΦ. eapply hoare_bind_returns; [exact Hm |].
  intros r. apply hoare_ret. intros σ' H. by apply HΦ.
Qed.

Lemma powerMatrix_safe σ m exponent :
  wfMatrix σ m ->
  hoare (eq σ) (r <- powerMatrix numberToString m exponent ; ret (Mat r))
        (safe (fun v σ' => ext σ σ' /\ wfOperand σ' v)).
Proof.
  intros [d Hd].
  destruct (Nat.eqb_spec (rows m) (cols m)) as [Hsq | Hne].
  - destruct (integerValue exponent) as [n |] eqn:Hint.
    + destruct (Z.ltb_spec n 1) as [Hlt | Hge].
      * intros ? <-. unfold powerMatrix, bind.
        apply Nat.eqb_eq in Hsq. rewrite Hsq, Hint. simpl.
        apply Z.ltb_lt in Hlt. by rewrite Hlt.
      * destruct (Z.ltb_spec (2 ^ 53) n) as [Hbig | Hok].
        -- intros ? <-. unfold powerMatrix, bind.
           apply Nat.eqb_eq in Hsq. rewrite Hsq, Hint. simpl.
           apply Z.ltb_ge in Hge. rewrite Hge.
           destruct (Z.eqb_spec n 1) as [-> | _]; [done |].
           apply Z.ltb_lt in Hbig. by rewrite Hbig.
        -- eapply hoare_wrap_safe;
             [apply (powerMatrix_spec σ m d exponent n); done |].
           intros r σ' [Hprod _]. by eapply produces_wf.
    + intros ? <-. unfold powerMatrix, bind.
      apply Nat.eqb_eq in Hsq. by rewrite Hsq, Hint.
  - intros ? <-. unfold powerMatrix, bind.
    apply Nat.eqb_neq in Hne. by rewrite Hne.
Qed.

Lemma applyBinary_safe σ op a b :
  wfOperand σ a -> wfOperand σ b ->
  hoare (eq σ) (applyBinary numberToString op a b)
        (safe (fun v σ' => ext σ σ' /\ wfOperand σ' v)).
Proof.
  intros Ha Hb. unfold applyBinary.
  destruct (String.eqb op "+"); [| destruct (String.eqb op "-");
    [| destruct (String.eqb op "*"); [| destruct (String.eqb op "^")]]].
  - destruct a as [x | mA], b as [y | mB]; unfold genericAdd;
      try (intros ? <-; simpl; first [done | split; [apply ext_refl | done]]).
    destruct Ha as [dA HA], Hb as [dB HB].
    destruct (Nat.eqb_spec (rows mA) (rows mB)) as [Hr | ?]; simpl; [| by intros ? <-].
    destruct (Nat.eqb_spec (cols mA) (cols mB)) as [Hc | ?]; simpl; [| by intros ? <-].
    eapply hoare_wrap_safe; [by apply (addMatrices_spec σ mA mB dA dB) |].
    intros r σ'. apply produces_wf.
  - destruct a as [x | mA], b as [y | mB]; unfold genericSubtract;
      try (intros ? <-; simpl; first [done | split; [apply ext_refl | done]]).
    destruct Ha as [dA HA], Hb as [dB HB].
    destruct (Nat.eqb_spec (rows mA) (rows mB)) as [Hr | ?]; simpl; [| by intros ? <-].
    destruct (Nat.eqb_spec (cols mA) (cols mB)) as [Hc | ?]; simpl; [| by intros ? <-].
    eapply hoare_wrap_safe; [by apply (subtractMatrices_spec σ mA mB dA dB) |].
    intros r σ'. apply produces_wf.
  - destruct a as [x | mA], b as [y | mB]; unfold genericMultiply.
    + intros ? <-. simpl. split; [apply ext_refl | done].
    + destruct Hb as [dB HB].
      eapply hoare_wrap_safe; [by apply scalarOperation_produces |].
      intros r σ'. apply produces_wf.
    + destruct Ha as [dA HA].
      eapply hoare_wrap_safe; [by apply scalarOperation_produces |].
      intros r σ'. apply produces_wf.
    + destruct Ha as [dA HA], Hb as [dB HB].
      destruct (Nat.eqb_spec (cols mA) (rows mB)) as [Hdim | ?]; simpl; [| by intros ? <-].
      eapply hoare_wrap_safe; [by apply (multiplyTwoMatrices_spec σ mA mB dA dB) |].
      intros r σ'. apply produces_wf.
  - destruct a as [x | m], b as [n | m']; try (by intros ? <-).
    by apply powerMatrix_safe.
  - by intros ? <-.
Qed.

Lemma evalInv_mono matrixMap st σ σ' :
  ext σ σ' -> evalInv matrixMap st σ -> evalInv matrixMap st σ'.
Proof.
  intros Hext (Hmap & Hstack & Htrace). split; [| split].
  - eapply map_Forall_impl; [exact Hmap |]. intros k m. by apply wfMatrix_mono.
  - eapply Forall_impl; [exact Hstack |]. intros v. by apply wfOperand_mono.
  - eapply Forall_impl; [exact Htrace |]. intros m. by apply wfMatrix_mono.
Qed.

Lemma evalInv_pushResult matrixMap val rest trace σ :
  evalInv matrixMap (mkEval rest trace) σ -> wfOperand σ val ->
  evalInv matrixMap (pushResult matrixMap val (mkEval rest trace)) σ.
Proof.
  intros (Hmap & Hstack & Htrace) Hval. simpl in *.
  destruct val as [x | m]; simpl.
  - split; [done |]. split; [by constructor | done].
  - split; [done |]. split; [by constructor |].
    destruct (isInput matrixMap m); [done |].
    apply Forall_app. split; [done |]. by constructor.
Qed.

Lemma evalToken_safe matrixMap st token :
  hoare (evalInv matrixMap st) (evalToken numberToString matrixMap st token)
        (safe (fun st' σ' => evalInv matrixMap st' σ')).
Proof.
  apply hoare_pointwise. intros σ (Hmap & Hstack & Htrace).
  unfold evalToken. destruct (type token); try (by intros ? <-).
  - intros ? <-. simpl. split; [done |]. split; [by constructor | done].
  - destruct (matrixMap !! toUpperCase (value token)) as [mat |] eqn:Hmat;
      [| by intros ? <-].
    intros ? <-. simpl. split; [done |]. split; [| done].
    constructor; [| done]. simpl. by eapply map_Forall_lookup_1 in Hmap.
  - unfold applyOperator. destruct (String.eqb (value token) "'").
    + destruct (stack st) as [| [x | a] rest] eqn:Hst; try (by intros ? <-).
      apply Forall_cons in Hstack as [[d Ha] Hrest].
      eapply hoare_bind_returns; [by apply (transposeMatrix_spec σ a d) |].
      intros r. apply hoare_ret. intros σ' Hprod.
      apply produces_wf in Hprod as [Hext Hr].
      apply evalInv_pushResult; [| done].
      apply (evalInv_mono _ _ σ); [done |]. by split.
    + destruct (stack st) as [| b [| a rest]] eqn:Hst; try (by intros ? <-).
      apply Forall_cons in Hstack as [Hb Hstack].
      apply Forall_cons in Hstack as [Ha Hrest].
      eapply hoare_bind_safe; [by apply applyBinary_safe |].
      intros v. apply hoare_ret. intros σ' [Hext Hv].
      apply evalInv_pushResult; [| done].
      apply (evalInv_mono _ _ σ); [done |]. by split.
Qed.

Lemma evalLoop_safe matrixMap rpn st :
  hoare (evalInv matrixMap st)
        (foldM (evalToken numberToString matrixMap) st rpn)
        (safe (fun st' σ' => evalInv matrixMap st' σ')).
Proof.
  revert st. induction rpn as [| token rpn IH]; intros st.
  - by apply hoare_ret.
  - simpl. eapply hoare_bind_safe; [apply evalToken_safe | apply IH].
Qed.

(** ** Runs of the evaluation loop *)

Lemma foldM_app {X A} (f : A -> X -> M A) a xs ys σ :
  foldM f a (xs ++ ys) σ = (a' <- foldM f a xs ; foldM f a' ys) σ.
Proof.
  revert a σ. induction xs as [| x xs IH]; intros a σ; [done |].
  simpl. destruct (f a x σ) as [[a1 | e] σ1] eqn:E.
  - rewrite (bind_run _ _ _ _ _ E). rewrite IH.
    unfold bind at 2. rewrite (bind_run _ _ _ _ _ E). done.
  - rewrite (bind_throw _ _ _ _ _ E).
    unfold bind at 1. by rewrite (bind_throw _ _ _ _ _ E).
Qed.

Lemma evalLoop_identifier matrixMap st lexeme m rest σ :
  matrixMap !! toUpperCase lexeme = Some m ->
  foldM (evalToken numberToString matrixMap) st (mkToken IDENTIFIER lexeme :: rest) σ
  = foldM (evalToken numberToString matrixMap)
          (mkEval (Mat m :: stack st) (executionTrace st)) rest σ.
Proof.
  intros Hm. cbn [foldM]. erewrite bind_run; [done |].
  unfold evalToken. simpl. by rewrite Hm.
Qed.

Lemma evalLoop_number matrixMap st lexeme rest σ :
  foldM (evalToken numberToString matrixMap) st (mkToken NUMBER lexeme :: rest) σ
  = foldM (evalToken numberToString matrixMap)
          (mkEval (Num (parseFloat lexeme) :: stack st) (executionTrace st)) rest σ.
Proof. cbn [foldM]. by erewrite bind_run. Qed.

Lemma evalLoop_operator matrixMap st op rest σ st' σ' :
  applyOperator numberToString matrixMap op st σ = (Ok st', σ') ->
  foldM (evalToken numberToString matrixMap) st (mkToken OPERATOR op :: rest) σ
  = foldM (evalToken numberToString matrixMap) st' rest σ'.
Proof. intros Hop. cbn [foldM]. erewrite bind_run; [done | exact Hop]. Qed.

(** One transposition step on a well-formed operand, with no collision of
    identifiers. *)
Lemma applyOperator_transpose ms σ a d rest trace :
  holds σ a d -> noCollision σ ms ->
  exists r σ',
    applyOperator numberToString (buildMatrixMap ms) "'" (mkEval (Mat a :: rest) trace) σ
    = (Ok (mkEval (Mat r :: rest) (trace ++ [r])), σ') /\
    produces σ (cols a) (rows a) (transposeData (rows a) (cols a) d) r σ'.
Proof.
  intros Ha Hfresh.
  destruct (hoare_run _ _ _ (transposeMatrix_spec σ a d Ha)) as (r & σ' & Hrun & Hprod).
  exists r, σ'. split; [| done].
  unfold applyOperator. simpl. rewrite (bind_run _ _ _ _ _ Hrun).
  unfold ret, pushResult. simpl.
  destruct Hprod as (_ & _ & _ & _ & k & Hk & Hid).
  by rewrite (isInput_false ms σ r k).
Qed.

(** One binary step whose operation returns a matrix with a fresh
    identifier. *)
Lemma applyOperator_binary ms σ op a b rest trace r σ' k :
  String.eqb op "'" = false ->
  applyBinary numberToString op a b σ = (Ok (Mat r), σ') ->
  noCollision σ ms -> drawn σ <= k -> id r = rng σ k ->
  applyOperator numberToString (buildMatrixMap ms) op (mkEval (b :: a :: rest) trace) σ
  = (Ok (mkEval (Mat r :: rest) (trace ++ [r])), σ').
Proof.
  intros Hop Hrun Hfresh Hk Hid. unfold applyOperator. rewrite Hop. simpl.
  rewrite (bind_run _ _ _ _ _ Hrun). unfold ret, pushResult. simpl.
  by rewrite (isInput_false ms σ r k).
Qed.

Lemma evaluateExpression_run expression ms st σ σ' m :
  String.eqb (trim expression) "" = false ->
  foldM (evalToken numberToString (buildMatrixMap ms)) (mkEval [] [])
        (toRPN (tokenize expression)) σ = (Ok st, σ') ->
  stack st = [Mat m] ->
  evaluateExpression numberToString expression ms σ = (Ok (executionTrace st), σ').
Proof.
  intros Hne Hrun Hstack. unfold evaluateExpression. rewrite Hne.
  rewrite (bind_run _ _ _ _ _ Hrun). by rewrite Hstack.
Qed.

(** ** The claims *)

(** C1, as amended.  For every square input matrix that the identifier A
    resolves to, evaluating "A^3" returns an execution trace of length 1,
    not 2: its only element is the final matrix, whose value is
    [(A·A)·A], two sequential multiplications; the intermediate [A·A] is
    computed inside [powerMatrix] and is not part of the trace. *)
Theorem power3_trace_is_the_final_matrix ms σ A d :
  buildMatrixMap ms !! "A" = Some A ->
  holds σ A d -> rows A = cols A -> noCollision σ ms ->
  exists r σ',
    evaluateExpression numberToString "A^3" ms σ = (Ok [r], σ') /\
    readData σ' (data r)
    = Some (multiplyData (rows A) (rows A) (rows A)
              (multiplyData (rows A) (rows A) (rows A) d d) d) /\
    rows r = rows A /\ cols r = rows A.
Proof.
  intros HA Hholds Hsq Hfresh.
  destruct (hoare_run _ _ _
              (powerMatrix_spec σ A d (parseFloat "3") 3 Hholds Hsq eq_refl
                 ltac:(split; [lia | done])))
    as (r & σ' & Hrun & (Hext & [Hread _] & Hrows & Hcols & k & Hk & Hid) & _).
  exists r, σ'. split; [| done].
  apply evaluateExpression_run with (st := mkEval [Mat r] [r]) (m := r);
    [done | | done].
  change (toRPN (tokenize "A^3"))
    with [mkToken IDENTIFIER "A"; mkToken NUMBER "3"; mkToken OPERATOR "^"].
  rewrite (evalLoop_identifier _ _ _ A) by exact HA.
  rewrite evalLoop_number.
  erewrite evalLoop_operator; [done |].
  apply (applyOperator_binary ms σ "^" (Mat A) (Num (parseFloat "3")) [] [] r σ' k);
    try done.
  unfold applyBinary. simpl. by rewrite (bind_run _ _ _ _ _ Hrun).
Qed.

(** C5.  For every scalar [s] and every matrix [M] of the store, applying
    [+] or [-] to [(s, M)] or [(M, s)] fails with
    ScalarMatrixAdditionUnsupported, and applying [*] to [(s, M)] or
    [(M, s)] returns a matrix whose cells are those of [M] multiplied by
    [s] and rounded to four decimals. *)
Theorem scalar_and_matrix_dispatch σ s M d :
  readData σ (data M) = Some d ->
  applyBinary numberToString "+" (Num s) (Mat M) σ
    = (Throw ScalarMatrixAdditionUnsupported, σ) /\
  applyBinary numberToString "+" (Mat M) (Num s) σ
    = (Throw ScalarMatrixAdditionUnsupported, σ) /\
  applyBinary numberToString "-" (Num s) (Mat M) σ
    = (Throw ScalarMatrixAdditionUnsupported, σ) /\
  applyBinary numberToString "-" (Mat M) (Num s) σ
    = (Throw ScalarMatrixAdditionUnsupported, σ) /\
  (exists r σ',
     applyBinary numberToString "*" (Num s) (Mat M) σ = (Ok (Mat r), σ') /\
     readData σ' (data r) = Some (map (map (fun v => round4 (v * s)%float)) d) /\
     rows r = rows M /\ cols r = cols M) /\
  (exists r σ',
     applyBinary numberToString "*" (Mat M) (Num s) σ = (Ok (Mat r), σ') /\
     readData σ' (data r) = Some (map (map (fun v => round4 (v * s)%float)) d) /\
     rows r = rows M /\ cols r = cols M).
Proof.
  intros Hread. repeat (split; [done |]).
  destruct (hoare_run _ _ _ (scalarOperation_spec σ M d s Hread))
    as (r & σ' & Hrun & _ & Hdata & Hrows & Hcols & _).
  split; exists r, σ'; (split; [| done]);
    unfold applyBinary; simpl; by rewrite (bind_run _ _ _ _ _ Hrun).
Qed.

(** C6.  With the identifiers A and B resolving to matrices that hold
    [[1,2],[3,4]] and [[5,6],[7,8]], evaluating "A+B" returns a trace of
    exactly one matrix, whose data is [[6,8],[10,12]]. *)
Theorem sum_of_two_matrices ms σ A B :
  buildMatrixMap ms !! "A" = Some A ->
  buildMatrixMap ms !! "B" = Some B ->
  holds σ A [[1; 2]; [3; 4]]%float ->
  holds σ B [[5; 6]; [7; 8]]%float ->
  noCollision σ ms ->
  exists r σ',
    evaluateExpression numberToString "A+B" ms σ = (Ok [r], σ') /\
    readData σ' (data r) = Some [[6; 8]; [10; 12]]%float.
Proof.
  intros HA HB HholdsA HholdsB Hfresh.
  assert (rows A = 2 /\ cols A = 2) as [HrA HcA].
  { destruct HholdsA as [_ [Hlen Hall]]. split; [done |].
    by apply Forall_cons in Hall as [Hrow _]. }
  assert (rows B = 2 /\ cols B = 2) as [HrB HcB].
  { destruct HholdsB as [_ [Hlen Hall]]. split; [done |].
    by apply Forall_cons in Hall as [Hrow _]. }
  destruct (hoare_run _ _ _
              (addMatrices_spec σ A B _ _ HholdsA HholdsB
                 ltac:(congruence) ltac:(congruence)))
    as (r & σ' & Hrun & Hext & [Hread _] & _ & _ & k & Hk & Hid).
  exists r, σ'. split.
  - apply evaluateExpression_run with (st := mkEval [Mat r] [r]) (m := r);
      [done | | done].
    change (toRPN (tokenize "A+B"))
      with [mkToken IDENTIFIER "A"; mkToken IDENTIFIER "B"; mkToken OPERATOR "+"].
    rewrite (evalLoop_identifier _ _ _ A) by exact HA.
    rewrite (evalLoop_identifier _ _ _ B) by exact HB.
    erewrite evalLoop_operator; [done |].
    apply (applyOperator_binary ms σ "+" (Mat A) (Mat B) [] [] r σ' k); try done.
    change (applyBinary numberToString "+" (Mat A) (Mat B))
      with (genericAdd (Mat A) (Mat B)).
    unfold genericAdd.
    assert (negb (rows A =? rows B) || negb (cols A =? cols B) = false) as ->
      by (by rewrite HrA, HrB, HcA, HcB).
    by rewrite (bind_run _ _ _ _ _ Hrun).
  - rewrite Hread, HrA, HcA. reflexivity.
Qed.

(** C7.  For every well-formed matrix that the identifier A resolves to,
    evaluating "A''" succeeds with the trace of the two transposes, and the
    grid of the final one is, cell for cell, the grid of [A]: no cell is
    rounded or otherwise changed. *)
Theorem double_transpose_round_trip ms σ A d :
  buildMatrixMap ms !! "A" = Some A ->
  holds σ A d -> noCollision σ ms ->
  exists t1 t2 σ',
    evaluateExpression numberToString "A''" ms σ = (Ok [t1; t2], σ') /\
    readData σ' (data t2) = Some d /\
    rows t2 = rows A /\ cols t2 = cols A.
Proof.
  intros HA Hholds Hfresh.
  destruct (applyOperator_transpose ms σ A d [] [] Hholds Hfresh)
    as (t1 & σ1 & Hrun1 & Hext1 & Hh1 & Hr1 & Hc1 & _).
  destruct (applyOperator_transpose ms σ1 t1 _ [] [t1] Hh1
              (noCollision_mono _ _ _ Hext1 Hfresh))
    as (t2 & σ2 & Hrun2 & Hext2 & [Hread2 _] & Hr2 & Hc2 & _).
  exists t1, t2, σ2. split; [| split].
  - apply evaluateExpression_run with (st := mkEval [Mat t2] [t1; t2]) (m := t2);
      [done | | done].
    change (toRPN (tokenize "A''"))
      with [mkToken IDENTIFIER "A"; mkToken OPERATOR "'"; mkToken OPERATOR "'"].
    rewrite (evalLoop_identifier _ _ _ A) by exact HA.
    erewrite evalLoop_operator; [| exact Hrun1].
    erewrite evalLoop_operator; [| exact Hrun2]. done.
  - rewrite Hread2, Hr1, Hc1. f_equal.
    apply transposeData_involutive, Hholds.
  - split; congruence.
Qed.

(** C8.  Whatever the expression, the supplied matrices and the outcome,
    [evaluateExpression] changes no array that existed before the call:
    every row and every grid of the initial store is found unchanged in the
    final store, so every supplied matrix reads back the same cells.  (The
    fields [id], [name], [rows] and [cols] of an entity are never assigned
    by the engine: entities are immutable values of the model.) *)
Theorem evaluateExpression_preserves_inputs expression ms σ :
  let σ' := (evaluateExpression numberToString expression ms σ).2 in
  (forall l row, rowsH σ !! l = Some row -> rowsH σ' !! l = Some row) /\
  (forall l g, gridsH σ !! l = Some g -> gridsH σ' !! l = Some g) /\
  (forall m d, m ∈ ms -> readData σ (data m) = Some d ->
               readData σ' (data m) = Some d).
Proof.
  intros σ'. pose proof (framed_evaluateExpression expression ms σ) as Hext.
  fold σ' in Hext. split; [| split].
  - intros l row Hl. eapply lookup_weaken; [exact Hl | apply Hext].
  - intros l g Hl. eapply lookup_weaken; [exact Hl | apply Hext].
  - intros m d _. by apply readData_mono.
Qed.

(** C9.  If every input matrix satisfies the shape invariant (its grid has
    exactly [rows] rows of exactly [cols] cells each), then so does every
    matrix of the trace a successful evaluation returns. *)
Theorem trace_entities_are_shaped expression ms σ trace σ' :
  (forall m, m ∈ ms -> wfMatrix σ m) ->
  evaluateExpression numberToString expression ms σ = (Ok trace, σ') ->
  forall t, t ∈ trace ->
    exists d, readData σ' (data t) = Some d /\
              length d = rows t /\ Forall (fun row => length row = cols t) d.
Proof.
  intros Hms Hrun t Ht. unfold evaluateExpression in Hrun.
  destruct (String.eqb (trim expression) ""); [done |].
  pose proof (evalLoop_safe (buildMatrixMap ms) (toRPN (tokenize expression))
                (mkEval [] []) σ) as Hsafe.
  unfold bind in Hrun.
  destruct (foldM _ _ _ σ) as [[st | e] σ1]; [| done].
  simpl in Hsafe. destruct Hsafe as (_ & _ & Htrace).
  { split; [| by split].
    intros k m Hm. apply Hms. by eapply buildMatrixMap_values. }
  destruct (stack st) as [| [x | m] [| ? ?]]; try done.
  injection Hrun as <- <-.
  eapply Forall_forall in Htrace; [| exact Ht].
  destruct Htrace as (d & Hread & Hlen & Hall). eauto.
Qed.

(** C2.  The tokens of "3*A'-B^2", their postfix order, and the rule
    that makes it so: an incoming [^] pops nothing off the operator stack,
    whatever is on it, and is pushed at once. *)
Theorem tokens_rpn_and_caret_never_pops :
  tokenize "3*A'-B^2"
  = [mkToken NUMBER "3"; mkToken OPERATOR "*"; mkToken IDENTIFIER "A";
     mkToken OPERATOR "'"; mkToken OPERATOR "-"; mkToken IDENTIFIER "B";
     mkToken OPERATOR "^"; mkToken NUMBER "2"] /\
  toRPN (tokenize "3*A'-B^2")
  = [mkToken NUMBER "3"; mkToken IDENTIFIER "A"; mkToken OPERATOR "'";
     mkToken OPERATOR "*"; mkToken IDENTIFIER "B"; mkToken NUMBER "2";
     mkToken OPERATOR "^"; mkToken OPERATOR "-"] /\
  forall outputQueue operatorStack,
    popOperators (mkToken OPERATOR "^") outputQueue operatorStack
    = (outputQueue, operatorStack) /\
    rpnStep (outputQueue, operatorStack) (mkToken OPERATOR "^")
    = (outputQueue, mkToken OPERATOR "^" :: operatorStack).
Proof.
  split; [reflexivity |]. split; [reflexivity |].
  intros outputQueue operatorStack.
  assert (popOperators (mkToken OPERATOR "^") outputQueue operatorStack
          = (outputQueue, operatorStack)) as Hpop.
  { destruct operatorStack as [| top rest]; [done |]. simpl.
    by rewrite andb_false_r. }
  split; [exact Hpop |]. unfold rpnStep. simpl type. cbv iota. by rewrite Hpop.
Qed.

(** C3, as amended.  When the transpose operator ['] is applied while the
    operand stack is empty, the evaluation fails with
    TransposeRequiresMatrix, the error it also raises for a scalar operand,
    and not with MissingOperand; MissingOperand is what every other operator
    raises on an empty stack. *)
Theorem transpose_on_empty_stack matrixMap pre post st0 st σ σ' :
  foldM (evalToken numberToString matrixMap) st0 pre σ = (Ok st, σ') ->
  stack st = [] ->
  applyOperator numberToString matrixMap "'" st σ' = (Throw TransposeRequiresMatrix, σ') /\
  foldM (evalToken numberToString matrixMap) st0
        (pre ++ mkToken OPERATOR "'" :: post) σ
  = (Throw TransposeRequiresMatrix, σ') /\
  forall op, String.eqb op "'" = false ->
    applyOperator numberToString matrixMap op st σ' = (Throw MissingOperand, σ').
Proof.
  intros Hpre Hstack.
  assert (applyOperator numberToString matrixMap "'" st σ'
          = (Throw TransposeRequiresMatrix, σ')) as Hop.
  { unfold applyOperator. simpl. by rewrite Hstack. }
  split; [exact Hop |]. split.
  - rewrite foldM_app, (bind_run _ _ _ _ _ Hpre). cbn [foldM].
    by apply bind_throw.
  - intros op Hne. unfold applyOperator. by rewrite Hne, Hstack.
Qed.

(** *** The resolver's rules *)

Lemma register_lookup matrixMap m idx key :
  register matrixMap m idx !! key = registered matrixMap m idx key.
Proof.
  unfold register, registered, aliasOf.
  set (NAME := toUpperCase (name m)).
  set (short := toUpperCase (trim (substring_from 7 (name m)))).
  set (charCode := fromCharCode (65 + idx)).
  set (byName := <[NAME := m]> matrixMap).
  set (byAlias := if startsWith NAME "MATRIZ " then _ else _).
  assert (forall k, byAlias !! k =
          if decide (k = NAME) then Some m
          else if decide ((if startsWith NAME "MATRIZ "
                           then if String.eqb short "" then None else Some short
                           else None) = Some k)
               then Some m else matrixMap !! k) as Halias.
  { intros k. subst byAlias byName. destruct (startsWith NAME "MATRIZ ").
    - destruct (String.eqb short "").
      + rewrite lookup_insert. repeat case_decide; congruence.
      + rewrite !lookup_insert. repeat case_decide; congruence.
    - rewrite lookup_insert. repeat case_decide; congruence. }
  pose proof (Halias charCode) as Hcode.
  destruct (byAlias !! charCode) as [x |] eqn:Hx.
  - rewrite (Halias key). repeat case_decide; try congruence. subst key.
    by rewrite <- Hcode.
  - rewrite lookup_insert. destruct (decide (charCode = key)) as [<- | Hkey].
    + repeat case_decide; try congruence. by rewrite <- Hcode.
    + rewrite (Halias key). repeat case_decide; congruence.
Qed.

Lemma registerAll_app pre post idx matrixMap :
  registerAll (pre ++ post) idx matrixMap
  = registerAll post (idx + length pre) (registerAll pre idx matrixMap).
Proof.
  revert idx matrixMap. induction pre as [| m pre IH]; intros idx matrixMap; simpl.
  - by rewrite Nat.add_0_r.
  - rewrite IH. f_equal. lia.
Qed.

(** An entry stays when no later entity claims its key by name or alias. *)
Lemma registerAll_keeps post idx matrixMap key m :
  matrixMap !! key = Some m ->
  (forall x, x ∈ post -> toUpperCase (name x) <> key /\ aliasOf x <> Some key) ->
  registerAll post idx matrixMap !! key = Some m.
Proof.
  revert idx matrixMap. induction post as [| x post IH]; intros idx matrixMap Hm Hpost;
    [done |].
  simpl. apply IH.
  - rewrite register_lookup. unfold registered.
    destruct (Hpost x) as [Hname Halias]; [by left |].
    repeat case_decide; try congruence. by rewrite Hm.
  - intros y Hy. apply Hpost. by right.
Qed.

(** C4, as amended.  Each matrix is registered, in input order, under its
    upper-cased full name; under the upper-cased, trimmed remainder after
    the prefix "MATRIZ " when that remainder is not empty (overwriting any
    entry); and under the positional letter of its index only where that
    key is still free ([register] has the entries the three rules
    describe).  Lookup upper-cases the identifier, so a matrix named
    "Matriz A" is resolved by the identifier A in any letter case, provided
    no later matrix of the list is named A or has the alias A. *)
Theorem resolver_rules matrixMap m0 idx key pre m post lexeme st σ :
  register matrixMap m0 idx !! key = registered matrixMap m0 idx key /\
  (name m = "Matriz A" ->
   (forall x, x ∈ post -> toUpperCase (name x) <> "A" /\ aliasOf x <> Some "A") ->
   toUpperCase lexeme = "A" ->
   buildMatrixMap (pre ++ m :: post) !! "A" = Some m /\
   evalToken numberToString (buildMatrixMap (pre ++ m :: post)) st
             (mkToken IDENTIFIER lexeme) σ
   = (Ok (mkEval (Mat m :: stack st) (executionTrace st)), σ)).
Proof.
  split; [apply register_lookup |]. intros Hname Hpost Hlex.
  assert (buildMatrixMap (pre ++ m :: post) !! "A" = Some m) as Hm.
  { unfold buildMatrixMap. rewrite registerAll_app. cbn [registerAll].
    apply registerAll_keeps; [| done].
    rewrite register_lookup. unfold registered, aliasOf. by rewrite Hname. }
  split; [exact Hm |]. unfold evalToken. simpl. by rewrite Hlex, Hm.
Qed.

(** *** Tokens of a leading minus *)

Lemma start_letter c :
  is_letter c = true -> start c = ([], InId (String c EmptyString)).
Proof.
  destruct c as [[] [] [] [] [] [] [] []]; vm_compute; congruence.
Qed.

Lemma snoc_append acc c rest : snoc acc c +:+ rest = acc +:+ String c rest.
Proof.
  unfold snoc. induction acc as [| a acc IH]; [done |].
  change (String a ((acc +:+ String c "") +:+ rest) = String a (acc +:+ String c rest)).
  by rewrite IH.
Qed.

Lemma append_empty s : s +:+ "" = s.
Proof.
  induction s as [| a s IH]; [done |].
  change (String a (s +:+ "") = String a s). by rewrite IH.
Qed.

Lemma scan_letters rest acc :
  all_letters rest = true ->
  scan (InId acc) rest = [mkToken IDENTIFIER (acc +:+ rest)].
Proof.
  revert acc. induction rest as [| c rest IH]; intros acc Hall; simpl.
  - by rewrite append_empty.
  - simpl in Hall. apply andb_true_iff in Hall as [Hc Hrest].
    rewrite Hc. simpl. rewrite IH by done. by rewrite snoc_append.
Qed.

Lemma tokenize_minus_identifier ident :
  is_identifier ident = true ->
  tokenize (String "-" ident) = [mkToken OPERATOR "-"; mkToken IDENTIFIER ident].
Proof.
  unfold is_identifier. intros [Hne Hall]%andb_true_iff.
  destruct ident as [| c rest]; [done |].
  simpl in Hall. apply andb_true_iff in Hall as [Hc Hrest].
  unfold tokenize. cbn [scan]. change (step Idle "-") with ([opToken "-"], Idle).
  cbn [app]. cbn [scan]. unfold step. rewrite (start_letter c Hc).
  cbn [app]. by rewrite scan_letters.
Qed.

Lemma trim_minus s : String.eqb (trim (String "-" s)) "" = false.
Proof.
  unfold trim. change (trimStart (String "-" s)) with (String "-" s).
  cbn [trimEnd]. by destruct (trimEnd s).
Qed.

(** C10, as amended.  There is no unary minus: [-] is always a binary
    operator.  For every identifier that resolves to a matrix, the
    expression made of [-] followed by that identifier alone fails with
    MissingOperand, the [-] being applied to a stack that holds one
    operand; so does every expression with these two tokens (white space
    around them changes nothing), and nothing is allocated.  An expression
    that only begins that way need not fail: in "-A B" the [-] finds
    two operands, and the evaluation returns the one matrix [A - B]. *)
Theorem leading_minus_is_a_binary_operator ms σ ident m :
  is_identifier ident = true ->
  buildMatrixMap ms !! toUpperCase ident = Some m ->
  evaluateExpression numberToString ("-" +:+ ident) ms σ = (Throw MissingOperand, σ) /\
  (forall expression,
     String.eqb (trim expression) "" = false ->
     tokenize expression = [mkToken OPERATOR "-"; mkToken IDENTIFIER ident] ->
     evaluateExpression numberToString expression ms σ = (Throw MissingOperand, σ)) /\
  (forall A B dA dB,
     buildMatrixMap ms !! "A" = Some A ->
     buildMatrixMap ms !! "B" = Some B ->
     holds σ A dA -> holds σ B dB -> rows A = rows B -> cols A = cols B ->
     noCollision σ ms ->
     exists r σ',
       evaluateExpression numberToString "-A B" ms σ = (Ok [r], σ') /\
       readData σ' (data r) = Some (subtractData (rows A) (cols A) dA dB)).
Proof.
  intros Hident Hm.
  assert (forall expression,
            String.eqb (trim expression) "" = false ->
            tokenize expression = [mkToken OPERATOR "-"; mkToken IDENTIFIER ident] ->
            evaluateExpression numberToString expression ms σ
            = (Throw MissingOperand, σ)) as Htokens.
  { intros expression Hne Htok. unfold evaluateExpression. rewrite Hne, Htok.
    change (toRPN [mkToken OPERATOR "-"; mkToken IDENTIFIER ident])
      with [mkToken IDENTIFIER ident; mkToken OPERATOR "-"].
    apply bind_throw. rewrite (evalLoop_identifier _ _ _ m) by exact Hm.
    cbn [foldM]. by apply bind_throw. }
  split; [| split; [exact Htokens |]].
  - change ("-" +:+ ident) with (String "-" ident).
    apply Htokens; [apply trim_minus | by apply tokenize_minus_identifier].
  - intros A B dA dB HA HB HdA HdB Hr Hc Hfresh.
    destruct (hoare_run _ _ _ (subtractMatrices_spec σ A B dA dB HdA HdB Hr Hc))
      as (r & σ' & Hrun & Hext & [Hread _] & _ & _ & k & Hk & Hid).
    exists r, σ'. split; [| exact Hread].
    apply evaluateExpression_run with (st := mkEval [Mat r] [r]) (m := r);
      [done | | done].
    change (toRPN (tokenize "-A B"))
      with [mkToken IDENTIFIER "A"; mkToken IDENTIFIER "B"; mkToken OPERATOR "-"].
    rewrite (evalLoop_identifier _ _ _ A) by exact HA.
    rewrite (evalLoop_identifier _ _ _ B) by exact HB.
    erewrite evalLoop_operator; [done |].
    apply (applyOperator_binary ms σ "-" (Mat A) (Mat B) [] [] r σ' k); try done.
    change (applyBinary numberToString "-" (Mat A) (Mat B))
      with (genericSubtract (Mat A) (Mat B)).
    unfold genericSubtract.
    assert (negb (rows A =? rows B) || negb (cols A =? cols B) = false) as ->
      by (by rewrite Hr, Hc, !Nat.eqb_refl).
    by rewrite (bind_run _ _ _ _ _ Hrun).
Qed.

End EngineProperties.

(** ** Concrete runs *)

(** The model on some inputs whose results are known from the source. *)

Example tokenize_skips_what_it_cannot_classify :
  tokenize "12.5.x # y" = [mkToken NUMBER "12.5"; mkToken IDENTIFIER "x"; mkToken IDENTIFIER "y"].
Proof. reflexivity. Qed.

Example toRPN_parentheses :
  map value (toRPN (tokenize "(A+B)*C'")) = ["A"; "B"; "+"; "C"; "'"; "*"].
Proof. reflexivity. Qed.

Example round4_examples :
  round4 (parseFloat "0.1" + parseFloat "0.2") = parseFloat "0.3" /\
  round4 (parseFloat "1.00005") = parseFloat "1.0001" /\
  round4 (parseFloat "2.00005") = parseFloat "2" /\
  round4 (- parseFloat "0.00004") = (- 0)%float.
Proof. repeat split; reflexivity. Qed.

Example blank_expression :
  (evaluateExpression showInteger "   " sampleInputs sampleStore).1 = Throw EmptyExpression.
Proof. reflexivity. Qed.

Example scalar_only_expression :
  (evaluateExpression showInteger "3*2" sampleInputs sampleStore).1
  = Throw FinalResultMustBeMatrix.
Proof. reflexivity. Qed.

Example chained_power_is_a_type_error :
  (evaluateExpression showInteger "A^2^2" sampleInputs sampleStore).1
  = Throw PowerOperandTypeError.
Proof. by vm_compute. Qed.

Lemma sampleStore_noCollision : noCollision sampleStore sampleInputs.
Proof.
  intros k m _ Hm Heq. unfold sampleInputs in Hm.
  apply elem_of_cons in Hm as [-> | Hm];
    [| apply elem_of_cons in Hm as [-> | Hm]; [| by apply elem_of_nil in Hm]];
    vm_compute in Heq; discriminate Heq.
Qed.

Lemma sampleA_holds : holds sampleStore sampleA sampleDataA.
Proof. split; [reflexivity |]. split; [reflexivity | by repeat constructor]. Qed.

Lemma sampleB_holds : holds sampleStore sampleB sampleDataB.
Proof. split; [reflexivity |]. split; [reflexivity | by repeat constructor]. Qed.

Lemma sampleInputs_wf m : m ∈ sampleInputs -> wfMatrix sampleStore m.
Proof.
  intros Hm. apply elem_of_cons in Hm as [-> | Hm].
  - exists sampleDataA. apply sampleA_holds.
  - apply elem_of_cons in Hm as [-> | Hm]; [| by apply elem_of_nil in Hm].
    exists sampleDataB. apply sampleB_holds.
Qed.

(** C1, counterexample: on the 2x2 matrix [[1,2],[3,4]], the trace of
    "A^3" has one element, not two. *)
Lemma power3_trace_length_is_not_2 :
  traceLength (evaluateExpression showInteger "A^3" sampleInputs sampleStore).1 = Some 1 /\
  traceLength (evaluateExpression showInteger "A^3" sampleInputs sampleStore).1 <> Some 2.
Proof. split; [by vm_compute | vm_compute; discriminate]. Qed.

Lemma power3_trace_witness :
  exists r σ',
    evaluateExpression showInteger "A^3" sampleInputs sampleStore = (Ok [r], σ') /\
    readData σ' (data r) = Some [[37; 54]; [81; 118]]%float.
Proof.
  destruct (power3_trace_is_the_final_matrix showInteger sampleInputs sampleStore
              sampleA sampleDataA)
    as (r & σ' & Hrun & Hread & _);
    [reflexivity | apply sampleA_holds | reflexivity | apply sampleStore_noCollision |].
  exists r, σ'. split; [exact Hrun |]. rewrite Hread. reflexivity.
Defined.

(** C3, counterexample: the expression made of the transpose operator
    alone applies it to an empty stack; the error is
    TransposeRequiresMatrix, not MissingOperand. *)
Lemma lone_transpose_is_not_MissingOperand :
  (evaluateExpression showInteger "'" [] sampleStore).1 = Throw TransposeRequiresMatrix /\
  (evaluateExpression showInteger "'" [] sampleStore).1 <> Throw MissingOperand.
Proof. split; [by vm_compute | vm_compute; discriminate]. Qed.

Lemma transpose_on_empty_stack_witness :
  applyOperator showInteger ∅ "'" (mkEval [] []) sampleStore
    = (Throw TransposeRequiresMatrix, sampleStore) /\
  foldM (evalToken showInteger ∅) (mkEval [] [])
        ([] ++ mkToken OPERATOR "'" :: []) sampleStore
    = (Throw TransposeRequiresMatrix, sampleStore) /\
  applyOperator showInteger ∅ "+" (mkEval [] []) sampleStore
    = (Throw MissingOperand, sampleStore).
Proof.
  destruct (transpose_on_empty_stack showInteger ∅ [] [] (mkEval [] []) (mkEval [] [])
              sampleStore sampleStore eq_refl eq_refl) as (Hop & Hrun & Hother).
  split; [exact Hop |]. split; [exact Hrun |]. by apply Hother.
Defined.

(** C4, counterexample: an entity named "Matriz " has the prefix but is
    not registered under its (empty) remainder; and of two entities named
    "Matriz A" and "A", in that order, the identifier A resolves to the
    second. *)
Lemma alias_rule_counterexample :
  (startsWith (toUpperCase (name barePrefix)) "MATRIZ " = true /\
   buildMatrixMap [barePrefix]
     !! toUpperCase (trim (substring_from 7 (name barePrefix))) = None) /\
  (name sampleA = "Matriz A" /\
   buildMatrixMap [sampleA; plainA] !! "A" = Some plainA /\ plainA <> sampleA).
Proof. repeat split; by vm_compute. Qed.

Lemma resolver_rules_witness :
  register ∅ sampleA 0 !! "A" = registered ∅ sampleA 0 "A" /\
  buildMatrixMap ([] ++ sampleA :: [sampleB]) !! "A" = Some sampleA /\
  evalToken showInteger (buildMatrixMap ([] ++ sampleA :: [sampleB])) (mkEval [] [])
            (mkToken IDENTIFIER "a") sampleStore
  = (Ok (mkEval [Mat sampleA] []), sampleStore).
Proof.
  destruct (resolver_rules showInteger ∅ sampleA 0 "A" [] sampleA [sampleB] "a"
              (mkEval [] []) sampleStore) as [Hreg Hres].
  split; [exact Hreg |]. apply Hres; [reflexivity | | reflexivity].
  intros x Hx. apply elem_of_cons in Hx as [-> | Hx]; [| by apply elem_of_nil in Hx].
  split; vm_compute; discriminate.
Defined.

Lemma scalar_and_matrix_dispatch_witness :
  readData sampleStoreF (data sampleF) = Some sampleDataF /\
  applyBinary showInteger "+" (Num 3) (Mat sampleF) sampleStoreF
    = (Throw ScalarMatrixAdditionUnsupported, sampleStoreF) /\
  (exists r σ',
     applyBinary showInteger "*" (Num 3) (Mat sampleF) sampleStoreF = (Ok (Mat r), σ') /\
     readData σ' (data r) = Some (decimals [["0.3"; "0.6"]; ["0.9"; "1.2"]])) /\
  (parseFloat "0.1" * 3 =? parseFloat "0.3")%float = false.
Proof.
  split; [reflexivity |].
  destruct (scalar_and_matrix_dispatch showInteger sampleStoreF 3 sampleF sampleDataF)
    as (Hplus & _ & _ & _ & (r & σ' & Hrun & Hread & _) & _); [reflexivity |].
  split; [exact Hplus |]. split; [| reflexivity].
  exists r, σ'. split; [exact Hrun |]. rewrite Hread. reflexivity.
Defined.

Lemma sum_of_two_matrices_witness :
  exists r σ',
    evaluateExpression showInteger "A+B" sampleInputs sampleStore = (Ok [r], σ') /\
    readData σ' (data r) = Some [[6; 8]; [10; 12]]%float.
Proof.
  apply (sum_of_two_matrices showInteger sampleInputs sampleStore sampleA sampleB);
    [reflexivity | reflexivity | apply sampleA_holds | apply sampleB_holds
    | apply sampleStore_noCollision].
Defined.

Lemma double_transpose_witness :
  exists t1 t2 σ',
    evaluateExpression showInteger "A''" sampleInputs sampleStore = (Ok [t1; t2], σ') /\
    readData σ' (data t2) = Some sampleDataA /\
    rows t2 = rows sampleA /\ cols t2 = cols sampleA.
Proof.
  apply (double_transpose_round_trip showInteger sampleInputs sampleStore sampleA
           sampleDataA);
    [reflexivity | apply sampleA_holds | apply sampleStore_noCollision].
Defined.

Lemma trace_entities_are_shaped_witness :
  exists trace σ',
    evaluateExpression showInteger "3*A'-B^2" sampleInputs sampleStore = (Ok trace, σ') /\
    length trace = 4 /\
    Forall (fun t => exists d, readData σ' (data t) = Some d /\
                               length d = rows t /\
                               Forall (fun row => length row = cols t) d) trace.
Proof.
  destruct (evaluateExpression showInteger "3*A'-B^2" sampleInputs sampleStore)
    as [[trace | e] σ'] eqn:Hrun; [| vm_compute in Hrun; discriminate Hrun].
  exists trace, σ'. split; [reflexivity |]. split.
  - vm_compute in Hrun. by injection Hrun as <- _.
  - apply Forall_forall. intros t Ht.
    exact (trace_entities_are_shaped showInteger "3*A'-B^2" sampleInputs sampleStore
             trace σ' sampleInputs_wf Hrun t Ht).
Defined.

(** C10, counterexample: "-A B" begins with [-] followed by a known
    identifier, and its evaluation does not fail: the trace holds one
    matrix, [A - B]. *)
Lemma leading_minus_can_succeed :
  traceLength (evaluateExpression showInteger "-A B" sampleInputs sampleStore).1
  = Some 1 /\
  (evaluateExpression showInteger "-A B" sampleInputs sampleStore).1
  <> Throw MissingOperand.
Proof. split; [by vm_compute | vm_compute; discriminate]. Qed.

Lemma leading_minus_witness :
  is_identifier "a" = true /\
  buildMatrixMap sampleInputs !! toUpperCase "a" = Some sampleA /\
  evaluateExpression showInteger "-a" sampleInputs sampleStore
  = (Throw MissingOperand, sampleStore) /\
  evaluateExpression showInteger " - a " sampleInputs sampleStore
  = (Throw MissingOperand, sampleStore) /\
  exists r σ',
    evaluateExpression showInteger "-A B" sampleInputs sampleStore = (Ok [r], σ') /\
    readData σ' (data r) = Some [[-4; -4]; [-4; -4]]%float.
Proof.
  split; [reflexivity |]. split; [reflexivity |].
  destruct (leading_minus_is_a_binary_operator showInteger sampleInputs sampleStore
              "a" sampleA eq_refl eq_refl) as (Hexact & Htokens & Hmore).
  split; [exact Hexact |]. split; [apply Htokens; reflexivity |].
  destruct (Hmore sampleA sampleB sampleDataA sampleDataB eq_refl eq_refl
              sampleA_holds sampleB_holds eq_refl eq_refl sampleStore_noCollision)
    as (r & σ' & Hrun & Hread).
  exists r, σ'. split; [exact Hrun |]. rewrite Hread. reflexivity.
Defined.

(** * Further properties

    Properties of the tokenizer, the parser, the evaluator and the matrix
    primitives that hold for every input. *)

(** ** The tokenizer *)

Lemma is_space_separator c : is_space c = true -> is_separator c = true.
Proof.
  destruct c as [[] [] [] [] [] [] [] []]; vm_compute; congruence.
Qed.

Lemma step_separator st c : is_separator c = true -> step st c = (flush st, Idle).
Proof.
  unfold is_separator. rewrite !andb_true_iff, !negb_true_iff.
  intros [[[Hd Hl] Ho] Hdot].
  destruct st; simpl; unfold restart, start; rewrite ?Hd, ?Hl, ?Ho, ?Hdot; by simpl.
Qed.

Lemma scan_separator st s1 c s2 :
  is_separator c = true ->
  scan st (s1 +:+ String c s2) = scan st s1 ++ scan Idle s2.
Proof.
  intros Hc. revert st. induction s1 as [| a s1 IH]; intros st.
  - change ("" +:+ String c s2) with (String c s2). simpl.
    by rewrite step_separator.
  - change (String a s1 +:+ String c s2) with (String a (s1 +:+ String c s2)).
    simpl. destruct (step st a) as [ts st']. by rewrite IH, app_assoc.
Qed.

(** X1.  A character that is not a digit, a letter, an operator character
    or a dot (white space, for one) only separates: the tokens of a string
    that contains it are the tokens of what comes before it followed by the
    tokens of what comes after it. *)
Theorem tokenize_separator s1 c s2 :
  is_separator c = true ->
  tokenize (s1 +:+ String c s2) = tokenize s1 ++ tokenize s2.
Proof. apply scan_separator. Qed.

(** *** Every token is well formed *)

Lemma append_cons a s t : String a s +:+ t = String a (s +:+ t).
Proof. reflexivity. Qed.

Lemma snoc_cons a s c : snoc (String a s) c = String a (snoc s c).
Proof. reflexivity. Qed.

Lemma snoc_inner a t c : snoc (a +:+ t) c = a +:+ snoc t c.
Proof.
  induction a as [| x a IH]; [done |].
  rewrite !append_cons, snoc_cons. by rewrite IH.
Qed.

Lemma digits_snoc s c : digits s -> is_digit c = true -> digits (snoc s c).
Proof.
  intros [_ Hall] Hc. split; [by destruct s |].
  induction s as [| a s IH].
  - change (snoc "" c) with (String c ""). simpl. by rewrite Hc.
  - simpl in Hall. apply andb_true_iff in Hall as [Ha Hs].
    rewrite snoc_cons. simpl. rewrite Ha. by apply IH.
Qed.

Lemma identifier_snoc s c :
  is_identifier s = true -> is_letter c = true -> is_identifier (snoc s c) = true.
Proof.
  unfold is_identifier. intros [_ Hall]%andb_true_iff Hc.
  apply andb_true_iff. split; [by destruct s |].
  induction s as [| a s IH].
  - change (snoc "" c) with (String c ""). simpl. by rewrite Hc.
  - simpl in Hall. apply andb_true_iff in Hall as [Ha Hs].
    rewrite snoc_cons. simpl. rewrite Ha. by apply IH.
Qed.

Lemma takeDigits_append a t :
  all_digits a = true -> takeDigits (a +:+ t) = a +:+ takeDigits t.
Proof.
  induction a as [| x a IH]; [done |]. intros Hall. simpl in Hall.
  apply andb_true_iff in Hall as [Hx Ha].
  change (String x a +:+ t) with (String x (a +:+ t)). simpl.
  by rewrite Hx, IH.
Qed.

Lemma dropDigits_append a t :
  all_digits a = true -> dropDigits (a +:+ t) = dropDigits t.
Proof.
  induction a as [| x a IH]; [done |]. intros Hall. simpl in Hall.
  apply andb_true_iff in Hall as [Hx Ha].
  change (String x a +:+ t) with (String x (a +:+ t)). simpl.
  by rewrite Hx, IH.
Qed.

Lemma numeral_digits a : digits a -> is_numeral a = true.
Proof.
  intros [Hne Hall]. unfold is_numeral.
  rewrite <- (append_empty a), takeDigits_append, dropDigits_append by done.
  simpl. rewrite append_empty, andb_true_r. apply negb_true_iff.
  by apply String.eqb_neq.
Qed.

Lemma numeral_fraction a b : digits a -> digits b -> is_numeral (a +:+ String "." b) = true.
Proof.
  intros [Hne Hall] [Hneb Hallb]. unfold is_numeral.
  rewrite takeDigits_append, dropDigits_append by done.
  simpl. rewrite append_empty, Hallb, andb_true_r.
  apply andb_true_iff. split; apply negb_true_iff; by apply String.eqb_neq.
Qed.

Lemma opToken_well_formed c : is_opchar c = true -> well_formed (opToken c) = true.
Proof.
  destruct c as [[] [] [] [] [] [] [] []]; vm_compute; congruence.
Qed.

Lemma digit_digits c : is_digit c = true -> digits (String c "").
Proof. intros Hc. split; [done |]. simpl. by rewrite Hc. Qed.

Lemma flush_well_formed st :
  lexer_ok st -> Forall (fun tok => well_formed tok = true) (flush st).
Proof.
  destruct st as [| s | s | s | s]; simpl; intros Hok; repeat constructor.
  - by apply numeral_digits.
  - by apply numeral_digits.
  - destruct Hok as (a & b & -> & Ha & Hb). by apply numeral_fraction.
  - exact Hok.
Qed.

Lemma start_well_formed c :
  Forall (fun tok => well_formed tok = true) (start c).1 /\ lexer_ok (start c).2.
Proof.
  unfold start. destruct (is_digit c) eqn:Hd; [| destruct (is_letter c) eqn:Hl;
    [| destruct (is_opchar c) eqn:Ho]]; simpl.
  - split; [constructor | by apply digit_digits].
  - split; [constructor |]. unfold is_identifier. simpl. by rewrite Hl.
  - split; [| done]. repeat constructor. by apply opToken_well_formed.
  - split; [constructor | done].
Qed.

Lemma restart_well_formed done c :
  Forall (fun tok => well_formed tok = true) done ->
  Forall (fun tok => well_formed tok = true) (restart done c).1 /\
  lexer_ok (restart done c).2.
Proof.
  intros Hdone. unfold restart. destruct (start_well_formed c) as [Hts Hst].
  destruct (start c) as [ts st]. simpl in *. split; [| done].
  by apply Forall_app.
Qed.

Lemma step_well_formed st c :
  lexer_ok st ->
  Forall (fun tok => well_formed tok = true) (step st c).1 /\ lexer_ok (step st c).2.
Proof.
  intros Hok. pose proof (flush_well_formed st Hok) as Hflush.
  destruct st as [| s | s | s | s]; simpl.
  - apply start_well_formed.
  - destruct (is_digit c) eqn:Hd; [| destruct (Ascii.eqb c ".")].
    + split; [constructor | by apply digits_snoc].
    + split; [constructor | exact Hok].
    + by apply restart_well_formed.
  - destruct (is_digit c) eqn:Hd.
    + split; [constructor |]. simpl. exists s, (String c "").
      split; [| split; [exact Hok | by apply digit_digits]].
      unfold snoc at 1. by rewrite snoc_append.
    + by apply restart_well_formed.
  - destruct (is_digit c) eqn:Hd.
    + split; [constructor |]. simpl. destruct Hok as (a & b & -> & Ha & Hb).
      exists a, (snoc b c). split; [| split; [done | by apply digits_snoc]].
      by rewrite snoc_inner.
    + by apply restart_well_formed.
  - destruct (is_letter c) eqn:Hl.
    + split; [constructor | by apply identifier_snoc].
    + by apply restart_well_formed.
Qed.

Lemma scan_well_formed s st :
  lexer_ok st -> Forall (fun tok => well_formed tok = true) (scan st s).
Proof.
  revert st. induction s as [| c s IH]; intros st Hok; simpl.
  - by apply flush_well_formed.
  - destruct (step_well_formed st c Hok) as [Hts Hst].
    destruct (step st c) as [ts st']. apply Forall_app. split; [done |].
    by apply IH.
Qed.

(** X2.  Whatever the expression, every token the tokenizer produces is
    well formed: the lexeme of a NUMBER is a decimal numeral (digits, or
    digits, a dot and digits), the lexeme of an IDENTIFIER is a non-empty
    string of letters, an OPERATOR is one of the seven operator characters
    (the comma among them), LPAREN and RPAREN are the two parentheses, and
    no token has the type COMMA. *)
Theorem tokenize_well_formed expr :
  Forall (fun tok => well_formed tok = true) (tokenize expr).
Proof. by apply scan_well_formed. Qed.

(** ** The shunting-yard *)

Lemma popOperators_split token out stk :
  exists popped rest,
    stk = popped ++ rest /\ popOperators token out stk = (out ++ popped, rest).
Proof.
  revert out. induction stk as [| top stk IH]; intros out.
  - exists [], []. simpl. by rewrite app_nil_r.
  - simpl. destruct (_ && _ && _).
    + destruct (IH (out ++ [top])) as (popped & rest & Hstk & Hrun).
      exists (top :: popped), rest. rewrite Hrun, <- app_assoc. split; [| done].
      simpl. by rewrite Hstk.
    + exists [], (top :: stk). by rewrite app_nil_r.
Qed.

Lemma popToLParen_split out stk :
  exists popped rest,
    stk = popped ++ rest /\ popToLParen out stk = (out ++ popped, rest) /\
    (forall lp rest', rest = lp :: rest' -> type lp = LPAREN).
Proof.
  revert out. induction stk as [| top stk IH]; intros out.
  - exists [], []. simpl. by rewrite app_nil_r.
  - simpl. unfold is_type. case_bool_decide as Htop; simpl.
    + exists [], (top :: stk). rewrite app_nil_r. split; [done |]. split; [done |].
      intros lp rest' [= <- _]. exact Htop.
    + destruct (IH (out ++ [top])) as (popped & rest & Hstk & Hrun & Hrest).
      exists (top :: popped), rest. rewrite Hrun, <- app_assoc. split; [| done].
      simpl. by rewrite Hstk.
Qed.

Lemma filter_none (p : Token -> bool) l :
  Forall (fun t => p t = false) l -> List.filter p l = [].
Proof. induction 1 as [| t l Ht _ IH]; [done |]. simpl. by rewrite Ht. Qed.

(** One step of the conversion keeps the operands and operators it has
    seen, each once: in the output queue or on the operator stack. *)
Lemma rpnStep_symbols (p : Token -> bool) out stk tok :
  (forall t, p t = true -> is_symbol t = true) ->
  List.filter p ((rpnStep (out, stk) tok).1 ++ (rpnStep (out, stk) tok).2)
  ≡ₚ List.filter p (out ++ stk) ++ List.filter p [tok].
Proof.
  intros Hp.
  assert (forall t, is_symbol t = false -> p t = false) as Hother.
  { intros t Ht. destruct (p t) eqn:E; [| done]. apply Hp in E. congruence. }
  unfold rpnStep. destruct (type tok) eqn:Htype.
  - simpl. rewrite <- app_assoc, !List.filter_app, <- app_assoc.
    apply Permutation_app_head, Permutation_app_comm.
  - simpl. rewrite <- app_assoc, !List.filter_app, <- app_assoc.
    apply Permutation_app_head, Permutation_app_comm.
  - destruct (popOperators_split tok out stk) as (popped & rest & -> & ->). simpl.
    change (tok :: rest) with ([tok] ++ rest).
    rewrite <- !app_assoc, !List.filter_app, <- !app_assoc.
    do 2 apply Permutation_app_head. apply Permutation_app_comm.
  - assert (p tok = false) as Htok.
    { apply Hother. unfold is_symbol, is_operand, is_type. by rewrite Htype. }
    simpl. change (tok :: stk) with ([tok] ++ stk).
    rewrite !List.filter_app. simpl. rewrite Htok. simpl. by rewrite app_nil_r.
  - assert (p tok = false) as Htok.
    { apply Hother. unfold is_symbol, is_operand, is_type. by rewrite Htype. }
    destruct (popToLParen_split out stk) as (popped & rest & -> & -> & Hrest).
    simpl. rewrite Htok, app_nil_r, <- app_assoc, !List.filter_app.
    do 2 apply Permutation_app_head.
    destruct rest as [| lp rest']; [done |]. simpl.
    rewrite (Hother lp); [done |].
    unfold is_symbol, is_operand, is_type. by rewrite (Hrest lp rest').
  - assert (p tok = false) as Htok.
    { apply Hother. unfold is_symbol, is_operand, is_type. by rewrite Htype. }
    simpl. by rewrite Htok, app_nil_r.
Qed.

Lemma rpnLoop_symbols (p : Token -> bool) tokens st :
  (forall t, p t = true -> is_symbol t = true) ->
  List.filter p ((foldl rpnStep st tokens).1 ++ (foldl rpnStep st tokens).2)
  ≡ₚ List.filter p (st.1 ++ st.2) ++ List.filter p tokens.
Proof.
  intros Hp. revert st. induction tokens as [| tok tokens IH]; intros st.
  - simpl. by rewrite app_nil_r.
  - cbn [foldl]. rewrite IH. destruct st as [out stk].
    rewrite rpnStep_symbols by done.
    change (tok :: tokens) with ([tok] ++ tokens).
    by rewrite (List.filter_app p [tok]), app_assoc.
Qed.

Lemma toRPN_symbols (p : Token -> bool) tokens :
  (forall t, p t = true -> is_symbol t = true) ->
  List.filter p (toRPN tokens) ≡ₚ List.filter p tokens.
Proof.
  intros Hp. pose proof (rpnLoop_symbols p tokens ([], []) Hp) as Hloop.
  unfold toRPN. by destruct (foldl rpnStep ([], []) tokens).
Qed.

Lemma rpnStep_no_rparen out stk tok :
  Forall (fun t => type t <> RPAREN /\ type t <> COMMA) (out ++ stk) ->
  Forall (fun t => type t <> RPAREN /\ type t <> COMMA)
         ((rpnStep (out, stk) tok).1 ++ (rpnStep (out, stk) tok).2).
Proof.
  intros Hall. unfold rpnStep. destruct (type tok) eqn:Htype.
  - simpl. rewrite <- app_assoc. apply Forall_app in Hall as [Hout Hstk].
    apply Forall_app. split; [done |]. constructor; [| done]. by rewrite Htype.
  - simpl. rewrite <- app_assoc. apply Forall_app in Hall as [Hout Hstk].
    apply Forall_app. split; [done |]. constructor; [| done]. by rewrite Htype.
  - destruct (popOperators_split tok out stk) as (popped & rest & -> & ->). simpl.
    rewrite <- app_assoc. rewrite !Forall_app in Hall. rewrite !Forall_app.
    destruct Hall as (? & ? & ?). repeat split; try done.
    constructor; [| done]. by rewrite Htype.
  - simpl. apply Forall_app in Hall as [Hout Hstk].
    apply Forall_app. split; [done |]. constructor; [| done]. by rewrite Htype.
  - destruct (popToLParen_split out stk) as (popped & rest & -> & -> & _). simpl.
    rewrite <- app_assoc. rewrite !Forall_app in Hall. rewrite !Forall_app.
    destruct Hall as (? & ? & Hrest). repeat split; try done.
    destruct rest as [| lp rest']; [done |]. simpl. by apply Forall_cons in Hrest as [_ ?].
  - done.
Qed.

(** Every token of the postfix order is a token of the input. *)
Lemma rpnStep_Forall (P : Token -> Prop) out stk tok :
  Forall P (out ++ stk) -> P tok ->
  Forall P ((rpnStep (out, stk) tok).1 ++ (rpnStep (out, stk) tok).2).
Proof.
  intros Hall Htok. unfold rpnStep. destruct (type tok).
  - simpl. rewrite <- app_assoc. apply Forall_app in Hall as [Hout Hstk].
    apply Forall_app. split; [done |]. by constructor.
  - simpl. rewrite <- app_assoc. apply Forall_app in Hall as [Hout Hstk].
    apply Forall_app. split; [done |]. by constructor.
  - destruct (popOperators_split tok out stk) as (popped & rest & -> & ->). simpl.
    rewrite <- app_assoc. rewrite !Forall_app in Hall. rewrite !Forall_app.
    destruct Hall as (? & ? & ?). repeat split; try done. by constructor.
  - simpl. apply Forall_app in Hall as [Hout Hstk].
    apply Forall_app. split; [done |]. by constructor.
  - destruct (popToLParen_split out stk) as (popped & rest & -> & -> & _). simpl.
    rewrite <- app_assoc. rewrite !Forall_app in Hall. rewrite !Forall_app.
    destruct Hall as (? & ? & Hrest). repeat split; try done.
    destruct rest as [| lp rest']; [done |]. simpl. by apply Forall_cons in Hrest as [_ ?].
  - done.
Qed.

Lemma toRPN_Forall (P : Token -> Prop) tokens :
  Forall P tokens -> Forall P (toRPN tokens).
Proof.
  intros Htokens.
  assert (forall st, Forall P (st.1 ++ st.2) ->
            Forall P ((foldl rpnStep st tokens).1 ++ (foldl rpnStep st tokens).2))
    as Hloop.
  { induction Htokens as [| tok tokens Htok _ IH]; intros st Hst; [done |].
    cbn [foldl]. apply IH. destruct st as [out stk]. by apply rpnStep_Forall. }
  specialize (Hloop ([], []) (Forall_nil_2 _)).
  unfold toRPN. by destruct (foldl rpnStep ([], []) tokens).
Qed.

(** X3.  The conversion to postfix order loses and duplicates nothing but
    parentheses: the numbers, identifiers and operators of its output are
    those of its input, each as many times; and its output contains no
    right parenthesis. *)
Theorem toRPN_keeps_every_symbol tokens :
  List.filter is_symbol (toRPN tokens) ≡ₚ List.filter is_symbol tokens /\
  Forall (fun tok => type tok <> RPAREN /\ type tok <> COMMA) (toRPN tokens).
Proof.
  split; [by apply toRPN_symbols |].
  assert (forall st,
            Forall (fun t => type t <> RPAREN /\ type t <> COMMA) (st.1 ++ st.2) ->
            Forall (fun t => type t <> RPAREN /\ type t <> COMMA)
                   ((foldl rpnStep st tokens).1 ++ (foldl rpnStep st tokens).2)) as Hloop.
  { induction tokens as [| tok tokens IH]; intros st Hst; [done |].
    cbn [foldl]. apply IH. destruct st as [out stk]. by apply rpnStep_no_rparen. }
  specialize (Hloop ([], []) (Forall_nil_2 _)).
  unfold toRPN. by destruct (foldl rpnStep ([], []) tokens).
Qed.

Lemma rpnStep_operands out stk tok :
  Forall (fun t => is_operand t = false) stk ->
  List.filter is_operand (rpnStep (out, stk) tok).1
  = List.filter is_operand out ++ List.filter is_operand [tok] /\
  Forall (fun t => is_operand t = false) (rpnStep (out, stk) tok).2.
Proof.
  intros Hstk. unfold rpnStep. destruct (type tok) eqn:Htype.
  - simpl. by rewrite List.filter_app.
  - simpl. by rewrite List.filter_app.
  - assert (is_operand tok = false) as Htok
      by (unfold is_operand, is_type; by rewrite Htype).
    destruct (popOperators_split tok out stk) as (popped & rest & -> & ->). simpl.
    apply Forall_app in Hstk as [Hpopped Hrest].
    rewrite List.filter_app, Htok, (filter_none _ popped) by done.
    split; [done |]. by constructor.
  - assert (is_operand tok = false) as Htok
      by (unfold is_operand, is_type; by rewrite Htype).
    simpl. rewrite Htok, app_nil_r. split; [done |]. by constructor.
  - assert (is_operand tok = false) as Htok
      by (unfold is_operand, is_type; by rewrite Htype).
    destruct (popToLParen_split out stk) as (popped & rest & -> & -> & _). simpl.
    apply Forall_app in Hstk as [Hpopped Hrest].
    rewrite List.filter_app, Htok, (filter_none _ popped) by done.
    split; [done |]. destruct rest as [| lp rest']; [done |].
    by apply Forall_cons in Hrest as [_ ?].
  - assert (is_operand tok = false) as Htok
      by (unfold is_operand, is_type; by rewrite Htype).
    simpl. rewrite Htok, app_nil_r. by split.
Qed.

(** X4.  The conversion to postfix order keeps the operands in the order
    of the expression: the numbers and identifiers of its output, read
    from left to right, are those of its input. *)
Theorem toRPN_keeps_operand_order tokens :
  List.filter is_operand (toRPN tokens) = List.filter is_operand tokens.
Proof.
  assert (forall st,
            Forall (fun t => is_operand t = false) st.2 ->
            List.filter is_operand (foldl rpnStep st tokens).1
            = List.filter is_operand st.1 ++ List.filter is_operand tokens /\
            Forall (fun t => is_operand t = false) (foldl rpnStep st tokens).2) as Hloop.
  { induction tokens as [| tok tokens IH]; intros st Hst.
    - simpl. by rewrite app_nil_r.
    - cbn [foldl]. destruct st as [out stk].
      destruct (rpnStep_operands out stk tok Hst) as [Hout Hstk].
      destruct (IH _ Hstk) as [Hout' Hstk']. split; [| done].
      rewrite Hout', Hout. change (tok :: tokens) with ([tok] ++ tokens).
      by rewrite (List.filter_app _ [tok]), app_assoc. }
  destruct (Hloop ([], []) (Forall_nil_2 _)) as [Hout Hstk].
  unfold toRPN. destruct (foldl rpnStep ([], []) tokens) as [out stk].
  simpl in *. by rewrite List.filter_app, (filter_none _ stk), app_nil_r.
Qed.

(** ** The evaluator at its limits *)

Lemma trim_spaces s : all_spaces s = true -> trim s = "".
Proof.
  intros Hs. unfold trim. assert (trimStart s = "") as ->; [| done].
  induction s as [| c s IH]; [done |]. simpl in *.
  apply andb_true_iff in Hs as [-> Hs]. by apply IH.
Qed.

Lemma letter_not_space c : is_letter c = true -> is_space c = false.
Proof.
  destruct c as [[] [] [] [] [] [] [] []]; vm_compute; congruence.
Qed.

Lemma trim_identifier ident :
  is_identifier ident = true -> String.eqb (trim ident) "" = false.
Proof.
  unfold is_identifier. intros [Hne Hall]%andb_true_iff.
  destruct ident as [| c rest]; [done |].
  simpl in Hall. apply andb_true_iff in Hall as [Hc%letter_not_space _].
  unfold trim. simpl. rewrite Hc. cbn [trimEnd]. rewrite Hc.
  by destruct (trimEnd rest).
Qed.

Lemma tokenize_identifier ident :
  is_identifier ident = true -> tokenize ident = [mkToken IDENTIFIER ident].
Proof.
  unfold is_identifier. intros [Hne Hall]%andb_true_iff.
  destruct ident as [| c rest]; [done |].
  simpl in Hall. apply andb_true_iff in Hall as [Hc Hrest].
  unfold tokenize. cbn [scan]. unfold step. rewrite (start_letter c Hc).
  cbn [app]. by rewrite scan_letters.
Qed.

Section EvaluatorProperties.

Context (numberToString : float -> string).

(** X5.  A blank expression (empty, or white space only) is rejected with
    EmptyExpression before anything else is done: whatever the supplied
    matrices, the store is left as it was. *)
Theorem blank_expression_is_rejected expression ms σ :
  all_spaces expression = true ->
  evaluateExpression numberToString expression ms σ = (Throw EmptyExpression, σ).
Proof.
  intros Hblank. unfold evaluateExpression. by rewrite trim_spaces.
Qed.

(** X6.  An expression that is a single identifier computes nothing.  If
    the identifier resolves to a matrix the evaluation succeeds with an
    empty trace, and if it does not, the evaluation fails with
    UnknownVariable, which carries the identifier as it was written; in
    both cases the store is left as it was. *)
Theorem bare_identifier_computes_nothing ident ms σ :
  is_identifier ident = true ->
  evaluateExpression numberToString ident ms σ
  = match buildMatrixMap ms !! toUpperCase ident with
    | Some _ => (Ok [], σ)
    | None => (Throw (UnknownVariable ident), σ)
    end.
Proof.
  intros Hident. unfold evaluateExpression.
  rewrite (trim_identifier _ Hident), (tokenize_identifier _ Hident).
  change (toRPN [mkToken IDENTIFIER ident]) with [mkToken IDENTIFIER ident].
  destruct (buildMatrixMap ms !! toUpperCase ident) as [m |] eqn:Hm.
  - erewrite bind_run; [| rewrite (evalLoop_identifier _ _ _ _ m) by exact Hm; done].
    done.
  - apply bind_throw. cbn [foldM]. apply bind_throw.
    unfold evalToken. simpl. by rewrite Hm.
Qed.

Lemma evaluateExpression_throw expression ms σ e σ' :
  String.eqb (trim expression) "" = false ->
  foldM (evalToken numberToString (buildMatrixMap ms)) (mkEval [] [])
        (toRPN (tokenize expression)) σ = (Throw e, σ') ->
  evaluateExpression numberToString expression ms σ = (Throw e, σ').
Proof.
  intros Hne Hrun. unfold evaluateExpression. rewrite Hne. by apply bind_throw.
Qed.

(** An operator that fails on its two operands fails the loop. *)
Lemma evalLoop_binary_throw matrixMap op a b rest trace more σ e σ' :
  String.eqb op "'" = false ->
  applyBinary numberToString op a b σ = (Throw e, σ') ->
  foldM (evalToken numberToString matrixMap) (mkEval (b :: a :: rest) trace)
        (mkToken OPERATOR op :: more) σ
  = (Throw e, σ').
Proof.
  intros Hop Hrun. cbn [foldM]. apply bind_throw.
  unfold evalToken, applyOperator. simpl. rewrite Hop. by apply bind_throw.
Qed.

(** X7.  Operands of incompatible dimensions are rejected with
    DimensionMismatch before anything is allocated, the store being left as
    it was: a sum or a difference of two matrices that differ in their
    number of rows or of columns, a product whose left factor has not as
    many columns as the right one has rows, and a power of a matrix that
    is not square, whatever the exponent. *)
Theorem incompatible_dimensions_are_rejected ms σ A B :
  buildMatrixMap ms !! "A" = Some A ->
  buildMatrixMap ms !! "B" = Some B ->
  (rows A <> rows B \/ cols A <> cols B ->
   evaluateExpression numberToString "A+B" ms σ = (Throw DimensionMismatch, σ) /\
   evaluateExpression numberToString "A-B" ms σ = (Throw DimensionMismatch, σ)) /\
  (cols A <> rows B ->
   evaluateExpression numberToString "A*B" ms σ = (Throw DimensionMismatch, σ)) /\
  (rows A <> cols A ->
   evaluateExpression numberToString "A^2" ms σ = (Throw DimensionMismatch, σ) /\
   evaluateExpression numberToString "A^0" ms σ = (Throw DimensionMismatch, σ) /\
   forall exponent,
     applyBinary numberToString "^" (Mat A) (Num exponent) σ
     = (Throw DimensionMismatch, σ)).
Proof.
  intros HA HB.
  assert (forall op, String.eqb op "'" = false ->
            applyBinary numberToString op (Mat A) (Mat B) σ = (Throw DimensionMismatch, σ) ->
            foldM (evalToken numberToString (buildMatrixMap ms)) (mkEval [] [])
                  [mkToken IDENTIFIER "A"; mkToken IDENTIFIER "B"; mkToken OPERATOR op] σ
            = (Throw DimensionMismatch, σ)) as Hloop.
  { intros op Hop Hrun.
    rewrite (evalLoop_identifier _ _ _ _ A) by exact HA.
    rewrite (evalLoop_identifier _ _ _ _ B) by exact HB.
    by apply evalLoop_binary_throw. }
  assert (rows A <> cols A ->
          forall exponent,
            applyBinary numberToString "^" (Mat A) (Num exponent) σ
            = (Throw DimensionMismatch, σ)) as Hcaret.
  { intros Hsq%Nat.eqb_neq exponent.
    unfold applyBinary. simpl. apply bind_throw. unfold powerMatrix.
    by rewrite Hsq. }
  assert (forall lexeme, rows A <> cols A ->
            foldM (evalToken numberToString (buildMatrixMap ms)) (mkEval [] [])
                  [mkToken IDENTIFIER "A"; mkToken NUMBER lexeme; mkToken OPERATOR "^"] σ
            = (Throw DimensionMismatch, σ)) as Hpower.
  { intros lexeme Hsq.
    rewrite (evalLoop_identifier _ _ _ _ A) by exact HA.
    rewrite evalLoop_number. apply evalLoop_binary_throw; [done |].
    by apply Hcaret. }
  split; [| split].
  - intros Hdim.
    assert (negb (rows A =? rows B) || negb (cols A =? cols B) = true) as Hcheck.
    { apply orb_true_iff. rewrite !negb_true_iff, !Nat.eqb_neq. exact Hdim. }
    split; apply evaluateExpression_throw; try done; apply Hloop; try done.
    + change (applyBinary numberToString "+" (Mat A) (Mat B))
        with (genericAdd (Mat A) (Mat B)).
      unfold genericAdd. by rewrite Hcheck.
    + change (applyBinary numberToString "-" (Mat A) (Mat B))
        with (genericSubtract (Mat A) (Mat B)).
      unfold genericSubtract. by rewrite Hcheck.
  - intros Hdim%Nat.eqb_neq. apply evaluateExpression_throw; [done |].
    apply Hloop; [done |].
    change (applyBinary numberToString "*" (Mat A) (Mat B))
      with (genericMultiply numberToString (Mat A) (Mat B)).
    unfold genericMultiply. by rewrite Hdim.
  - intros Hsq. split; [| split; [| by apply Hcaret]];
      apply evaluateExpression_throw; try done; by apply Hpower.
Qed.

(** X8.  The engine has no division and no comma operator, although the
    tokenizer and the parser accept both characters: applied to two
    operands, matrices or numbers, either one fails with UnknownOperator,
    which carries the character. *)
Theorem division_and_comma_are_unknown ms σ A B :
  buildMatrixMap ms !! "A" = Some A ->
  buildMatrixMap ms !! "B" = Some B ->
  evaluateExpression numberToString "A/B" ms σ = (Throw (UnknownOperator "/"), σ) /\
  evaluateExpression numberToString "A,B" ms σ = (Throw (UnknownOperator ","), σ) /\
  evaluateExpression numberToString "6/3" ms σ = (Throw (UnknownOperator "/"), σ) /\
  forall a b, applyBinary numberToString "/" a b σ = (Throw (UnknownOperator "/"), σ).
Proof.
  intros HA HB. split; [| split; [| split]].
  - apply evaluateExpression_throw; [done |].
    change (toRPN (tokenize "A/B"))
      with [mkToken IDENTIFIER "A"; mkToken IDENTIFIER "B"; mkToken OPERATOR "/"].
    rewrite (evalLoop_identifier _ _ _ _ A) by exact HA.
    rewrite (evalLoop_identifier _ _ _ _ B) by exact HB.
    by apply evalLoop_binary_throw.
  - apply evaluateExpression_throw; [done |].
    change (toRPN (tokenize "A,B"))
      with [mkToken IDENTIFIER "A"; mkToken IDENTIFIER "B"; mkToken OPERATOR ","].
    rewrite (evalLoop_identifier _ _ _ _ A) by exact HA.
    rewrite (evalLoop_identifier _ _ _ _ B) by exact HB.
    by apply evalLoop_binary_throw.
  - apply evaluateExpression_throw; [done |].
    change (toRPN (tokenize "6/3"))
      with [mkToken NUMBER "6"; mkToken NUMBER "3"; mkToken OPERATOR "/"].
    rewrite !evalLoop_number. by apply evalLoop_binary_throw.
  - done.
Qed.

(** *** What the trace holds *)

Lemma nothing_new {X} (P : X -> Prop) (l : list X) n :
  exists new, l = l ++ new /\ length new <= n /\ Forall P new.
Proof.
  exists []. rewrite app_nil_r. split; [done |]. split; [simpl; lia | constructor].
Qed.

Lemma pushResult_trace matrixMap val st :
  exists new,
    executionTrace (pushResult matrixMap val st) = executionTrace st ++ new /\
    length new <= 1 /\ Forall (fun t => isInput matrixMap t = false) new.
Proof.
  destruct val as [x | m]; simpl.
  - apply nothing_new.
  - destruct (isInput matrixMap m) eqn:Hin.
    + apply nothing_new.
    + exists [m]. split; [done |]. split; [done |]. by repeat constructor.
Qed.

Lemma evalToken_trace matrixMap st token σ st' σ' :
  evalToken numberToString matrixMap st token σ = (Ok st', σ') ->
  exists new,
    executionTrace st' = executionTrace st ++ new /\
    length new <= length (List.filter (is_type OPERATOR) [token]) /\
    Forall (fun t => isInput matrixMap t = false) new.
Proof.
  pose proof (nothing_new (fun t => isInput matrixMap t = false) (executionTrace st) 0)
    as Hsame.
  unfold evalToken. simpl. unfold is_type.
  destruct (type token) eqn:Htype; simpl.
  - intros [= <- _]. exact Hsame.
  - destruct (matrixMap !! toUpperCase (value token)); [| done].
    intros [= <- _]. exact Hsame.
  - unfold applyOperator, bind.
    destruct (String.eqb (value token) "'").
    + destruct (stack st) as [| [x | a] rest]; try done.
      destruct (transposeMatrix a σ) as [[r | e] σ1]; [| done].
      intros [= <- _].
      apply (pushResult_trace matrixMap (Mat r) (mkEval rest (executionTrace st))).
    + destruct (stack st) as [| b [| a rest]]; try done.
      destruct (applyBinary numberToString (value token) a b σ) as [[v | e] σ1];
        [| done].
      intros [= <- _].
      apply (pushResult_trace matrixMap v (mkEval rest (executionTrace st))).
  - intros [= <- _]. exact Hsame.
  - intros [= <- _]. exact Hsame.
  - intros [= <- _]. exact Hsame.
Qed.

Lemma evalLoop_trace matrixMap rpn st σ st' σ' :
  foldM (evalToken numberToString matrixMap) st rpn σ = (Ok st', σ') ->
  exists new,
    executionTrace st' = executionTrace st ++ new /\
    length new <= length (List.filter (is_type OPERATOR) rpn) /\
    Forall (fun t => isInput matrixMap t = false) new.
Proof.
  revert st σ. induction rpn as [| token rpn IH]; intros st σ.
  - intros [= <- _]. apply nothing_new.
  - cbn [foldM]. unfold bind at 1.
    destruct (evalToken numberToString matrixMap st token σ) as [[st1 | e] σ1] eqn:Hstep;
      [| done].
    intros Hrest. apply evalToken_trace in Hstep as (new1 & Heq1 & Hlen1 & Hall1).
    apply IH in Hrest as (new2 & Heq2 & Hlen2 & Hall2).
    exists (new1 ++ new2). rewrite Heq2, Heq1, <- app_assoc. split; [done |].
    split; [| by apply Forall_app].
    change (token :: rpn) with ([token] ++ rpn).
    rewrite List.filter_app, !length_app. lia.
Qed.

Lemma evaluateExpression_loop expression ms σ trace σ' :
  evaluateExpression numberToString expression ms σ = (Ok trace, σ') ->
  exists st,
    foldM (evalToken numberToString (buildMatrixMap ms)) (mkEval [] [])
          (toRPN (tokenize expression)) σ = (Ok st, σ') /\
    executionTrace st = trace.
Proof.
  unfold evaluateExpression. destruct (String.eqb (trim expression) ""); [done |].
  unfold bind.
  destruct (foldM _ _ _ σ) as [[st | e] σ1]; [| done].
  destruct (stack st) as [| [x | m] [| ? ?]]; try done.
  intros [= <- <-]. by exists st.
Qed.

(** X9.  The trace of a successful evaluation never holds a matrix that
    has the identifier of a matrix an identifier can resolve to: the
    supplied matrices are not part of the trace, even when they are the
    result of the expression. *)
Theorem trace_excludes_the_inputs expression ms σ trace σ' :
  evaluateExpression numberToString expression ms σ = (Ok trace, σ') ->
  forall t key m, t ∈ trace -> buildMatrixMap ms !! key = Some m -> id m <> id t.
Proof.
  intros (st & Hloop & <-)%evaluateExpression_loop t key m Ht Hm Hid.
  apply evalLoop_trace in Hloop as (new & Heq & _ & Hall).
  simpl in Heq. rewrite Heq in Ht.
  eapply Forall_forall in Hall; [| exact Ht].
  unfold isInput in Hall. apply bool_decide_eq_false in Hall.
  apply Hall. exists key, m. by split.
Qed.

(** X10.  The trace of a successful evaluation has at most one matrix for
    each operator of the expression: numbers, identifiers and parentheses
    add nothing to it, and an operator adds at most its result. *)
Theorem trace_is_bounded_by_the_operators expression ms σ trace σ' :
  evaluateExpression numberToString expression ms σ = (Ok trace, σ') ->
  length trace <= length (List.filter (is_type OPERATOR) (tokenize expression)).
Proof.
  intros (st & Hloop & <-)%evaluateExpression_loop.
  apply evalLoop_trace in Hloop as (new & Heq & Hlen & _).
  simpl in Heq. rewrite Heq.
  rewrite <- (Permutation_length
                (toRPN_symbols (is_type OPERATOR) (tokenize expression)
                   ltac:(intros t Ht; unfold is_symbol; by rewrite Ht, orb_true_r))).
  exact Hlen.
Qed.

(** *** Failures on well-formed inputs *)

Lemma hoare_both {A} (P : state -> Prop) (m : M A) Q1 Q2 :
  hoare P m Q1 -> hoare P m Q2 -> hoare P m (fun r σ => Q1 r σ /\ Q2 r σ).
Proof. intros H1 H2 σ HP. split; [by apply H1 | by apply H2]. Qed.

Lemma wrap_specified σ (m : M Matrix) (Φ : Matrix -> state -> Prop) :
  hoare (eq σ) m (returns Φ) -> hoare (eq σ) (r <- m ; ret (Mat r)) specified.
Proof.
  intros Hm. eapply hoare_bind_returns; [exact Hm |]. intros r. by apply hoare_ret.
Qed.

(** Every binary operator but [^], on operands that are well formed. *)
Lemma applyBinary_specified σ op a b :
  String.eqb op "^" = false ->
  wfOperand σ a -> wfOperand σ b ->
  hoare (eq σ) (applyBinary numberToString op a b) specified.
Proof.
  intros Hop Ha Hb. unfold applyBinary. rewrite Hop.
  destruct (String.eqb op "+"); [| destruct (String.eqb op "-");
    [| destruct (String.eqb op "*")]].
  - destruct a as [x | mA], b as [y | mB]; unfold genericAdd; try (by intros ? <-).
    destruct Ha as [dA HA], Hb as [dB HB].
    destruct (Nat.eqb_spec (rows mA) (rows mB)) as [Hr | ?]; simpl; [| by intros ? <-].
    destruct (Nat.eqb_spec (cols mA) (cols mB)) as [Hc | ?]; simpl; [| by intros ? <-].
    eapply wrap_specified. by apply (addMatrices_spec σ mA mB dA dB).
  - destruct a as [x | mA], b as [y | mB]; unfold genericSubtract; try (by intros ? <-).
    destruct Ha as [dA HA], Hb as [dB HB].
    destruct (Nat.eqb_spec (rows mA) (rows mB)) as [Hr | ?]; simpl; [| by intros ? <-].
    destruct (Nat.eqb_spec (cols mA) (cols mB)) as [Hc | ?]; simpl; [| by intros ? <-].
    eapply wrap_specified. by apply (subtractMatrices_spec σ mA mB dA dB).
  - destruct a as [x | mA], b as [y | mB]; unfold genericMultiply.
    + by intros ? <-.
    + destruct Hb as [dB HB]. eapply wrap_specified. by apply scalarOperation_produces.
    + destruct Ha as [dA HA]. eapply wrap_specified. by apply scalarOperation_produces.
    + destruct Ha as [dA HA], Hb as [dB HB].
      destruct (Nat.eqb_spec (cols mA) (rows mB)) as [Hdim | ?]; simpl; [| by intros ? <-].
      eapply wrap_specified. by apply (multiplyTwoMatrices_spec σ mA mB dA dB).
  - by intros ? <-.
Qed.

Lemma evalToken_specified matrixMap st token :
  String.eqb (value token) "^" = false ->
  hoare (evalInv matrixMap st) (evalToken numberToString matrixMap st token) specified.
Proof.
  intros Hop. apply hoare_pointwise. intros σ (Hmap & Hstack & Htrace).
  unfold evalToken. destruct (type token); try (by intros ? <-).
  - destruct (matrixMap !! toUpperCase (value token)) as [mat |]; by intros ? <-.
  - unfold applyOperator. destruct (String.eqb (value token) "'").
    + destruct (stack st) as [| [x | a] rest] eqn:Hst; try (by intros ? <-).
      apply Forall_cons in Hstack as [[d Ha] Hrest].
      eapply hoare_bind_returns; [by apply (transposeMatrix_spec σ a d) |].
      intros r. by apply hoare_ret.
    + destruct (stack st) as [| b [| a rest]] eqn:Hst; try (by intros ? <-).
      apply Forall_cons in Hstack as [Hb Hstack].
      apply Forall_cons in Hstack as [Ha Hrest].
      eapply hoare_bind; [by apply applyBinary_specified | | done].
      intros v. by apply hoare_ret.
Qed.

Lemma evalLoop_specified matrixMap rpn st :
  Forall (fun tok => String.eqb (value tok) "^" = false) rpn ->
  hoare (evalInv matrixMap st) (foldM (evalToken numberToString matrixMap) st rpn)
        specified.
Proof.
  intros Hrpn. revert st. induction Hrpn as [| token rpn Htoken _ IH]; intros st.
  - by apply hoare_ret.
  - simpl. eapply hoare_bind.
    + apply hoare_both; [apply evalToken_safe | by apply evalToken_specified].
    + intros st1. eapply hoare_conseq; [apply IH | | done].
      intros σ [Hinv _]. exact Hinv.
    + by intros e σ [_ He].
Qed.

(** X11.  When every supplied matrix satisfies the shape invariant and the
    expression takes no power (it has no [^]), an evaluation that fails
    fails with one of the eleven errors the engine throws on purpose: it
    never reads through a missing row or a missing array, whatever the
    expression. *)
Theorem well_formed_inputs_fail_as_specified expression ms σ e σ' :
  (forall m, m ∈ ms -> wfMatrix σ m) ->
  Forall (fun tok => String.eqb (value tok) "^" = false) (tokenize expression) ->
  evaluateExpression numberToString expression ms σ = (Throw e, σ') ->
  engineError e = true.
Proof.
  intros Hms Hcaret Hrun.
  assert (hoare (eq σ) (evaluateExpression numberToString expression ms) specified)
    as Hspec.
  { unfold evaluateExpression.
    destruct (String.eqb (trim expression) ""); [by intros ? <- |].
    eapply hoare_bind.
    - eapply hoare_conseq;
        [apply evalLoop_specified, toRPN_Forall, Hcaret | | intros r σ1 H; exact H].
      intros ? <-. split; [| by split].
      intros k m Hm. apply Hms. by eapply buildMatrixMap_values.
    - intros st. destruct (stack st) as [| [x | m] [| ? ?]]; by intros ? ?.
    - done. }
  specialize (Hspec σ eq_refl). by rewrite Hrun in Hspec.
Qed.

(** *** The order of the operations *)

(** One pass of the loop over a binary operator whose two operands are
    matrices of compatible dimensions. *)
Lemma evalLoop_sum ms σ A B dA dB rest trace more :
  holds σ A dA -> holds σ B dB -> rows A = rows B -> cols A = cols B ->
  noCollision σ ms ->
  exists r σ',
    produces σ (rows A) (cols A) (addData (rows A) (cols A) dA dB) r σ' /\
    foldM (evalToken numberToString (buildMatrixMap ms))
          (mkEval (Mat B :: Mat A :: rest) trace) (mkToken OPERATOR "+" :: more) σ
    = foldM (evalToken numberToString (buildMatrixMap ms))
            (mkEval (Mat r :: rest) (trace ++ [r])) more σ'.
Proof.
  intros HA HB Hr Hc Hfresh.
  destruct (hoare_run _ _ _ (addMatrices_spec σ A B dA dB HA HB Hr Hc))
    as (r & σ' & Hrun & Hprod).
  exists r, σ'. split; [exact Hprod |].
  destruct Hprod as (_ & _ & _ & _ & k & Hk & Hid).
  erewrite evalLoop_operator; [done |].
  apply (applyOperator_binary _ ms σ "+" (Mat A) (Mat B) rest trace r σ' k); try done.
  change (applyBinary numberToString "+" (Mat A) (Mat B))
    with (genericAdd (Mat A) (Mat B)).
  unfold genericAdd.
  assert (negb (rows A =? rows B) || negb (cols A =? cols B) = false) as ->
    by (by rewrite Hr, Hc, !Nat.eqb_refl).
  by rewrite (bind_run _ _ _ _ _ Hrun).
Qed.

Lemma evalLoop_difference ms σ A B dA dB rest trace more :
  holds σ A dA -> holds σ B dB -> rows A = rows B -> cols A = cols B ->
  noCollision σ ms ->
  exists r σ',
    produces σ (rows A) (cols A) (subtractData (rows A) (cols A) dA dB) r σ' /\
    foldM (evalToken numberToString (buildMatrixMap ms))
          (mkEval (Mat B :: Mat A :: rest) trace) (mkToken OPERATOR "-" :: more) σ
    = foldM (evalToken numberToString (buildMatrixMap ms))
            (mkEval (Mat r :: rest) (trace ++ [r])) more σ'.
Proof.
  intros HA HB Hr Hc Hfresh.
  destruct (hoare_run _ _ _ (subtractMatrices_spec σ A B dA dB HA HB Hr Hc))
    as (r & σ' & Hrun & Hprod).
  exists r, σ'. split; [exact Hprod |].
  destruct Hprod as (_ & _ & _ & _ & k & Hk & Hid).
  erewrite evalLoop_operator; [done |].
  apply (applyOperator_binary _ ms σ "-" (Mat A) (Mat B) rest trace r σ' k); try done.
  change (applyBinary numberToString "-" (Mat A) (Mat B))
    with (genericSubtract (Mat A) (Mat B)).
  unfold genericSubtract.
  assert (negb (rows A =? rows B) || negb (cols A =? cols B) = false) as ->
    by (by rewrite Hr, Hc, !Nat.eqb_refl).
  by rewrite (bind_run _ _ _ _ _ Hrun).
Qed.

Lemma evalLoop_product ms σ A B dA dB rest trace more :
  holds σ A dA -> holds σ B dB -> cols A = rows B ->
  noCollision σ ms ->
  exists r σ',
    produces σ (rows A) (cols B) (multiplyData (rows A) (cols A) (cols B) dA dB) r σ' /\
    foldM (evalToken numberToString (buildMatrixMap ms))
          (mkEval (Mat B :: Mat A :: rest) trace) (mkToken OPERATOR "*" :: more) σ
    = foldM (evalToken numberToString (buildMatrixMap ms))
            (mkEval (Mat r :: rest) (trace ++ [r])) more σ'.
Proof.
  intros HA HB Hdim Hfresh.
  destruct (hoare_run _ _ _ (multiplyTwoMatrices_spec σ A B dA dB HA HB Hdim))
    as (r & σ' & Hrun & Hprod).
  exists r, σ'. split; [exact Hprod |].
  destruct Hprod as (_ & _ & _ & _ & k & Hk & Hid).
  erewrite evalLoop_operator; [done |].
  apply (applyOperator_binary _ ms σ "*" (Mat A) (Mat B) rest trace r σ' k); try done.
  change (applyBinary numberToString "*" (Mat A) (Mat B))
    with (genericMultiply numberToString (Mat A) (Mat B)).
  unfold genericMultiply.
  assert (negb (cols A =? rows B) = false) as -> by (by rewrite Hdim, Nat.eqb_refl).
  by rewrite (bind_run _ _ _ _ _ Hrun).
Qed.

(** X12.  A binary operator takes its operands in the order of the
    expression: for matrices of compatible dimensions, "A-B" evaluates to
    one matrix, [A] minus [B] cell by cell, and "A*B" to one matrix, the
    row-by-column product of [A] by [B], of the rows of [A] and the
    columns of [B]. *)
Theorem operands_are_taken_in_order ms σ A B dA dB :
  buildMatrixMap ms !! "A" = Some A ->
  buildMatrixMap ms !! "B" = Some B ->
  holds σ A dA -> holds σ B dB -> noCollision σ ms ->
  (rows A = rows B -> cols A = cols B ->
   exists r σ',
     evaluateExpression numberToString "A-B" ms σ = (Ok [r], σ') /\
     readData σ' (data r) = Some (subtractData (rows A) (cols A) dA dB) /\
     rows r = rows A /\ cols r = cols A) /\
  (cols A = rows B ->
   exists r σ',
     evaluateExpression numberToString "A*B" ms σ = (Ok [r], σ') /\
     readData σ' (data r) = Some (multiplyData (rows A) (cols A) (cols B) dA dB) /\
     rows r = rows A /\ cols r = cols B).
Proof.
  intros HA HB HdA HdB Hfresh. split.
  - intros Hr Hc.
    destruct (evalLoop_difference ms σ A B dA dB [] [] [] HdA HdB Hr Hc Hfresh)
      as (r & σ' & (_ & [Hread _] & Hrows & Hcols & _) & Hloop).
    exists r, σ'. split; [| done].
    apply evaluateExpression_run with (st := mkEval [Mat r] [r]) (m := r);
      [done | | done].
    change (toRPN (tokenize "A-B"))
      with [mkToken IDENTIFIER "A"; mkToken IDENTIFIER "B"; mkToken OPERATOR "-"].
    rewrite (evalLoop_identifier _ _ _ _ A) by exact HA.
    rewrite (evalLoop_identifier _ _ _ _ B) by exact HB.
    exact Hloop.
  - intros Hdim.
    destruct (evalLoop_product ms σ A B dA dB [] [] [] HdA HdB Hdim Hfresh)
      as (r & σ' & (_ & [Hread _] & Hrows & Hcols & _) & Hloop).
    exists r, σ'. split; [| done].
    apply evaluateExpression_run with (st := mkEval [Mat r] [r]) (m := r);
      [done | | done].
    change (toRPN (tokenize "A*B"))
      with [mkToken IDENTIFIER "A"; mkToken IDENTIFIER "B"; mkToken OPERATOR "*"].
    rewrite (evalLoop_identifier _ _ _ _ A) by exact HA.
    rewrite (evalLoop_identifier _ _ _ _ B) by exact HB.
    exact Hloop.
Qed.

(** X13.  Precedence, parentheses and associativity decide what is
    computed, and the trace lists the intermediate matrices in the order
    of their computation.  For matrices of compatible dimensions,
    "A+B*C" computes the product [B·C], then its sum with [A];
    "(A+B)*C" computes the sum [A+B], then its product by [C]; and
    "A-B-C" computes [A-B], then subtracts [C] from it. *)
Theorem order_of_operations ms σ A B C dA dB dC :
  buildMatrixMap ms !! "A" = Some A ->
  buildMatrixMap ms !! "B" = Some B ->
  buildMatrixMap ms !! "C" = Some C ->
  holds σ A dA -> holds σ B dB -> holds σ C dC -> noCollision σ ms ->
  (cols B = rows C -> rows A = rows B -> cols A = cols C ->
   exists p s σ',
     evaluateExpression numberToString "A+B*C" ms σ = (Ok [p; s], σ') /\
     readData σ' (data p) = Some (multiplyData (rows B) (cols B) (cols C) dB dC) /\
     readData σ' (data s)
     = Some (addData (rows A) (cols A) dA
               (multiplyData (rows B) (cols B) (cols C) dB dC))) /\
  (rows A = rows B -> cols A = cols B -> cols A = rows C ->
   exists s p σ',
     evaluateExpression numberToString "(A+B)*C" ms σ = (Ok [s; p], σ') /\
     readData σ' (data s) = Some (addData (rows A) (cols A) dA dB) /\
     readData σ' (data p)
     = Some (multiplyData (rows A) (cols A) (cols C)
               (addData (rows A) (cols A) dA dB) dC)) /\
  (rows A = rows B -> cols A = cols B -> rows A = rows C -> cols A = cols C ->
   exists d1 d2 σ',
     evaluateExpression numberToString "A-B-C" ms σ = (Ok [d1; d2], σ') /\
     readData σ' (data d1) = Some (subtractData (rows A) (cols A) dA dB) /\
     readData σ' (data d2)
     = Some (subtractData (rows A) (cols A)
               (subtractData (rows A) (cols A) dA dB) dC)).
Proof.
  intros HA HB HC HdA HdB HdC Hfresh. split; [| split].
  - intros Hinner Hr Hc.
    destruct (evalLoop_product ms σ B C dB dC [Mat A] [] [mkToken OPERATOR "+"]
                HdB HdC Hinner Hfresh)
      as (p & σ1 & (Hext1 & Hp & Hprows & Hpcols & _) & Hloop1).
    destruct (evalLoop_sum ms σ1 A p dA _ [] [p] []
                (holds_mono _ _ _ _ Hext1 HdA) Hp
                ltac:(congruence) ltac:(congruence)
                (noCollision_mono _ _ _ Hext1 Hfresh))
      as (s & σ2 & (Hext2 & [Hs _] & _) & Hloop2).
    exists p, s, σ2. split; [| split; [| done]].
    + apply evaluateExpression_run with (st := mkEval [Mat s] [p; s]) (m := s);
        [done | | done].
      change (toRPN (tokenize "A+B*C"))
        with [mkToken IDENTIFIER "A"; mkToken IDENTIFIER "B"; mkToken IDENTIFIER "C";
              mkToken OPERATOR "*"; mkToken OPERATOR "+"].
      rewrite (evalLoop_identifier _ _ _ _ A) by exact HA.
      rewrite (evalLoop_identifier _ _ _ _ B) by exact HB.
      rewrite (evalLoop_identifier _ _ _ _ C) by exact HC.
      simpl stack. simpl executionTrace. rewrite Hloop1. exact Hloop2.
    + eapply readData_mono; [exact Hext2 | apply Hp].
  - intros Hr Hc Hinner.
    destruct (evalLoop_sum ms σ A B dA dB [] [] [mkToken IDENTIFIER "C"; mkToken OPERATOR "*"]
                HdA HdB Hr Hc Hfresh)
      as (s & σ1 & (Hext1 & Hs & Hsrows & Hscols & _) & Hloop1).
    destruct (evalLoop_product ms σ1 s C _ dC [] [s] []
                Hs (holds_mono _ _ _ _ Hext1 HdC) ltac:(congruence)
                (noCollision_mono _ _ _ Hext1 Hfresh))
      as (p & σ2 & (Hext2 & [Hp _] & _) & Hloop2).
    exists s, p, σ2. split; [| split].
    + apply evaluateExpression_run with (st := mkEval [Mat p] [s; p]) (m := p);
        [done | | done].
      change (toRPN (tokenize "(A+B)*C"))
        with [mkToken IDENTIFIER "A"; mkToken IDENTIFIER "B"; mkToken OPERATOR "+";
              mkToken IDENTIFIER "C"; mkToken OPERATOR "*"].
      rewrite (evalLoop_identifier _ _ _ _ A) by exact HA.
      rewrite (evalLoop_identifier _ _ _ _ B) by exact HB.
      simpl stack. simpl executionTrace. rewrite Hloop1.
      rewrite (evalLoop_identifier _ _ _ _ C) by exact HC.
      exact Hloop2.
    + eapply readData_mono; [exact Hext2 | apply Hs].
    + rewrite Hp. by rewrite Hsrows, Hscols.
  - intros Hr Hc Hr' Hc'.
    destruct (evalLoop_difference ms σ A B dA dB [] []
                [mkToken IDENTIFIER "C"; mkToken OPERATOR "-"] HdA HdB Hr Hc Hfresh)
      as (d1 & σ1 & (Hext1 & Hd1 & Hd1rows & Hd1cols & _) & Hloop1).
    destruct (evalLoop_difference ms σ1 d1 C _ dC [] [d1] []
                Hd1 (holds_mono _ _ _ _ Hext1 HdC)
                ltac:(congruence) ltac:(congruence)
                (noCollision_mono _ _ _ Hext1 Hfresh))
      as (d2 & σ2 & (Hext2 & [Hd2 _] & _) & Hloop2).
    exists d1, d2, σ2. split; [| split].
    + apply evaluateExpression_run with (st := mkEval [Mat d2] [d1; d2]) (m := d2);
        [done | | done].
      change (toRPN (tokenize "A-B-C"))
        with [mkToken IDENTIFIER "A"; mkToken IDENTIFIER "B"; mkToken OPERATOR "-";
              mkToken IDENTIFIER "C"; mkToken OPERATOR "-"].
      rewrite (evalLoop_identifier _ _ _ _ A) by exact HA.
      rewrite (evalLoop_identifier _ _ _ _ B) by exact HB.
      simpl stack. simpl executionTrace. rewrite Hloop1.
      rewrite (evalLoop_identifier _ _ _ _ C) by exact HC.
      exact Hloop2.
    + eapply readData_mono; [exact Hext2 | apply Hd1].
    + rewrite Hd2. by rewrite Hd1rows, Hd1cols.
Qed.

(** X26.  Parentheses are not checked.  A left parenthesis that is never
    closed stays on the operator stack, ends up in the postfix order and is
    passed over by the evaluation loop; a right parenthesis that closes
    nothing pops the whole operator stack.  So, for matrices of the same
    dimensions, "(A+B" and "A+B)" are not errors: both evaluate,
    like "A+B", to the one matrix [A+B]. *)
Theorem unbalanced_parentheses_are_accepted ms σ A B dA dB :
  buildMatrixMap ms !! "A" = Some A ->
  buildMatrixMap ms !! "B" = Some B ->
  holds σ A dA -> holds σ B dB -> rows A = rows B -> cols A = cols B ->
  noCollision σ ms ->
  exists r σ',
    evaluateExpression numberToString "(A+B" ms σ = (Ok [r], σ') /\
    evaluateExpression numberToString "A+B)" ms σ = (Ok [r], σ') /\
    evaluateExpression numberToString "A+B" ms σ = (Ok [r], σ') /\
    readData σ' (data r) = Some (addData (rows A) (cols A) dA dB).
Proof.
  intros HA HB HdA HdB Hr Hc Hfresh.
  destruct (hoare_run _ _ _ (addMatrices_spec σ A B dA dB HdA HdB Hr Hc))
    as (r & σ' & Hrun & Hprod).
  assert (forall more,
            foldM (evalToken numberToString (buildMatrixMap ms))
                  (mkEval [Mat B; Mat A] []) (mkToken OPERATOR "+" :: more) σ
            = foldM (evalToken numberToString (buildMatrixMap ms))
                    (mkEval [Mat r] [r]) more σ') as Hloop.
  { intros more. destruct Hprod as (_ & _ & _ & _ & k & Hk & Hid).
    erewrite evalLoop_operator; [done |].
    apply (applyOperator_binary _ ms σ "+" (Mat A) (Mat B) [] [] r σ' k); try done.
    change (applyBinary numberToString "+" (Mat A) (Mat B))
      with (genericAdd (Mat A) (Mat B)).
    unfold genericAdd.
    assert (negb (rows A =? rows B) || negb (cols A =? cols B) = false) as ->
      by (by rewrite Hr, Hc, !Nat.eqb_refl).
    by rewrite (bind_run _ _ _ _ _ Hrun). }
  exists r, σ'. split; [| split; [| split; [| apply Hprod]]].
  - apply evaluateExpression_run with (st := mkEval [Mat r] [r]) (m := r);
      [done | | done].
    change (toRPN (tokenize "(A+B"))
      with [mkToken IDENTIFIER "A"; mkToken IDENTIFIER "B"; mkToken OPERATOR "+";
            mkToken LPAREN "("].
    rewrite (evalLoop_identifier _ _ _ _ A) by exact HA.
    rewrite (evalLoop_identifier _ _ _ _ B) by exact HB.
    simpl stack. simpl executionTrace. by rewrite Hloop.
  - apply evaluateExpression_run with (st := mkEval [Mat r] [r]) (m := r);
      [done | | done].
    change (toRPN (tokenize "A+B)"))
      with [mkToken IDENTIFIER "A"; mkToken IDENTIFIER "B"; mkToken OPERATOR "+"].
    rewrite (evalLoop_identifier _ _ _ _ A) by exact HA.
    rewrite (evalLoop_identifier _ _ _ _ B) by exact HB.
    simpl stack. simpl executionTrace. by rewrite Hloop.
  - apply evaluateExpression_run with (st := mkEval [Mat r] [r]) (m := r);
      [done | | done].
    change (toRPN (tokenize "A+B"))
      with [mkToken IDENTIFIER "A"; mkToken IDENTIFIER "B"; mkToken OPERATOR "+"].
    rewrite (evalLoop_identifier _ _ _ _ A) by exact HA.
    rewrite (evalLoop_identifier _ _ _ _ B) by exact HB.
    simpl stack. simpl executionTrace. by rewrite Hloop.
Qed.

End EvaluatorProperties.

(** ** The primitives on any number of matrices *)

Lemma validateDimensionsMatch_true first others :
  validateDimensionsMatch (first :: others) = true ->
  others <> [] /\
  Forall (fun m => rows m = rows first /\ cols m = cols first) (first :: others).
Proof.
  unfold validateDimensionsMatch.
  destruct others as [| second others]; [done |]. cbn [length Nat.ltb Nat.leb].
  intros Hall. split; [done |].
  apply Forall_forall. intros m Hm%list_elem_of_In.
  eapply forallb_forall in Hall; [| exact Hm].
  apply andb_true_iff in Hall as [Hr%Nat.eqb_eq Hc%Nat.eqb_eq]. done.
Qed.

Lemma validateMultiplicationChain_adjacent ms i a b :
  validateMultiplicationChain ms = true ->
  ms !! i = Some a -> ms !! S i = Some b -> cols a = rows b.
Proof.
  unfold validateMultiplicationChain.
  destruct (length ms <? 2); [done |]. intros Hall Ha Hb.
  apply lookup_lt_Some in Hb as Hlt.
  rewrite forallb_forall in Hall. specialize (Hall i).
  rewrite Nat.add_1_r, Ha, Hb in Hall. apply Nat.eqb_eq, Hall.
  apply in_seq. lia.
Qed.

(** The accumulation loop of a cell, over matrices that are in the store. *)
Lemma foldM_cells (g : float -> float -> float) σ i j ms ds acc :
  Forall2 (fun m d => readData σ (data m) = Some d /\ i < length d) ms ds ->
  foldM (fun acc m => val <- readCell (data m) i j ; ret (g acc val)) acc ms σ
  = (Ok (foldl (fun acc d => g acc (cellAt d i j)) acc ds), σ).
Proof.
  intros Hall. revert acc. induction Hall as [| m d ms ds [Hread Hi] _ IH]; intros acc.
  - done.
  - cbn [foldM foldl]. erewrite bind_run; [apply IH |].
    erewrite bind_run; [done |]. by apply readCell_run.
Qed.

Lemma cells_readable σ σ' ms ds nrows ncols i :
  ext σ σ' -> Forall2 (holds σ) ms ds ->
  Forall (fun m => rows m = nrows /\ cols m = ncols) ms -> i < nrows ->
  Forall2 (fun m d => readData σ' (data m) = Some d /\ i < length d) ms ds.
Proof.
  intros Hext Hholds Hdims Hi.
  induction Hholds as [| m d ms ds [Hread [Hlen _]] _ IH]; [constructor |].
  apply Forall_cons in Hdims as [[Hr _] Hdims].
  constructor; [| by apply IH].
  split; [by eapply readData_mono | lia].
Qed.

Lemma addMatrices_run σ first others ds :
  Forall2 (holds σ) (first :: others) ds ->
  Forall (fun m => rows m = rows first /\ cols m = cols first) (first :: others) ->
  hoare (eq σ) (addMatrices (first :: others))
    (returns (produces σ (rows first) (cols first)
                (sumData (rows first) (cols first) ds))).
Proof.
  intros Hholds Hdims. unfold addMatrices.
  eapply hoare_bind_returns; [apply createEmptyMatrix_spec |]. intros g.
  apply hoare_pointwise. intros σ1 (rs & Hb & _).
  pose proof (building_length _ _ _ _ _ Hb) as Hrs. rewrite length_replicate in Hrs.
  eapply hoare_bind_returns.
  { eapply hoare_conseq;
      [apply (fill_loops_hoare σ g rs _ (fun i j => (i, j))
                (fun i j => foldl (fun sum d => (sum + cellAt d i j)%float) 0%float ds))
      | intros ? <-; exact Hb | intros r σ' H; exact H].
    intros i j d Hi Hj σ2 Hb2.
    assert (ext σ σ2) as Hext by apply Hb2.
    rewrite (bind_run _ _ _ _ _
               (foldM_cells (fun sum val => (sum + val)%float) σ2 i j
                  (first :: others) ds 0%float
                  (cells_readable _ _ _ _ _ _ _ Hext Hholds Hdims Hi))).
    apply writeCell_building; [lia | done]. }
  intros u σ3 Hb3.
  rewrite (fill_loops (fun i j => (i, j))
             (fun i j => foldl (fun sum d => (sum + cellAt d i j)%float) 0%float ds)
             _ _ _ (rows first) (cols first)) in Hb3.
  - destruct (building_finish _ _ _ _ _ Hb3) as (Hext & Hread & k & Hk & Hid).
    unfold bind, randomUUID, ret. simpl.
    split; [exact Hext |]. split; [split; [exact Hread | apply tabulate_shaped] |].
    eauto.
  - apply replicate_shaped.
  - done.
  - done.
  - intros i j Hi Hj. by exists i, j.
Qed.

Lemma subtractMatrices_run σ first others d0 ds :
  holds σ first d0 -> Forall2 (holds σ) others ds ->
  Forall (fun m => rows m = rows first /\ cols m = cols first) others ->
  hoare (eq σ) (subtractMatrices (first :: others))
    (returns (produces σ (rows first) (cols first)
                (differenceData (rows first) (cols first) d0 ds))).
Proof.
  intros [Hfirst [Hlen0 _]] Hholds Hdims. unfold subtractMatrices.
  eapply hoare_bind_returns; [apply createEmptyMatrix_spec |]. intros g.
  apply hoare_pointwise. intros σ1 (rs & Hb & _).
  pose proof (building_length _ _ _ _ _ Hb) as Hrs. rewrite length_replicate in Hrs.
  eapply hoare_bind_returns.
  { eapply hoare_conseq;
      [apply (fill_loops_hoare σ g rs _ (fun i j => (i, j))
                (fun i j => foldl (fun val d => (val - cellAt d i j)%float)
                                  (cellAt d0 i j) ds))
      | intros ? <-; exact Hb | intros r σ' H; exact H].
    intros i j d Hi Hj σ2 Hb2.
    assert (ext σ σ2) as Hext by apply Hb2.
    rewrite (bind_run _ _ _ _ _ (readCell_run σ2 (data first) d0 i j
               (readData_mono _ _ _ _ Hext Hfirst) ltac:(lia))).
    rewrite (bind_run _ _ _ _ _
               (foldM_cells (fun val subVal => (val - subVal)%float) σ2 i j
                  others ds (cellAt d0 i j)
                  (cells_readable _ _ _ _ _ _ _ Hext Hholds Hdims Hi))).
    apply writeCell_building; [lia | done]. }
  intros u σ3 Hb3.
  rewrite (fill_loops (fun i j => (i, j))
             (fun i j => foldl (fun val d => (val - cellAt d i j)%float)
                               (cellAt d0 i j) ds)
             _ _ _ (rows first) (cols first)) in Hb3.
  - destruct (building_finish _ _ _ _ _ Hb3) as (Hext & Hread & k & Hk & Hid).
    unfold bind, randomUUID, ret. simpl.
    split; [exact Hext |]. split; [split; [exact Hread | apply tabulate_shaped] |].
    eauto.
  - apply replicate_shaped.
  - done.
  - done.
  - intros i j Hi Hj. by exists i, j.
Qed.

(** X14.  On matrices that pass [validateDimensionsMatch] (two or more,
    all of the dimensions of the first), [addMatrices] returns a matrix of
    those dimensions whose cell [(i, j)] is the sum of the cells [(i, j)]
    of all of them, added in order from [0] and not rounded; the matrices
    themselves are left as they were. *)
Theorem addMatrices_sums_validated_matrices σ first others ds :
  validateDimensionsMatch (first :: others) = true ->
  Forall2 (holds σ) (first :: others) ds ->
  exists r σ',
    addMatrices (first :: others) σ = (Ok r, σ') /\
    rows r = rows first /\ cols r = cols first /\
    readData σ' (data r) = Some (sumData (rows first) (cols first) ds) /\
    Forall2 (holds σ') (first :: others) ds.
Proof.
  intros [_ Hdims]%validateDimensionsMatch_true Hholds.
  destruct (hoare_run _ _ _ (addMatrices_run σ first others ds Hholds Hdims))
    as (r & σ' & Hrun & Hext & [Hread _] & Hrows & Hcols & _).
  exists r, σ'. repeat (split; [done |]).
  eapply Forall2_impl; [exact Hholds |]. intros m d. by apply holds_mono.
Qed.

(** X15.  On matrices that pass [validateDimensionsMatch],
    [subtractMatrices] returns a matrix of their dimensions whose cell
    [(i, j)] is that of the first matrix minus those of the others,
    subtracted in order and not rounded; the matrices themselves are left
    as they were. *)
Theorem subtractMatrices_subtracts_in_sequence σ first others d0 ds :
  validateDimensionsMatch (first :: others) = true ->
  holds σ first d0 -> Forall2 (holds σ) others ds ->
  exists r σ',
    subtractMatrices (first :: others) σ = (Ok r, σ') /\
    rows r = rows first /\ cols r = cols first /\
    readData σ' (data r) = Some (differenceData (rows first) (cols first) d0 ds) /\
    holds σ' first d0 /\ Forall2 (holds σ') others ds.
Proof.
  intros [_ Hdims]%validateDimensionsMatch_true Hfirst Hholds.
  apply Forall_cons in Hdims as [_ Hdims].
  destruct (hoare_run _ _ _ (subtractMatrices_run σ first others d0 ds Hfirst Hholds Hdims))
    as (r & σ' & Hrun & Hext & [Hread _] & Hrows & Hcols & _).
  exists r, σ'. repeat (split; [done |]). split; [by eapply holds_mono |].
  eapply Forall2_impl; [exact Hholds |]. intros m d. by apply holds_mono.
Qed.

Lemma chain_run σ cur dcur others ds :
  holds σ cur dcur -> Forall2 (holds σ) others ds ->
  (forall i a b,
     (cur :: others) !! i = Some a -> (cur :: others) !! S i = Some b ->
     cols a = rows b) ->
  exists r σ',
    foldM (fun currentResult nextMatrix => multiplyTwoMatrices currentResult nextMatrix)
          cur others σ = (Ok r, σ') /\
    ext σ σ' /\
    holds σ' r (chainData (rows cur) (cols cur) dcur (zip others ds)) /\
    rows r = rows cur /\ cols r = cols (default cur (last others)).
Proof.
  revert ds σ cur dcur.
  induction others as [| m rest IH]; intros ds σ cur dcur Hcur Hholds Hadj.
  - apply Forall2_nil_inv_l in Hholds as ->. exists cur, σ.
    split; [done |]. split; [apply ext_refl | done].
  - apply Forall2_cons_inv_l in Hholds as (dm & ds' & Hm & Hrest & ->).
    destruct (hoare_run _ _ _
                (multiplyTwoMatrices_spec σ cur m dcur dm Hcur Hm
                   (Hadj 0 cur m eq_refl eq_refl)))
      as (p & σ1 & Hrun & Hext1 & Hp & Hprows & Hpcols & _).
    destruct (IH ds' σ1 p _ Hp) as (r & σ2 & Hrun2 & Hext2 & Hr & Hrr & Hrc).
    { eapply Forall2_impl; [exact Hrest |]. intros x d. by apply holds_mono. }
    { intros [| i] a b Ha Hb.
      - assert (a = p) as -> by (simpl in Ha; congruence).
        rewrite Hpcols. by apply (Hadj 1 m b).
      - by apply (Hadj (S (S i)) a b). }
    exists r, σ2. cbn [foldM]. rewrite (bind_run _ _ _ _ _ Hrun).
    split; [exact Hrun2 |]. split; [by eapply ext_trans |].
    rewrite Hprows, Hpcols in Hr. split; [exact Hr |].
    split; [congruence |]. rewrite Hrc.
    destruct rest as [| m' rest']; [exact Hpcols |].
    change (last (m :: m' :: rest')) with (last (m' :: rest')).
    destruct (last (m' :: rest')) eqn:Hlast; [done |].
    by apply last_None in Hlast.
Qed.

(** X16.  On a chain that passes [validateMultiplicationChain] (two or
    more matrices, each with as many columns as the next has rows),
    [multiplyMatrices] returns the product taken from left to right, each
    intermediate product rounded to four decimals: a matrix of the rows of
    the first factor and the columns of the last; the factors themselves
    are left as they were. *)
Theorem multiplyMatrices_multiplies_a_validated_chain σ first others d0 ds :
  validateMultiplicationChain (first :: others) = true ->
  holds σ first d0 -> Forall2 (holds σ) others ds ->
  exists r σ',
    multiplyMatrices (first :: others) σ = (Ok (Some r), σ') /\
    rows r = rows first /\ cols r = cols (default first (last others)) /\
    readData σ' (data r)
    = Some (chainData (rows first) (cols first) d0 (zip others ds)) /\
    holds σ' first d0 /\ Forall2 (holds σ') others ds.
Proof.
  intros Hchain Hfirst Hholds.
  destruct (chain_run σ first d0 others ds Hfirst Hholds)
    as (r & σ' & Hrun & Hext & [Hread _] & Hrows & Hcols).
  { intros i a b. by apply validateMultiplicationChain_adjacent. }
  exists r, σ'. unfold multiplyMatrices. rewrite (bind_run _ _ _ _ _ Hrun).
  repeat (split; [done |]). split; [by eapply holds_mono |].
  eapply Forall2_impl; [exact Hholds |]. intros m d. by apply holds_mono.
Qed.

(** ** Grids that share nothing *)


Lemma cloneRows_run rs d σ :
  Forall2 (fun r row => rowsH σ !! r = Some row) rs d ->
  exists rs' σ',
    mapEach (fun r => row <- getRow r ; allocRow row) rs σ = (Ok rs', σ') /\
    rowsH σ ⊆ rowsH σ' /\ gridsH σ' = gridsH σ /\ rng σ' = rng σ /\
    drawn σ' = drawn σ /\
    Forall2 (fun r' row => rowsH σ' !! r' = Some row) rs' d /\
    (forall r', r' ∈ rs' -> rowsH σ !! r' = None).
Proof.
  intros Hrows. revert σ Hrows. revert d.
  induction rs as [| r rs IH]; intros d σ Hrows.
  - apply Forall2_nil_inv_l in Hrows as ->. exists [], σ. simpl.
    repeat split; try done. intros r' Hr'. by apply elem_of_nil in Hr'.
  - apply Forall2_cons_inv_l in Hrows as (row & d' & Hrow & Hrest & ->).
    simpl. unfold bind at 1 2. unfold getRow at 1. rewrite Hrow.
    unfold allocRow at 1.
    set (l := fresh (dom (rowsH σ))).
    set (σ1 := mkState (<[l:=row]> (rowsH σ)) (gridsH σ) (rng σ) (drawn σ)).
    assert (rowsH σ !! l = None) as Hl by apply not_elem_of_dom, is_fresh.
    assert (rowsH σ ⊆ rowsH σ1) as Hsub1 by (by apply insert_subseteq).
    destruct (IH d' σ1) as (rs' & σ' & Hrun & Hsub & Hg & Hn & Hd & Hall & Hfresh).
    { eapply Forall2_impl; [exact Hrest |]. intros r' row' Hr'. simpl in Hr'.
      eapply lookup_weaken; [exact Hr' | exact Hsub1]. }
    exists (l :: rs'), σ'. rewrite (bind_run _ _ _ _ _ Hrun). simpl.
    split; [done |]. split; [by etrans |]. repeat (split; [done |]). split.
    + constructor; [| done].
      eapply lookup_weaken; [| exact Hsub]. simpl. apply lookup_insert_eq.
    + intros r' [-> | Hr']%elem_of_cons; [done |].
      specialize (Hfresh r' Hr'). simpl in Hfresh.
      apply lookup_insert_None in Hfresh. tauto.
Qed.

(** X18.  [cloneMatrixData] copies a grid deeply: it returns a new grid
    with the same cells, and the two share no array, so that writing a
    cell of either one, whichever it is, leaves the cells of the other as
    they were. *)
Theorem cloneMatrixData_copies_deeply σ data d :
  readData σ data = Some d ->
  exists g σ1,
    cloneMatrixData data σ = (Ok g, σ1) /\
    ext σ σ1 /\ g <> data /\
    readData σ1 g = Some d /\
    forall i j w res σ2,
      (writeCell g i j w σ1 = (res, σ2) -> readData σ2 data = Some d) /\
      (writeCell data i j w σ1 = (res, σ2) -> readData σ2 g = Some d).
Proof.
  intros Hread. pose proof Hread as (rs & Hgrid & Hrows)%readData_Some.
  unfold cloneMatrixData.
  assert (getGrid data σ = (Ok rs, σ)) as Hget by (unfold getGrid; by rewrite Hgrid).
  rewrite (bind_run _ _ _ _ _ Hget).
  destruct (cloneRows_run rs d σ Hrows)
    as (rs' & σ1 & Hrun & Hsub & Hg & Hn & Hd & Hall & Hfresh).
  rewrite (bind_run _ _ _ _ _ Hrun). unfold allocGrid.
  set (g := fresh (dom (gridsH σ1))).
  set (σ1' := mkState (rowsH σ1) (<[g:=rs']> (gridsH σ1)) (rng σ1) (drawn σ1)).
  assert (gridsH σ1 !! g = None) as Hnew by apply not_elem_of_dom, is_fresh.
  assert (g <> data) as Hne by (intros ->; congruence).
  assert (ext σ σ1') as Hext.
  { split; simpl; [done | | done | lia]. rewrite <- Hg. by apply insert_subseteq. }
  assert (writesTo σ g rs' σ1') as Hwrites.
  { split; [done | apply lookup_insert_eq | done]. }
  exists g, σ1'. split; [done |]. split; [done |]. split; [done |]. split.
  { apply readData_Some. exists rs'. split; [apply lookup_insert_eq | done]. }
  intros i j w res σ2. split.
  - intros Hw. pose proof (writeCell_writesTo σ g rs' i j w σ1' Hwrites) as Hafter.
    rewrite Hw in Hafter. eapply readData_mono; [apply Hafter | done].
  - unfold writeCell, bind, getGrid. simpl.
    rewrite lookup_insert_ne, Hg, Hgrid by done.
    assert (readData σ1' g = Some d) as Hclone.
    { apply readData_Some. exists rs'. split; [apply lookup_insert_eq | done]. }
    destruct (rs !! i) as [r |] eqn:Hr; [| by intros [= _ <-]].
    unfold getRow. simpl.
    destruct (rowsH σ1 !! r) as [row |] eqn:Hrow; [| by intros [= _ <-]].
    intros [= _ <-]. apply readData_Some. exists rs'. simpl.
    split; [apply lookup_insert_eq |].
    apply Forall2_same_length_lookup. split; [by eapply Forall2_length |].
    intros k r' row' Hr' Hrow'.
    rewrite lookup_insert_ne; [exact (Forall2_lookup_lr _ _ _ _ _ _ Hall Hr' Hrow') |].
    intros <-. apply list_elem_of_lookup_2 in Hr'. apply Hfresh in Hr'.
    destruct (Forall2_lookup_l _ _ _ _ _ Hrows Hr) as (row0 & _ & Hrow0).
    congruence.
Qed.

(** ** The primitives on one matrix *)

Section PrimitiveProperties.

Context (numberToString : float -> string).

Lemma scalarOperation_run σ m d scalar type :
  readData σ (data m) = Some d ->
  exists r σ',
    scalarOperation numberToString m scalar type σ = (Ok r, σ') /\
    ext σ σ' /\
    readData σ' (data r)
    = Some (map (map (fun val =>
              round4 match type with
                     | SCALAR_ADD => (val + scalar)%float
                     | SCALAR_SUB => (val - scalar)%float
                     | SCALAR_MUL => (val * scalar)%float
                     | _ => val
                     end)) d) /\
    rows r = rows m /\ cols r = cols m.
Proof.
  intros (rs & Hgrid & Hrows)%readData_Some. unfold scalarOperation.
  assert (getGrid (data m) σ = (Ok rs, σ)) as Hget by (unfold getGrid; by rewrite Hgrid).
  rewrite (bind_run _ _ _ _ _ Hget).
  destruct (scaleRows_run
              (fun val => round4 match type with
                                 | SCALAR_ADD => (val + scalar)%float
                                 | SCALAR_SUB => (val - scalar)%float
                                 | SCALAR_MUL => (val * scalar)%float
                                 | _ => val
                                 end) rs d σ Hrows)
    as (rs' & σ1 & Hrun & Hsub & Hg & Hn & Hd & Hall).
  rewrite (bind_run _ _ _ _ _ Hrun). unfold bind, allocGrid, randomUUID, ret. simpl.
  assert (gridsH σ1 !! fresh (dom (gridsH σ1)) = None) as Hnew
    by apply not_elem_of_dom, is_fresh.
  eexists _, _. split; [done |]. split; [| split; [| done]].
  - split; simpl; [done | | done | lia].
    rewrite <- Hg. by apply insert_subseteq.
  - apply readData_Some. exists rs'. simpl. split; [apply lookup_insert_eq |].
    change (map ?f ?l) with (f <$> l) at 1.
    by apply Forall2_fmap_r.
Qed.

(** X19.  [scalarOperation] with SCALAR_ADD or SCALAR_SUB returns a new
    matrix of the same dimensions whose cells are those of the matrix plus,
    or minus, the scalar, rounded to four decimals; with an operation type
    that is not a scalar one it returns the cells rounded and otherwise
    unchanged.  The matrix itself is left as it was. *)
Theorem scalarOperation_adds_and_subtracts σ m d scalar :
  readData σ (data m) = Some d ->
  (exists r σ',
     scalarOperation numberToString m scalar SCALAR_ADD σ = (Ok r, σ') /\
     readData σ' (data r) = Some (map (map (fun val => round4 (val + scalar)%float)) d) /\
     rows r = rows m /\ cols r = cols m /\ readData σ' (data m) = Some d) /\
  (exists r σ',
     scalarOperation numberToString m scalar SCALAR_SUB σ = (Ok r, σ') /\
     readData σ' (data r) = Some (map (map (fun val => round4 (val - scalar)%float)) d) /\
     rows r = rows m /\ cols r = cols m /\ readData σ' (data m) = Some d) /\
  (forall type,
     type <> SCALAR_ADD -> type <> SCALAR_SUB -> type <> SCALAR_MUL ->
     exists r σ',
       scalarOperation numberToString m scalar type σ = (Ok r, σ') /\
       readData σ' (data r) = Some (map (map round4) d) /\
       rows r = rows m /\ cols r = cols m /\ readData σ' (data m) = Some d).
Proof.
  intros Hread. split; [| split].
  - destruct (scalarOperation_run σ m d scalar SCALAR_ADD Hread)
      as (r & σ' & Hrun & Hext & Hdata & Hrows & Hcols).
    exists r, σ'. repeat (split; [done |]). by eapply readData_mono.
  - destruct (scalarOperation_run σ m d scalar SCALAR_SUB Hread)
      as (r & σ' & Hrun & Hext & Hdata & Hrows & Hcols).
    exists r, σ'. repeat (split; [done |]). by eapply readData_mono.
  - intros type Hadd Hsub Hmul.
    destruct (scalarOperation_run σ m d scalar type Hread)
      as (r & σ' & Hrun & Hext & Hdata & Hrows & Hcols).
    exists r, σ'. split; [done |]. split; [| by eauto using readData_mono].
    rewrite Hdata. by destruct type.
Qed.

(** X20.  On a square matrix and an integer exponent [n], at least 1 and
    small enough for the narration of the [n - 1] products, of
    [rows * cols + 2] lines each, to fit in one array of at most
    [2^32 - 1] elements, [powerMatrix] returns a matrix of the same
    dimensions: the matrix multiplied [n - 1] times by itself, from the
    left, each product rounded to four decimals.  For the exponent 1
    nothing is computed and the result shares the grid of the matrix; the
    matrix is left as it was. *)
Theorem powerMatrix_multiplies_repeatedly σ matrix dM exponent n :
  holds σ matrix dM -> rows matrix = cols matrix ->
  integerValue exponent = Some n -> (1 <= n)%Z ->
  ((n - 1) * (Z.of_nat (rows matrix * cols matrix) + 2) <= 2 ^ 32 - 1)%Z ->
  exists r σ',
    powerMatrix numberToString matrix exponent σ = (Ok r, σ') /\
    rows r = rows matrix /\ cols r = cols matrix /\
    readData σ' (data r) = Some (powerData (Z.to_nat (n - 1)) (rows matrix) dM) /\
    (n = 1%Z -> data r = data matrix) /\
    readData σ' (data matrix) = Some dM.
Proof.
  intros HM Hsq Hint Hn Hfit.
  assert (n <= 2 ^ 53)%Z as Hsmall.
  { change (2 ^ 32 - 1)%Z with 4294967295%Z in Hfit.
    change (2 ^ 53)%Z with 9007199254740992%Z. nia. }
  destruct (hoare_run _ _ _ (powerMatrix_spec numberToString σ matrix dM exponent n
                               HM Hsq Hint (conj Hn Hsmall)))
    as (r & σ' & Hrun & (Hext & [Hread _] & Hrows & Hcols & _) & Hshare).
  exists r, σ'. split; [done |]. split; [done |]. split; [congruence |].
  split; [done |]. split; [done |]. eapply readData_mono; [done | apply HM].
Qed.

(** X27.  What "rounded to four decimals" is.  On a finite number
    [x] of magnitude [m * 2^e] below [10^21], [round4], the model of
    [parseFloat(x.toFixed(4))], returns the float nearest to [n / 10^4],
    with the sign of [x], where [n] is the integer nearest to the
    magnitude times [10^4], the larger one on a tie; it returns [0] on a
    zero, and [x] itself on any other number. *)
Theorem round4_rounds_to_the_nearest_ten_thousandth x :
  match Prim2SF x with
  | S754_finite s m e =>
      if (abs x <? 0x1.b1ae4d6e2ef5p+69)%float then
        exists n : Z,
          nearestTenThousandth m e n /\
          round4 x = if s then (- nearest_ratio n 10000)%float
                     else nearest_ratio n 10000
      else round4 x = x
  | S754_zero _ => round4 x = 0%float
  | _ => round4 x = x
  end.
Proof.
  unfold round4. destruct (Prim2SF x) as [z | i | | s m e]; try done.
  destruct (abs x <? 0x1.b1ae4d6e2ef5p+69)%float; [| done].
  unfold nearestTenThousandth.
  destruct (Z.leb_spec 0 e) as [He | He].
  - exists (Z.pos m * 2 ^ e * 10000)%Z. split; [| done].
    rewrite (Z.max_r 0 e), (Z.max_l 0 (- e)) by lia.
    change (2 ^ 0)%Z with 1%Z. lia.
  - exists ((2 * Z.pos m * 10000 + 2 ^ (- e)) / 2 ^ (1 - e))%Z. split; [| done].
    rewrite (Z.max_l 0 e), (Z.max_r 0 (- e)) by lia.
    change (2 ^ 0)%Z with 1%Z.
    replace (1 - e)%Z with (1 + (- e))%Z by lia.
    rewrite Z.pow_add_r by lia. change (2 ^ 1)%Z with 2%Z.
    assert (0 < 2 ^ (- e))%Z as Hd by (apply Z.pow_pos_nonneg; lia).
    set (d := (2 ^ (- e))%Z) in *.
    set (v := (2 * Z.pos m * 10000 + d)%Z).
    pose proof (Z.div_mod v (2 * d) ltac:(lia)) as Hdiv.
    pose proof (Z.mod_pos_bound v (2 * d) ltac:(lia)) as Hmod.
    subst v. nia.
Qed.

End PrimitiveProperties.

(** X21.  [transposeMatrix] returns a new matrix whose dimensions are
    those of the matrix, swapped, and whose cell [(j, i)] is the cell
    [(i, j)] of the matrix, unrounded; the matrix is left as it was. *)
Theorem transposeMatrix_swaps_rows_and_columns σ m d :
  holds σ m d ->
  exists r σ' d',
    transposeMatrix m σ = (Ok r, σ') /\
    rows r = cols m /\ cols r = rows m /\
    readData σ' (data r) = Some d' /\ shaped (cols m) (rows m) d' /\
    (forall i j, i < rows m -> j < cols m -> cellAt d' j i = cellAt d i j) /\
    readData σ' (data m) = Some d.
Proof.
  intros Hm.
  destruct (hoare_run _ _ _ (transposeMatrix_spec σ m d Hm))
    as (r & σ' & Hrun & Hext & [Hread Hshape] & Hrows & Hcols & _).
  exists r, σ', (transposeData (rows m) (cols m) d).
  rewrite Hrows, Hcols in Hshape. repeat (split; [done |]). split.
  - intros i j Hi Hj. unfold transposeData. by rewrite cellAt_tabulate.
  - eapply readData_mono; [done | apply Hm].
Qed.

(** ** The resolver *)

(** X22.  A matrix is resolved by its full name in upper case and by its
    alias, whatever comes before it in the list, provided no later matrix
    of the list has that name or that alias: of several matrices that
    claim a key, the last one wins. *)
Theorem last_claim_of_a_key_wins pre m post key :
  key = toUpperCase (name m) \/ aliasOf m = Some key ->
  (forall x, x ∈ post -> toUpperCase (name x) <> key /\ aliasOf x <> Some key) ->
  buildMatrixMap (pre ++ m :: post) !! key = Some m.
Proof.
  intros Hkey Hpost. unfold buildMatrixMap. rewrite registerAll_app.
  cbn [registerAll]. apply registerAll_keeps; [| done].
  rewrite register_lookup. unfold registered.
  destruct Hkey as [-> | Halias]; repeat case_decide; congruence.
Qed.

Lemma fromCharCode_inj a b : a < 256 -> b < 256 -> fromCharCode a = fromCharCode b -> a = b.
Proof.
  intros Ha Hb [= Heq]. apply (f_equal nat_of_ascii) in Heq.
  by rewrite !nat_ascii_embedding in Heq.
Qed.

(** A key stays free while no entity claims it by name, alias or position. *)
Lemma registerAll_free ms idx matrixMap key :
  matrixMap !! key = None ->
  (forall x, x ∈ ms -> toUpperCase (name x) <> key /\ aliasOf x <> Some key) ->
  (forall k, idx <= k < idx + length ms -> fromCharCode (65 + k) <> key) ->
  registerAll ms idx matrixMap !! key = None.
Proof.
  revert idx matrixMap. induction ms as [| x ms IH]; intros idx matrixMap Hfree Hms Hpos;
    [done |].
  simpl. apply IH.
  - rewrite register_lookup. unfold registered.
    destruct (Hms x) as [Hname Halias]; [by left |].
    specialize (Hpos idx ltac:(simpl; lia)).
    repeat case_decide; congruence.
  - intros y Hy. apply Hms. by right.
  - intros k Hk. apply Hpos. simpl. lia.
Qed.

(** X23.  The positional fallback: the matrix at index [k] of the list,
    for [k] below 26, is resolved by the [k]-th letter of the alphabet
    whenever no matrix of the list has that letter as its name or its
    alias. *)
Theorem positional_letter_resolves ms k m :
  ms !! k = Some m -> k < 26 ->
  (forall x, x ∈ ms ->
     toUpperCase (name x) <> fromCharCode (65 + k) /\
     aliasOf x <> Some (fromCharCode (65 + k))) ->
  buildMatrixMap ms !! fromCharCode (65 + k) = Some m.
Proof.
  intros Hm Hk Hms.
  rewrite <- (take_drop_middle ms k m Hm) in Hms |- *.
  assert (length (take k ms) = k) as Hlen.
  { rewrite length_take. apply lookup_lt_Some in Hm. lia. }
  unfold buildMatrixMap. rewrite registerAll_app, Hlen. cbn [registerAll].
  apply registerAll_keeps.
  - rewrite register_lookup. unfold registered.
    destruct (Hms m) as [Hname Halias]; [apply elem_of_app; right; by left |].
    change (0 + k) with k.
    rewrite (registerAll_free (take k ms) 0 ∅ (fromCharCode (65 + k))).
    + by repeat case_decide.
    + done.
    + intros x Hx. apply Hms, elem_of_app. by left.
    + intros j Hj Heq. apply fromCharCode_inj in Heq; lia.
  - intros x Hx. apply Hms, elem_of_app. right. by right.
Qed.

(** ** Editing a cell *)

Lemma updateRows_run rs d σ i r c val :
  Forall2 (fun ref row => rowsH σ !! ref = Some row) rs d ->
  exists rs' σ',
    updateRows i r c val rs σ = (Ok rs', σ') /\
    rowsH σ ⊆ rowsH σ' /\ gridsH σ' = gridsH σ /\ rng σ' = rng σ /\
    drawn σ' = drawn σ /\
    Forall2 (fun ref row => rowsH σ' !! ref = Some row) rs'
            (if decide (i <= r) then alter (fun row => setIndex row c val) (r - i) d
             else d).
Proof.
  revert d σ i. induction rs as [| ref rs IH]; intros d σ i Hrows.
  - apply Forall2_nil_inv_l in Hrows as ->. exists [], σ. simpl.
    repeat split; try done. by case_decide.
  - apply Forall2_cons_inv_l in Hrows as (row & d' & Hrow & Hrest & ->).
    cbn [updateRows]. destruct (Nat.eqb_spec i r) as [-> | Hne].
    + unfold bind at 1 2. unfold getRow at 1. rewrite Hrow. unfold allocRow at 1.
      set (l := fresh (dom (rowsH σ))).
      set (σ1 := mkState (<[l:=setIndex row c val]> (rowsH σ)) (gridsH σ) (rng σ)
                         (drawn σ)).
      assert (rowsH σ !! l = None) as Hl by apply not_elem_of_dom, is_fresh.
      assert (rowsH σ ⊆ rowsH σ1) as Hsub1 by (by apply insert_subseteq).
      destruct (IH d' σ1 (S r)) as (rs' & σ' & Hrun & Hsub & Hg & Hn & Hd & Hall).
      { eapply Forall2_impl; [exact Hrest |]. intros r' row' Hr'. simpl in Hr'.
        eapply lookup_weaken; [exact Hr' | exact Hsub1]. }
      exists (l :: rs'), σ'. rewrite (bind_run _ _ _ _ _ Hrun). simpl.
      split; [done |]. split; [by etrans |]. repeat (split; [done |]).
      destruct (decide (S r <= r)) as [? | _]; [lia |].
      destruct (decide (r <= r)) as [_ | ?]; [| lia].
      rewrite Nat.sub_diag. simpl. constructor; [| done].
      eapply lookup_weaken; [| exact Hsub]. simpl. apply lookup_insert_eq.
    + destruct (IH d' σ (S i) Hrest) as (rs' & σ' & Hrun & Hsub & Hg & Hn & Hd & Hall).
      exists (ref :: rs'), σ'. unfold bind at 1. unfold ret at 1.
      rewrite (bind_run _ _ _ _ _ Hrun). simpl.
      repeat (split; [done |]).
      assert (rowsH σ' !! ref = Some row) as Href by (by eapply lookup_weaken).
      destruct (decide (i <= r)) as [Hle | Hgt].
      * destruct (decide (S i <= r)) as [_ | ?]; [| lia].
        replace (r - i) with (S (r - S i)) by lia. simpl. by constructor.
      * destruct (decide (S i <= r)) as [? | _]; [lia |]. by constructor.
Qed.

Lemma edited_mono σ σ' id0 r c val m d m' :
  ext σ σ' -> edited σ id0 r c val m d m' -> edited σ' id0 r c val m d m'.
Proof.
  intros Hext. unfold edited. destruct (String.eqb (id m) id0); [| done].
  intros (? & ? & ? & ? & Hread). repeat (split; [done |]).
  by eapply readData_mono.
Qed.

(** X24.  Editing a cell copies on write.  [updateMatrixData] always
    succeeds on matrices that are in the store: the matrix with the given
    identifier becomes an entity with the same identifier, name and
    dimensions and a new grid, the old one with cell [(r, c)] set (no cell
    changes when [r] is not a row of it); every other matrix stays the
    same entity; and every array that existed before is left as it was, so
    the matrices of the old list, and whatever shares a grid with them,
    read the same cells as before. *)
Theorem updateMatrixData_copies_on_write σ ms ds id0 r c val :
  Forall2 (fun m d => readData σ (data m) = Some d) ms ds ->
  exists ms' σ',
    updateMatrixData ms id0 r c val σ = (Ok ms', σ') /\
    ext σ σ' /\
    Forall2 (fun m d => readData σ' (data m) = Some d) ms ds /\
    Forall3 (edited σ' id0 r c val) ms ds ms'.
Proof.
  intros Hall. revert σ Hall. revert ds.
  induction ms as [| m ms IH]; intros ds σ Hall.
  - apply Forall2_nil_inv_l in Hall as ->. exists [], σ.
    split; [done |]. split; [apply ext_refl |]. split; constructor.
  - apply Forall2_cons_inv_l in Hall as (d & ds' & Hread & Hrest & ->).
    assert (exists m' σ1,
              (if String.eqb (id m) id0 then
                 g <- getGrid (data m) ;
                 newRows <- updateRows 0 r c val g ;
                 newData <- allocGrid newRows ;
                 ret (mkMatrix (id m) (name m) (rows m) (cols m) newData)
               else ret m) σ = (Ok m', σ1) /\
              ext σ σ1 /\ edited σ1 id0 r c val m d m') as (m' & σ1 & Hrun1 & Hext1 & Hm').
    { unfold edited. destruct (String.eqb (id m) id0).
      - pose proof Hread as (rs & Hgrid & Hrows)%readData_Some.
        assert (getGrid (data m) σ = (Ok rs, σ)) as Hget
          by (unfold getGrid; by rewrite Hgrid).
        rewrite (bind_run _ _ _ _ _ Hget).
        destruct (updateRows_run rs d σ 0 r c val Hrows)
          as (rs' & σ1 & Hrun & Hsub & Hg & Hn & Hd & Hrows').
        rewrite (bind_run _ _ _ _ _ Hrun). unfold bind, allocGrid, ret. simpl.
        assert (gridsH σ1 !! fresh (dom (gridsH σ1)) = None) as Hnew
          by apply not_elem_of_dom, is_fresh.
        eexists _, _. split; [done |]. split.
        + split; simpl; [done | | done | lia]. rewrite <- Hg. by apply insert_subseteq.
        + repeat (split; [done |]). apply readData_Some. exists rs'. simpl.
          split; [apply lookup_insert_eq |].
          destruct (decide (0 <= r)) as [_ | ?]; [| lia].
          by rewrite Nat.sub_0_r in Hrows'.
      - exists m, σ. split; [done |]. split; [apply ext_refl | done]. }
    destruct (IH ds' σ1) as (ms' & σ2 & Hrun2 & Hext2 & Hold & Hnew).
    { eapply Forall2_impl; [exact Hrest |]. intros x dx. by apply readData_mono. }
    exists (m' :: ms'), σ2. unfold updateMatrixData in *. cbn [mapEach].
    rewrite (bind_run _ _ _ _ _ Hrun1), (bind_run _ _ _ _ _ Hrun2).
    split; [done |]. split; [by eapply ext_trans |]. split.
    + constructor; [| done].
      apply (readData_mono σ σ2); [by apply (ext_trans _ σ1) | done].
    + constructor; [by apply (edited_mono σ1) | done].
Qed.

(** ** The names the interface gives *)

Section NameProperties.

Context (numberToString : float -> string).

Lemma matrixName_keys j x :
  j < 26 -> name x = matrixName j ->
  aliasOf x = Some (fromCharCode (65 + j)) /\
  forall k, toUpperCase (name x) <> fromCharCode k.
Proof.
  intros Hj Hname. unfold aliasOf. rewrite Hname.
  do 26 (destruct j as [| j];
         [split; [reflexivity |];
          intros k Heq; apply (f_equal String.length) in Heq; discriminate Heq |]).
  lia.
Qed.

Lemma matrixName_resolves ms k m :
  length ms <= 26 ->
  (forall j x, ms !! j = Some x -> name x = matrixName j) ->
  ms !! k = Some m ->
  buildMatrixMap ms !! fromCharCode (65 + k) = Some m.
Proof.
  intros Hlen Hnames Hm.
  assert (forall j x, ms !! j = Some x ->
            aliasOf x = Some (fromCharCode (65 + j)) /\
            forall k, toUpperCase (name x) <> fromCharCode k) as Hkeys.
  { intros j x Hx. apply matrixName_keys; [| by apply Hnames].
    apply lookup_lt_Some in Hx. lia. }
  destruct (Hkeys k m Hm) as [Halias Hname].
  rewrite <- (take_drop_middle ms k m Hm).
  unfold buildMatrixMap. rewrite registerAll_app. cbn [registerAll].
  apply registerAll_keeps.
  - rewrite register_lookup. unfold registered. by repeat case_decide.
  - intros x [i Hx]%list_elem_of_lookup. rewrite lookup_drop in Hx.
    destruct (Hkeys _ x Hx) as [Halias' Hname']. split; [apply Hname' |].
    rewrite Halias'. intros Heq. apply lookup_lt_Some in Hx.
    assert (fromCharCode (65 + (S k + i)) = fromCharCode (65 + k)) as Heq'
      by congruence.
    apply fromCharCode_inj in Heq'; lia.
Qed.

(** X25.  The names the interface gives are the identifiers of the
    expressions.  In a list of at most 26 matrices that carry the names of
    the template of [addMatrix] by index ("Matriz A", "Matriz B", ...),
    every matrix is resolved by the letter of its index, in either letter
    case. *)
Theorem template_names_are_the_identifiers ms k m lexeme st σ :
  length ms <= 26 ->
  (forall j x, ms !! j = Some x -> name x = matrixName j) ->
  ms !! k = Some m ->
  toUpperCase lexeme = fromCharCode (65 + k) ->
  buildMatrixMap ms !! fromCharCode (65 + k) = Some m /\
  evalToken numberToString (buildMatrixMap ms) st (mkToken IDENTIFIER lexeme) σ
  = (Ok (mkEval (Mat m :: stack st) (executionTrace st)), σ).
Proof.
  intros Hlen Hnames Hm Hlex.
  pose proof (matrixName_resolves ms k m Hlen Hnames Hm) as Hres.
  split; [exact Hres |]. unfold evalToken. simpl. by rewrite Hlex, Hres.
Qed.

End NameProperties.

(** ** Concrete runs of the further properties *)

Lemma sampleStore2_noCollision : noCollision sampleStore2 sampleInputs2.
Proof.
  intros k m _ Hm Heq. unfold sampleInputs2 in Hm.
  repeat (apply elem_of_cons in Hm as [-> | Hm];
          [vm_compute in Heq; discriminate Heq |]).
  by apply elem_of_nil in Hm.
Qed.

Lemma sampleA_holds2 : holds sampleStore2 sampleA sampleDataA.
Proof. split; [reflexivity |]. split; [reflexivity | by repeat constructor]. Qed.

Lemma sampleB_holds2 : holds sampleStore2 sampleB sampleDataB.
Proof. split; [reflexivity |]. split; [reflexivity | by repeat constructor]. Qed.

Lemma sampleC_holds : holds sampleStore2 sampleC sampleDataC.
Proof. split; [reflexivity |]. split; [reflexivity | by repeat constructor]. Qed.

Lemma sampleD_holds : holds sampleStore2 sampleD sampleDataD.
Proof. split; [reflexivity |]. split; [reflexivity | by repeat constructor]. Qed.

Lemma sampleStoreF_noCollision : noCollision sampleStoreF sampleInputsF.
Proof.
  intros k m _ Hm Heq. unfold sampleInputsF in Hm.
  repeat (apply elem_of_cons in Hm as [-> | Hm];
          [vm_compute in Heq; discriminate Heq |]).
  by apply elem_of_nil in Hm.
Qed.

Lemma sampleF_holds : holds sampleStoreF sampleF sampleDataF.
Proof. split; [reflexivity |]. split; [reflexivity | by repeat constructor]. Qed.

Lemma sampleG_holds : holds sampleStoreF sampleG sampleDataG.
Proof. split; [reflexivity |]. split; [reflexivity | by repeat constructor]. Qed.

Lemma sampleH_holds : holds sampleStoreF sampleH sampleDataH.
Proof. split; [reflexivity |]. split; [reflexivity | by repeat constructor]. Qed.

Lemma tokenize_separator_witness :
  is_separator " " = true /\
  tokenize "A B" = [mkToken IDENTIFIER "A"; mkToken IDENTIFIER "B"] /\
  tokenize "AB" = [mkToken IDENTIFIER "AB"].
Proof.
  split; [reflexivity |]. split; [| reflexivity].
  exact (tokenize_separator "A" " " "B" eq_refl).
Defined.

Lemma blank_expression_witness :
  all_spaces "  " = true /\
  evaluateExpression showInteger "  " sampleInputs sampleStore
  = (Throw EmptyExpression, sampleStore).
Proof.
  split; [reflexivity |].
  exact (blank_expression_is_rejected showInteger "  " sampleInputs sampleStore eq_refl).
Defined.

Lemma bare_identifier_witness :
  evaluateExpression showInteger "b" sampleInputs sampleStore = (Ok [], sampleStore) /\
  evaluateExpression showInteger "Zeta" sampleInputs sampleStore
  = (Throw (UnknownVariable "Zeta"), sampleStore).
Proof.
  split.
  - exact (bare_identifier_computes_nothing showInteger "b" sampleInputs sampleStore
             eq_refl).
  - exact (bare_identifier_computes_nothing showInteger "Zeta" sampleInputs sampleStore
             eq_refl).
Defined.

Lemma incompatible_dimensions_witness :
  buildMatrixMap [sampleD; sampleB] !! "A" = Some sampleD /\
  evaluateExpression showInteger "A+B" [sampleD; sampleB] sampleStore2
  = (Throw DimensionMismatch, sampleStore2) /\
  evaluateExpression showInteger "A*B" [sampleD; sampleB] sampleStore2
  = (Throw DimensionMismatch, sampleStore2) /\
  evaluateExpression showInteger "A^2" [sampleD; sampleB] sampleStore2
  = (Throw DimensionMismatch, sampleStore2).
Proof.
  split; [reflexivity |].
  destruct (incompatible_dimensions_are_rejected showInteger [sampleD; sampleB]
              sampleStore2 sampleD sampleB eq_refl eq_refl) as (Hsum & Hprod & Hpow).
  split; [apply Hsum; right; simpl; lia |].
  split; [apply Hprod; simpl; lia | apply Hpow; simpl; lia].
Defined.

Lemma division_and_comma_witness :
  evaluateExpression showInteger "A/B" sampleInputs sampleStore
  = (Throw (UnknownOperator "/"), sampleStore) /\
  evaluateExpression showInteger "A,B" sampleInputs sampleStore
  = (Throw (UnknownOperator ","), sampleStore).
Proof.
  destruct (division_and_comma_are_unknown showInteger sampleInputs sampleStore
              sampleA sampleB eq_refl eq_refl) as (Hdiv & Hcomma & _).
  by split.
Defined.

Lemma trace_excludes_the_inputs_witness :
  exists r σ',
    evaluateExpression showInteger "A+B" sampleInputs sampleStore = (Ok [r], σ') /\
    id sampleA <> id r /\ id sampleB <> id r.
Proof.
  destruct (evaluateExpression showInteger "A+B" sampleInputs sampleStore)
    as [[[| r [| ? ?]] | e] σ'] eqn:Hrun; try (vm_compute in Hrun; discriminate Hrun).
  exists r, σ'. split; [reflexivity |].
  split.
  - apply (trace_excludes_the_inputs showInteger "A+B" sampleInputs sampleStore [r] σ'
             Hrun r "A" sampleA); [by left | reflexivity].
  - apply (trace_excludes_the_inputs showInteger "A+B" sampleInputs sampleStore [r] σ'
             Hrun r "B" sampleB); [by left | reflexivity].
Defined.

Lemma trace_is_bounded_witness :
  exists trace σ',
    evaluateExpression showInteger "3*A'-B^2" sampleInputs sampleStore = (Ok trace, σ') /\
    length trace <= 4.
Proof.
  destruct (evaluateExpression showInteger "3*A'-B^2" sampleInputs sampleStore)
    as [[trace | e] σ'] eqn:Hrun; [| vm_compute in Hrun; discriminate Hrun].
  exists trace, σ'. split; [reflexivity |].
  exact (trace_is_bounded_by_the_operators showInteger "3*A'-B^2" sampleInputs
           sampleStore trace σ' Hrun).
Defined.

Lemma well_formed_inputs_witness :
  evaluateExpression showInteger "A+" sampleInputs sampleStore
  = (Throw MissingOperand, sampleStore) /\
  engineError MissingOperand = true.
Proof.
  split; [reflexivity |].
  apply (well_formed_inputs_fail_as_specified showInteger "A+" sampleInputs sampleStore
           MissingOperand sampleStore sampleInputs_wf); [| reflexivity].
  by repeat constructor.
Defined.

Lemma operands_in_order_witness :
  (exists r σ',
     evaluateExpression showInteger "A-B" sampleInputsF sampleStoreF = (Ok [r], σ') /\
     readData σ' (data r)
     = Some [[parseFloat "0.1" - parseFloat "10.12346"; parseFloat "0.2" - parseFloat "1.1"];
             [parseFloat "0.3" - parseFloat "0.7"; parseFloat "0.4" - parseFloat "2.5"]]%float) /\
  (exists r σ',
     evaluateExpression showInteger "A*B" sampleInputsF sampleStoreF = (Ok [r], σ') /\
     readData σ' (data r) = Some (decimals [["1.1523"; "0.61"]; ["3.317"; "1.33"]])) /\
  (parseFloat "0.1" * parseFloat "10.12346" + parseFloat "0.2" * parseFloat "0.7"
   =? parseFloat "1.1523")%float = false.
Proof.
  destruct (operands_are_taken_in_order showInteger sampleInputsF sampleStoreF
              sampleF sampleG sampleDataF sampleDataG eq_refl eq_refl
              sampleF_holds sampleG_holds sampleStoreF_noCollision) as [Hsub Hmul].
  split; [| split; [| reflexivity]].
  - destruct (Hsub eq_refl eq_refl) as (r & σ' & Hrun & Hread & _).
    exists r, σ'. split; [exact Hrun |]. rewrite Hread. reflexivity.
  - destruct (Hmul eq_refl) as (r & σ' & Hrun & Hread & _).
    exists r, σ'. split; [exact Hrun |]. rewrite Hread. reflexivity.
Defined.

Lemma order_of_operations_witness :
  (exists p s σ',
     evaluateExpression showInteger "A+B*C" sampleInputs2 sampleStore2
     = (Ok [p; s], σ') /\
     readData σ' (data p) = Some [[6; 5]; [8; 7]]%float /\
     readData σ' (data s) = Some [[7; 7]; [11; 11]]%float) /\
  (exists s p σ',
     evaluateExpression showInteger "(A+B)*C" sampleInputs2 sampleStore2
     = (Ok [s; p], σ') /\
     readData σ' (data s) = Some [[6; 8]; [10; 12]]%float /\
     readData σ' (data p) = Some [[8; 6]; [12; 10]]%float) /\
  (exists d1 d2 σ',
     evaluateExpression showInteger "A-B-C" sampleInputs2 sampleStore2
     = (Ok [d1; d2], σ') /\
     readData σ' (data d1) = Some [[-4; -4]; [-4; -4]]%float /\
     readData σ' (data d2) = Some [[-4; -5]; [-5; -4]]%float).
Proof.
  destruct (order_of_operations showInteger sampleInputs2 sampleStore2
              sampleA sampleB sampleC sampleDataA sampleDataB sampleDataC
              eq_refl eq_refl eq_refl sampleA_holds2 sampleB_holds2 sampleC_holds
              sampleStore2_noCollision) as (Hprec & Hparen & Hleft).
  split; [| split].
  - destruct (Hprec eq_refl eq_refl eq_refl) as (p & s & σ' & Hrun & Hp & Hs).
    exists p, s, σ'. split; [exact Hrun |]. rewrite Hp, Hs. split; reflexivity.
  - destruct (Hparen eq_refl eq_refl eq_refl) as (s & p & σ' & Hrun & Hs & Hp).
    exists s, p, σ'. split; [exact Hrun |]. rewrite Hp, Hs. split; reflexivity.
  - destruct (Hleft eq_refl eq_refl eq_refl eq_refl) as (d1 & d2 & σ' & Hrun & H1 & H2).
    exists d1, d2, σ'. split; [exact Hrun |]. rewrite H1, H2. split; reflexivity.
Defined.

Lemma addMatrices_witness :
  validateDimensionsMatch [sampleA; sampleB; sampleC] = true /\
  exists r σ',
    addMatrices [sampleA; sampleB; sampleC] sampleStore2 = (Ok r, σ') /\
    readData σ' (data r) = Some [[6; 9]; [11; 12]]%float.
Proof.
  split; [reflexivity |].
  destruct (addMatrices_sums_validated_matrices sampleStore2 sampleA [sampleB; sampleC]
              [sampleDataA; sampleDataB; sampleDataC] eq_refl)
    as (r & σ' & Hrun & _ & _ & Hread & _).
  { constructor; [apply sampleA_holds2 |]. constructor; [apply sampleB_holds2 |].
    constructor; [apply sampleC_holds | constructor]. }
  exists r, σ'. split; [exact Hrun |]. rewrite Hread. reflexivity.
Defined.

Lemma subtractMatrices_witness :
  exists r σ',
    subtractMatrices [sampleA; sampleB; sampleC] sampleStore2 = (Ok r, σ') /\
    readData σ' (data r) = Some [[-4; -5]; [-5; -4]]%float.
Proof.
  destruct (subtractMatrices_subtracts_in_sequence sampleStore2 sampleA
              [sampleB; sampleC] sampleDataA [sampleDataB; sampleDataC]
              eq_refl sampleA_holds2)
    as (r & σ' & Hrun & _ & _ & Hread & _).
  { constructor; [apply sampleB_holds2 |].
    constructor; [apply sampleC_holds | constructor]. }
  exists r, σ'. split; [exact Hrun |]. rewrite Hread. reflexivity.
Defined.

Lemma multiplyMatrices_witness :
  validateMultiplicationChain [sampleF; sampleG; sampleH] = true /\
  exists r σ',
    multiplyMatrices [sampleF; sampleG; sampleH] sampleStoreF = (Ok (Some r), σ') /\
    rows r = 2 /\ cols r = 3 /\
    readData σ' (data r)
    = Some (decimals [["23.723"; "2.0266"; "1.3285"]; ["59.77"; "4.9819"; "3.7817"]]).
Proof.
  split; [reflexivity |].
  destruct (multiplyMatrices_multiplies_a_validated_chain sampleStoreF sampleF
              [sampleG; sampleH] sampleDataF [sampleDataG; sampleDataH]
              eq_refl sampleF_holds)
    as (r & σ' & Hrun & Hrows & Hcols & Hread & _).
  { constructor; [apply sampleG_holds |].
    constructor; [apply sampleH_holds | constructor]. }
  exists r, σ'. split; [exact Hrun |]. split; [exact Hrows |]. split; [exact Hcols |].
  rewrite Hread. reflexivity.
Defined.

Lemma cloneMatrixData_witness :
  exists g σ1,
    cloneMatrixData (data sampleA) sampleStore = (Ok g, σ1) /\
    g <> data sampleA /\ readData σ1 g = Some sampleDataA.
Proof.
  destruct (cloneMatrixData_copies_deeply sampleStore (data sampleA) sampleDataA eq_refl)
    as (g & σ1 & Hrun & _ & Hne & Hread & _).
  by exists g, σ1.
Defined.

Lemma scalarOperation_witness :
  (exists r σ',
     scalarOperation showInteger sampleF (parseFloat "0.2") SCALAR_ADD sampleStoreF
     = (Ok r, σ') /\
     readData σ' (data r) = Some (decimals [["0.3"; "0.4"]; ["0.5"; "0.6"]])) /\
  (exists r σ',
     scalarOperation showInteger sampleF (parseFloat "0.1") SCALAR_SUB sampleStoreF
     = (Ok r, σ') /\
     readData σ' (data r) = Some (decimals [["0"; "0.1"]; ["0.2"; "0.3"]])) /\
  (exists r σ',
     scalarOperation showInteger sampleG 0 TRANSPOSE sampleStoreF = (Ok r, σ') /\
     readData σ' (data r) = Some (decimals [["10.1235"; "1.1"]; ["0.7"; "2.5"]])) /\
  (parseFloat "0.1" + parseFloat "0.2" =? parseFloat "0.3")%float = false /\
  (parseFloat "0.3" - parseFloat "0.1" =? parseFloat "0.2")%float = false.
Proof.
  split; [| split; [| split; [| split; reflexivity]]].
  - destruct (scalarOperation_adds_and_subtracts showInteger sampleStoreF sampleF
                sampleDataF (parseFloat "0.2") eq_refl)
      as ((r & σ' & Hrun & Hread & _) & _ & _).
    exists r, σ'. split; [exact Hrun |]. rewrite Hread. reflexivity.
  - destruct (scalarOperation_adds_and_subtracts showInteger sampleStoreF sampleF
                sampleDataF (parseFloat "0.1") eq_refl)
      as (_ & (r & σ' & Hrun & Hread & _) & _).
    exists r, σ'. split; [exact Hrun |]. rewrite Hread. reflexivity.
  - destruct (scalarOperation_adds_and_subtracts showInteger sampleStoreF sampleG
                sampleDataG 0 eq_refl) as (_ & _ & Hother).
    destruct (Hother TRANSPOSE) as (r & σ' & Hrun & Hread & _); try discriminate.
    exists r, σ'. split; [exact Hrun |]. rewrite Hread. reflexivity.
Defined.

Lemma powerMatrix_witness :
  exists r σ',
    powerMatrix showInteger sampleG 3 sampleStoreF = (Ok r, σ') /\
    readData σ' (data r)
    = Some (decimals [["1055.0118"; "148.2943"]; ["94.3689"; "27.27"]]).
Proof.
  destruct (powerMatrix_multiplies_repeatedly showInteger sampleStoreF sampleG
              sampleDataG 3 3 sampleG_holds eq_refl eq_refl ltac:(lia) ltac:(done))
    as (r & σ' & Hrun & _ & _ & Hread & _).
  exists r, σ'. split; [exact Hrun |]. rewrite Hread. reflexivity.
Defined.

Lemma transposeMatrix_witness :
  exists r σ' d',
    transposeMatrix sampleD sampleStore2 = (Ok r, σ') /\
    rows r = 3 /\ cols r = 2 /\
    readData σ' (data r) = Some d' /\ cellAt d' 2 1 = 3%float.
Proof.
  destruct (transposeMatrix_swaps_rows_and_columns sampleStore2 sampleD sampleDataD
              sampleD_holds)
    as (r & σ' & d' & Hrun & Hrows & Hcols & Hread & _ & Hcells & _).
  exists r, σ', d'. repeat (split; [done |]).
  rewrite (Hcells 1 2) by (simpl; lia). reflexivity.
Defined.

Lemma last_claim_witness :
  buildMatrixMap ([sampleA] ++ plainA :: [sampleB]) !! "A" = Some plainA.
Proof.
  apply last_claim_of_a_key_wins; [by left |].
  intros x Hx. apply elem_of_cons in Hx as [-> | Hx]; [| by apply elem_of_nil in Hx].
  split; vm_compute; discriminate.
Defined.

Lemma positional_letter_witness :
  buildMatrixMap [sampleD; sampleB] !! "A" = Some sampleD.
Proof.
  apply (positional_letter_resolves [sampleD; sampleB] 0 sampleD); [reflexivity | lia |].
  intros x Hx.
  apply elem_of_cons in Hx as [-> | Hx];
    [| apply elem_of_cons in Hx as [-> | Hx]; [| by apply elem_of_nil in Hx]];
    split; vm_compute; discriminate.
Defined.

Lemma updateMatrixData_witness :
  exists m' σ',
    updateMatrixData sampleInputs "id-a" 0 1 9 sampleStore = (Ok [m'; sampleB], σ') /\
    readData σ' (data m') = Some [[1; 9]; [3; 4]]%float /\
    readData σ' (data sampleA) = Some sampleDataA.
Proof.
  destruct (updateMatrixData_copies_on_write sampleStore sampleInputs
              [sampleDataA; sampleDataB] "id-a" 0 1 9)
    as (ms' & σ' & Hrun & _ & Hold & Hnew).
  { by repeat constructor. }
  apply Forall3_cons_inv_l in Hnew as (dA & ? & m' & ms1 & [= <- <-] & -> & HA & Hnew).
  apply Forall3_cons_inv_l in Hnew as (dB & ? & mB & ms2 & [= <- <-] & -> & HB & Hnew).
  apply Forall3_length_lr in Hnew. destruct ms2 as [| ? ?]; [| discriminate Hnew].
  unfold edited in HA, HB. simpl in HA, HB. subst mB.
  destruct HA as (_ & _ & _ & _ & Hread).
  exists m', σ'. split; [exact Hrun |]. split; [rewrite Hread; reflexivity |].
  by apply Forall2_cons in Hold as [? _].
Defined.

Lemma template_names_witness :
  name sampleB = matrixName 1 /\
  buildMatrixMap sampleInputs !! "B" = Some sampleB /\
  evalToken showInteger (buildMatrixMap sampleInputs) (mkEval [] [])
            (mkToken IDENTIFIER "b") sampleStore
  = (Ok (mkEval [Mat sampleB] []), sampleStore).
Proof.
  split; [reflexivity |].
  apply (template_names_are_the_identifiers showInteger sampleInputs 1 sampleB "b"
           (mkEval [] []) sampleStore); [simpl; lia | | reflexivity | reflexivity].
  intros [| [| j]] x Hx; [by injection Hx as <- | by injection Hx as <- | done].
Defined.

Lemma unbalanced_parentheses_witness :
  exists r σ',
    evaluateExpression showInteger "(A+B" sampleInputs sampleStore = (Ok [r], σ') /\
    evaluateExpression showInteger "A+B)" sampleInputs sampleStore = (Ok [r], σ') /\
    readData σ' (data r) = Some [[6; 8]; [10; 12]]%float.
Proof.
  destruct (unbalanced_parentheses_are_accepted showInteger sampleInputs sampleStore
              sampleA sampleB sampleDataA sampleDataB eq_refl eq_refl
              sampleA_holds sampleB_holds eq_refl eq_refl sampleStore_noCollision)
    as (r & σ' & Hleft & Hright & _ & Hread).
  exists r, σ'. split; [exact Hleft |]. split; [exact Hright |].
  rewrite Hread. reflexivity.
Defined.
